(** * Halite III bot, version 13: the game map (hlt/game_map.py)

    A shallow embedding of [MapCell] and [GameMap] -- toroidal
    addressing, the distance metric, the potential field, the return-cost
    map and the two navigators -- followed by the properties proved about
    them.

    Conventions.
    - Python integers are [Z]; [%] on a positive modulus is [Z.modulo].
    - The true division [/] of Python 3 yields a binary64 float.  The
      return-cost map is embedded twice: [Binary64.dijkstra_map] runs on
      the primitive floats, with the roundings of the code;
      [dijkstra_map] takes the same sums in the rationals [Q], compared
      up to [Qeq], and is the map the statements about routes are proved
      of.  C5 states how the two are related on a uniform grid.
    - A Python dict keyed by positions is a [gmap Position _].
    - A raised exception is [Raised]; a loop is run on fuel, and
      [OutOfFuel] is a separate outcome that the termination theorems rule
      out for the fuel the entry points provide.
    - Logging has no effect on any value and is left out. *)

From Stdlib Require Import ZArith QArith Qround Lia Lqa Permutation Floats.
From stdpp Require Import base decidable countable list gmap.

Local Open Scope Z_scope.

(** ** Positions and directions (hlt/positionals.py) *)

Module Position.
Record t : Type := mk { x : Z; y : Z }.
End Position.
Abbreviation Position := Position.t.

#[global] Instance Position_eq_dec : EqDecision Position.
Proof. solve_decision. Defined.

#[global] Instance Position_countable : Countable Position.
Proof.
  refine (inj_countable' (fun p => (Position.x p, Position.y p))
                         (fun xy => Position.mk (fst xy) (snd xy)) _).
  intros []; reflexivity.
Defined.

(** Modelled from the spec: hlt/positionals.py is not part of the sources at
    hand.  The glossary has four cardinal directions (4-connectivity on the
    grid) and a fifth, non-moving, "stay"; each one is a unit offset, and
    [get_all_cardinals] enumerates the four in a fixed order. *)
Inductive Direction : Type := North | South | East | West | Still.

#[global] Instance Direction_eq_dec : EqDecision Direction.
Proof. solve_decision. Defined.

(** Modelled from the spec: the offset a direction stands for.  The
    orientation is the one [_get_target_direction] relies on: South is
    towards larger [y], East towards larger [x]. *)
Definition offset (d : Direction) : Z * Z :=
  match d with
  | North => (0, -1)
  | South => (0, 1)
  | East => (1, 0)
  | West => (-1, 0)
  | Still => (0, 0)
  end.

(** Modelled from the spec: the fixed enumeration order of the cardinals. *)
Definition get_all_cardinals : list Direction := [North; South; East; West].

(** Modelled from the spec: the opposite direction ("inverting the naive
    bearing"). *)
Definition invert (d : Direction) : Direction :=
  match d with
  | North => South
  | South => North
  | East => West
  | West => East
  | Still => Still
  end.

(** Modelled from the spec: coordinates have component-wise arithmetic. *)
Definition pos_add (p q : Position) : Position :=
  Position.mk (Position.x p + Position.x q) (Position.y p + Position.y q).

Definition pos_sub (p q : Position) : Position :=
  Position.mk (Position.x p - Position.x q) (Position.y p - Position.y q).

Definition pos_abs (p : Position) : Position :=
  Position.mk (Z.abs (Position.x p)) (Z.abs (Position.y p)).

(** Modelled from the spec: the neighbour of [p] in direction [d], before
    normalization. *)
Definition directional_offset (p : Position) (d : Direction) : Position :=
  pos_add p (Position.mk (fst (offset d)) (snd (offset d))).

(** Modelled from the spec: the four cardinal neighbours, in enumeration
    order, before normalization. *)
Definition get_surrounding_cardinals (p : Position) : list Position :=
  map (directional_offset p) get_all_cardinals.

(** The order that tuple comparison falls back on when two heap entries
    carry the same priority.  positionals.py would supply it; it is left
    open here, and nothing proved below depends on which order it is. *)
Class PositionOrder : Type := position_ltb : Position -> Position -> bool.

(** ** Entities (hlt/entity.py): the fields the map reads *)

Record Entity : Type := mkEntity {
  entity_owner : Z;
  entity_id : Z;
  entity_position : Position;
  entity_halite : Z
}.

(** ** MapCell *)

Record MapCell : Type := mkMapCell {
  position : Position;
  halite_amount : Z;
  ship : option Entity;
  structure : option Entity;
  potential : Z
}.

Definition is_occupied (c : MapCell) : bool :=
  match ship c with Some _ => true | None => false end.

(** ** GameMap *)

Record GameMap : Type := mkGameMap {
  width : Z;
  height : Z;
  _cells : list (list MapCell)
}.

Definition normalize (m : GameMap) (p : Position) : Position :=
  Position.mk (Position.x p mod width m) (Position.y p mod height m).

(** [self[location]] for a position: normalize, then index the rows.  An
    index outside a list is Python's IndexError, here [None]. *)
Definition getitem (m : GameMap) (location : Position) : option MapCell :=
  let location := normalize m location in
  row ← _cells m !! Z.to_nat (Position.y location);
  row !! Z.to_nat (Position.x location).

(** The grid as the engine hands it over: [height] rows of [width] cells,
    both at least 1. *)
Definition wf_map (m : GameMap) : Prop :=
  0 < width m ∧ 0 < height m ∧
  length (_cells m) = Z.to_nat (height m) ∧
  Forall (fun row => length row = Z.to_nat (width m)) (_cells m).

Definition normalized (m : GameMap) (p : Position) : Prop :=
  0 <= Position.x p < width m ∧ 0 <= Position.y p < height m.

Definition calculate_distance (m : GameMap) (source target : Position) : Z :=
  let source := normalize m source in
  let target := normalize m target in
  let resulting_position := pos_abs (pos_sub source target) in
  Z.min (Position.x resulting_position) (width m - Position.x resulting_position) +
  Z.min (Position.y resulting_position) (height m - Position.y resulting_position).

Definition _get_target_direction (source target : Position)
  : option Direction * option Direction :=
  (if Position.y source <? Position.y target then Some South
   else if Position.y target <? Position.y source then Some North else None,
   if Position.x source <? Position.x target then Some East
   else if Position.x target <? Position.x source then Some West else None).

Definition Qltb (a b : Q) : bool :=
  match (a ?= b)%Q with Lt => true | _ => false end.

(** [possible_moves] may in principle hold Python's [None] (a bearing that
    is absent); [get_unsafe_moves_cardinal] shows it never does. *)
Definition get_unsafe_moves (m : GameMap) (source destination : Position)
  : list (option Direction) :=
  let source := normalize m source in
  let destination := normalize m destination in
  let distance := pos_abs (pos_sub destination source) in
  let '(y_cardinality, x_cardinality) := _get_target_direction source destination in
  (if Position.x distance =? 0 then []
   else [if Qltb (inject_Z (Position.x distance)) (inject_Z (width m) / 2)
         then x_cardinality else invert <$> x_cardinality])
  ++
  (if Position.y distance =? 0 then []
   else [if Qltb (inject_Z (Position.y distance)) (inject_Z (height m) / 2)
         then y_cardinality else invert <$> y_cardinality]).

(** ** heapq

    The heap is kept as the bag of its pending entries.  [heappush] adds
    one; [heappop] takes out a least one under Python's tuple order: the
    priority first, and on equal priorities the positions, equal ones
    comparing as equal and distinct ones through [position_ltb].  With a
    total order on positions the least tuple is unique, so the entries come
    out in the order heapq's array pops them. *)

Section Heapq.
Context {po : PositionOrder} {K : Type} (cmp : K -> K -> comparison).

Definition entry_ltb (a b : K * Position) : bool :=
  match cmp (fst a) (fst b) with
  | Lt => true
  | Gt => false
  | Eq => if decide (snd a = snd b) then false else position_ltb (snd a) (snd b)
  end.

Definition heappush (q : list (K * Position)) (item : K * Position)
  : list (K * Position) := item :: q.

(** The least entry of [e :: q], and the others. *)
Fixpoint pop_min (e : K * Position) (q : list (K * Position))
  : (K * Position) * list (K * Position) :=
  match q with
  | [] => (e, [])
  | e' :: q' =>
      let '(least, rest) := pop_min e' q' in
      if entry_ltb least e then (least, e :: rest) else (e, least :: rest)
  end.

Definition heappop (q : list (K * Position))
  : option ((K * Position) * list (K * Position)) :=
  match q with
  | [] => None
  | e :: q' => Some (pop_min e q')
  end.
End Heapq.

(** ** Outcomes of a call *)

Inductive outcome (A : Type) : Type :=
| Returned (a : A)
| Raised
| OutOfFuel.
Arguments Returned {A} a.
Arguments Raised {A}.
Arguments OutOfFuel {A}.

Definition outcome_bind {A B : Type} (o : outcome A) (k : A -> outcome B)
  : outcome B :=
  match o with
  | Returned a => k a
  | Raised => Raised
  | OutOfFuel => OutOfFuel
  end.

(** Every [while q] loop below pops once per pass, and no more entries are
    ever pushed than one seed and four per coordinate expanded; the entry
    points run their loop on this much fuel. *)
Definition loop_fuel (m : GameMap) : nat :=
  Z.to_nat (4 * (width m * height m + 1) + 2).

(** ** The potential field *)

Section Potential.
Context {po : PositionOrder}.

Definition potential_state : Type :=
  list (Z * Position) * gmap Position Z * Z.

(** One pass of the loop body of [_calculate_potential_cell], after the
    pop of [(distance, position)]. *)
Definition potential_visit (m : GameMap) (id : Z)
    (distance : Z) (position : Position) (st : potential_state)
  : option potential_state :=
  let '(q, seen, potential) := st in
  let range := width m + height m in
  match seen !! position with
  | Some _ => Some (q, seen, potential)
  | None =>
      let seen := <[position := distance]> seen in
      cell ← getitem m position;
      match ship cell with
      | Some _ => Some (q, seen, potential)
      | None =>
          let halite_cell := halite_amount cell in
          let structure_cell := structure cell in
          let range_factor := range - distance in
          let potential :=
            match structure_cell with
            | Some s =>
                if entity_id s =? id
                then potential + -1000 * range_factor
                else potential + halite_cell * range_factor * range_factor
            | None => potential + halite_cell * range_factor * range_factor
            end in
          let new_distance := distance + 1 in
          let q :=
            foldl (fun q neighbour => heappush q (new_distance, normalize m neighbour))
                  q (get_surrounding_cardinals position) in
          Some (q, seen, potential)
      end
  end.

Fixpoint potential_loop (m : GameMap) (id : Z) (fuel : nat)
    (st : potential_state) : outcome Z :=
  match fuel with
  | O => OutOfFuel
  | S fuel =>
      let '(q, seen, potential) := st in
      match heappop Z.compare q with
      | None => Returned potential
      | Some ((distance, position), q) =>
          match potential_visit m id distance position (q, seen, potential) with
          | Some st => potential_loop m id fuel st
          | None => Raised
          end
      end
  end.

Definition _calculate_potential_cell (m : GameMap) (source : Position)
    (dropoffs : list Entity) (id : Z) : outcome Z :=
  potential_loop m id (loop_fuel m) ([(0, source)], ∅, 0).

(** The body of the [for direction] loop of [finding_halite]. *)
Definition finding_halite_step (m : GameMap) (ship : Entity) (id : Z)
    (acc : outcome (Z * Direction)) (direction : Direction)
  : outcome (Z * Direction) :=
  outcome_bind acc (fun '(potential_highest, move_dir) =>
    let position := normalize m (directional_offset (entity_position ship) direction) in
    match getitem m position with
    | None => Raised
    | Some cell =>
        outcome_bind
          (if is_occupied cell then Returned 0
           else _calculate_potential_cell m position [] id)
          (fun potential =>
             if potential_highest <? potential
             then Returned (potential, direction)
             else Returned (potential_highest, move_dir))
    end).

Definition finding_halite (m : GameMap) (ship : Entity) (id : Z)
  : outcome Direction :=
  outcome_bind
    (foldl (finding_halite_step m ship id) (Returned (0, Still)) get_all_cardinals)
    (fun '(_, move_dir) => Returned move_dir).
End Potential.

(** ** The return-cost map *)

(** The loop of [dijkstra_map] with its costs taken in exact arithmetic:
    [cost + halite_amount/10 + 50] is a rational sum, where the code
    rounds the quotient and each of the two sums to binary64.  The loop
    on floats is [Binary64.dijkstra_map], further down. *)

Section Dijkstra.
Context {po : PositionOrder}.

Definition dijkstra_state : Type :=
  list (Q * Position) * gmap Position Q * Z.

(** The body of the [for neighbour] loop of [dijkstra_map]. *)
Definition dijkstra_relax (m : GameMap) (cost : Q)
    (acc : option (list (Q * Position) * Z)) (neighbour : Position)
  : option (list (Q * Position) * Z) :=
  '(q, avg_halite) ← acc;
  let neighbour := normalize m neighbour in
  cell ← getitem m neighbour;
  let avg_halite := avg_halite + halite_amount cell in
  let new_cost := (cost + inject_Z (halite_amount cell) / 10 + 50)%Q in
  Some (heappush q (new_cost, neighbour), avg_halite).

(** One pass of the [while q] loop body, after the pop of
    [(cost, position)]. *)
Definition dijkstra_visit (m : GameMap) (cost : Q) (position : Position)
    (st : dijkstra_state) : option dijkstra_state :=
  let '(q, cost_map, avg_halite) := st in
  match cost_map !! position with
  | Some _ => Some (q, cost_map, avg_halite)
  | None =>
      cell ← getitem m position;
      let avg_halite := avg_halite + halite_amount cell in
      let cost_map := <[position := cost]> cost_map in
      '(q, avg_halite) ←
        foldl (dijkstra_relax m cost) (Some (q, avg_halite))
              (get_surrounding_cardinals position);
      Some (q, cost_map, avg_halite)
  end.

Fixpoint dijkstra_loop (m : GameMap) (fuel : nat) (st : dijkstra_state)
  : outcome (gmap Position Q * Q) :=
  match fuel with
  | O => OutOfFuel
  | S fuel =>
      let '(q, cost_map, avg_halite) := st in
      match heappop Qcompare q with
      | None =>
          Returned (cost_map,
                    (inject_Z avg_halite / inject_Z (width m * height m))%Q)
      | Some ((cost, position), q) =>
          match dijkstra_visit m cost position (q, cost_map, avg_halite) with
          | Some st => dijkstra_loop m fuel st
          | None => Raised
          end
      end
  end.

Definition dijkstra_map (m : GameMap) (base : Entity)
  : outcome (gmap Position Q * Q) :=
  dijkstra_loop m (loop_fuel m) ([(0%Q, entity_position base)], ∅, 0).
End Dijkstra.

(** ** The return-cost map in the code's own arithmetic *)

(** CPython evaluates [cost + halite_amount/10 + 50] in binary64: the
    quotient of the two integers is rounded to a float, and so is each of
    the two sums.  [Binary64] is [dijkstra_map] with these operations, on
    the primitive floats (IEEE 754 binary64, round to nearest even).  The
    frontier is ordered as Python orders the tuples: by [==] and [<] on
    the floats, then by the positions. *)

Module Binary64.

(** [float(z)] for an integer below 2^63 in magnitude; up to 2^53 the
    conversion is exact, and [a / b] on two such integers is the
    quotient of their floats. *)
Definition of_int (z : Z) : float :=
  match z with
  | Z0 => PrimFloat.zero
  | Zpos _ => PrimFloat.of_uint63 (Uint63.of_Z z)
  | Zneg p => PrimFloat.opp (PrimFloat.of_uint63 (Uint63.of_Z (Zpos p)))
  end.

(** The comparison of two costs inside a tuple: equal, less, or neither
    (greater, or not comparable). *)
Definition float_compare (a b : float) : comparison :=
  match PrimFloat.compare a b with
  | FEq => Eq
  | FLt => Lt
  | FGt => Gt
  | FNotComparable => Gt
  end.

(** The rational number that a finite float is. *)
Definition exact_value (f : float) : option Q :=
  match Prim2SF f with
  | S754_zero _ => Some 0%Q
  | S754_finite s m e =>
      Some ((if s then -1 else 1) * inject_Z (Zpos m) * 2 ^ e)%Q
  | _ => None
  end.

Section Dijkstra.
Context {po : PositionOrder}.

Definition dijkstra_state : Type :=
  list (float * Position) * gmap Position float * Z.

(** The body of the [for neighbour] loop of [dijkstra_map]. *)
Definition dijkstra_relax (m : GameMap) (cost : float)
    (acc : option (list (float * Position) * Z)) (neighbour : Position)
  : option (list (float * Position) * Z) :=
  '(q, avg_halite) ← acc;
  let neighbour := normalize m neighbour in
  cell ← getitem m neighbour;
  let avg_halite := avg_halite + halite_amount cell in
  let new_cost := (cost + of_int (halite_amount cell) / 10 + 50)%float in
  Some (heappush q (new_cost, neighbour), avg_halite).

(** One pass of the [while q] loop body, after the pop of
    [(cost, position)]. *)
Definition dijkstra_visit (m : GameMap) (cost : float) (position : Position)
    (st : dijkstra_state) : option dijkstra_state :=
  let '(q, cost_map, avg_halite) := st in
  match cost_map !! position with
  | Some _ => Some (q, cost_map, avg_halite)
  | None =>
      cell ← getitem m position;
      let avg_halite := avg_halite + halite_amount cell in
      let cost_map := <[position := cost]> cost_map in
      '(q, avg_halite) ←
        foldl (dijkstra_relax m cost) (Some (q, avg_halite))
              (get_surrounding_cardinals position);
      Some (q, cost_map, avg_halite)
  end.

Fixpoint dijkstra_loop (m : GameMap) (fuel : nat) (st : dijkstra_state)
  : outcome (gmap Position float * float) :=
  match fuel with
  | O => OutOfFuel
  | S fuel =>
      let '(q, cost_map, avg_halite) := st in
      match heappop float_compare q with
      | None =>
          Returned (cost_map,
                    (of_int avg_halite / of_int (width m * height m))%float)
      | Some ((cost, position), q) =>
          match dijkstra_visit m cost position (q, cost_map, avg_halite) with
          | Some st => dijkstra_loop m fuel st
          | None => Raised
          end
      end
  end.

Definition dijkstra_map (m : GameMap) (base : Entity)
  : outcome (gmap Position float * float) :=
  dijkstra_loop m (loop_fuel m) ([(PrimFloat.zero, entity_position base)], ∅, 0).
End Dijkstra.

End Binary64.

Arguments Binary64.dijkstra_visit : simpl never.

Arguments potential_visit : simpl never.
Arguments dijkstra_visit : simpl never.
Arguments heappop : simpl never.

(** ** Following the cost map home *)

(** The body of the [for direction] loop of [navigate_back]; a key missing
    from the dict is Python's KeyError, here [None]. *)
Definition navigate_back_step (m : GameMap) (ship : Entity)
    (dijkstra_map : gmap Position Q)
    (acc : option (Q * Direction)) (direction : Direction)
  : option (Q * Direction) :=
  '(cost, move_dir) ← acc;
  let target_pos := normalize m (directional_offset (entity_position ship) direction) in
  target_cost ← dijkstra_map !! target_pos;
  if Qltb target_cost cost
  then Some (target_cost, direction)
  else Some (cost, move_dir).

Definition navigate_back (m : GameMap) (ship : Entity)
    (dijkstra_map : gmap Position Q) : option Direction :=
  cost ← dijkstra_map !! entity_position ship;
  '(_, move_dir) ←
    foldl (navigate_back_step m ship dijkstra_map) (Some (cost, Still))
          get_all_cardinals;
  Some move_dir.

(** ** The per-turn update *)

Definition set_ship (s : option Entity) (c : MapCell) : MapCell :=
  mkMapCell (position c) (halite_amount c) s (structure c) (potential c).

Definition set_halite_amount (a : Z) (c : MapCell) : MapCell :=
  mkMapCell (position c) a (ship c) (structure c) (potential c).

(** [self[location].field = value]: the cell is looked up (IndexError when
    there is none) and changed in place. *)
Definition setattr_cell (f : MapCell -> MapCell) (m : GameMap)
    (location : Position) : option GameMap :=
  _ ← getitem m location;
  let location := normalize m location in
  Some (mkGameMap (width m) (height m)
          (alter (alter f (Z.to_nat (Position.x location)))
                 (Z.to_nat (Position.y location)) (_cells m))).

(** [Position(x, y)] for [y] in [range(height)], [x] in [range(width)]. *)
Definition all_positions (m : GameMap) : list Position :=
  y ← seqZ 0 (height m); x ← seqZ 0 (width m); [Position.mk x y].

(** One line [cell_x cell_y cell_energy] of the feed. *)
Definition apply_resource_update (m : GameMap) (line : Z * Z * Z)
  : option GameMap :=
  let '(cell_x, cell_y, cell_energy) := line in
  setattr_cell (set_halite_amount cell_energy) m (Position.mk cell_x cell_y).

(** [_update], on the lines that [read_input] delivers this turn. *)
Definition _update (m : GameMap) (feed : list (Z * Z * Z)) : option GameMap :=
  m ← foldl (fun acc p => m ← acc; setattr_cell (set_ship None) m p)
            (Some m) (all_positions m);
  foldl (fun acc line => m ← acc; apply_resource_update m line) (Some m) feed.

(** ** Grids for the examples *)

(** A grid of [w] by [h] cells, each holding [v], with no ship and no
    structure: what [_generate] builds from [h] lines of [w] times [v]. *)
Definition uniform_map (w h v : Z) : GameMap :=
  mkGameMap w h
    ((fun y => (fun x => mkMapCell (Position.mk x y) v None None 0) <$> seqZ 0 w)
       <$> seqZ 0 h).

(** The same grid with a ship put on the cell at [p]. *)
Definition with_ship (m : GameMap) (p : Position) (s : Entity) : GameMap :=
  default m (setattr_cell (set_ship (Some s)) m p).

(** The same grid with the amount of the cell at [p] set to [v]. *)
Definition with_halite (m : GameMap) (p : Position) (v : Z) : GameMap :=
  default m (setattr_cell (set_halite_amount v) m p).

(** The same grid with a structure put on the cell at [p]. *)
Definition with_structure (m : GameMap) (p : Position) (s : Entity) : GameMap :=
  default m
    (setattr_cell
       (fun c => mkMapCell (position c) (halite_amount c) (ship c) (Some s) (potential c))
       m p).

(** A tie-break for the examples: positions compared by [x], then [y]. *)
Definition lexicographic : PositionOrder :=
  fun p q =>
    (Position.x p <? Position.x q) ||
    ((Position.x p =? Position.x q) && (Position.y p <? Position.y q)).

(** * Vocabulary of the statements *)

(** The spec's wording of the metric: normalize both points, take the
    component-wise absolute delta, and on each axis the shorter of the two
    ways round. *)
Definition toroidal_distance (m : GameMap) (a b : Position) : Z :=
  let dx := Z.abs (Position.x a mod width m - Position.x b mod width m) in
  let dy := Z.abs (Position.y a mod height m - Position.y b mod height m) in
  Z.min dx (width m - dx) + Z.min dy (height m - dy).

(** The spec's wording of the choice on one axis: the naive bearing while
    the delta is at most half the extent, the inverted one beyond. *)
Definition unsafe_candidate_directions (m : GameMap) (a b : Position)
  : list (option Direction) :=
  let s := normalize m a in
  let t := normalize m b in
  let dx := Z.abs (Position.x t - Position.x s) in
  let dy := Z.abs (Position.y t - Position.y s) in
  let '(y_bearing, x_bearing) := _get_target_direction s t in
  (if dx =? 0 then []
   else [if 2 * dx <=? width m then x_bearing else invert <$> x_bearing])
  ++
  (if dy =? 0 then []
   else [if 2 * dy <=? height m then y_bearing else invert <$> y_bearing]).

(** What the code does on one axis: [near] is the bearing that ignores the
    wrap-around, [far] its opposite. *)
Definition axis_choice (extent delta : Z) (towards : bool) (near far : Direction)
  : list (option Direction) :=
  if delta =? 0 then []
  else [Some (if 2 * delta <? extent
              then (if towards then near else far)
              else (if towards then far else near))].

(** How many coordinates of [U] a dict has no entry for. *)
Definition unvisited {V : Type} (U : list Position) (s : gmap Position V) : nat :=
  length (filter (fun p => s !! p = None) U).

(** What a newly finalized, unoccupied cell adds to the potential. *)
Definition contribution (m : GameMap) (id : Z) (cell : MapCell) (distance : Z) : Z :=
  let range_factor := width m + height m - distance in
  match structure cell with
  | Some s =>
      if entity_id s =? id then -1000 * range_factor
      else halite_amount cell * range_factor * range_factor
  | None => halite_amount cell * range_factor * range_factor
  end.

(** The frontier after the four pushes from [p] at distance [d]. *)
Definition expanded (m : GameMap) (d : Z) (p : Position)
    (q : list (Z * Position)) : list (Z * Position) :=
  (d + 1, normalize m (directional_offset p West)) ::
  (d + 1, normalize m (directional_offset p East)) ::
  (d + 1, normalize m (directional_offset p South)) ::
  (d + 1, normalize m (directional_offset p North)) :: q.

(** The fold of [finding_halite] over the candidate potentials [f]: the
    strictly highest value seen so far and the direction it came from. *)
Definition keep_highest (f : Direction -> Z) (acc : Z * Direction)
    (direction : Direction) : Z * Direction :=
  if acc.1 <? f direction then (f direction, direction) else acc.

Section CandidatePotential.
Context {po : PositionOrder}.

(** The potential [finding_halite] gives the neighbour in a direction: 0
    when a ship is on it, the field value otherwise. *)
Definition candidate_potential (m : GameMap) (ship : Entity) (id : Z)
    (direction : Direction) : Z :=
  let position := normalize m (directional_offset (entity_position ship) direction) in
  match getitem m position with
  | Some cell =>
      if is_occupied cell then 0
      else match _calculate_potential_cell m position [] id with
           | Returned v => v
           | _ => 0
           end
  | None => 0
  end.
End CandidatePotential.

(** The amount on the cell that [self[p]] is. *)
Definition halite_at (m : GameMap) (p : Position) : Z :=
  match getitem m p with
  | Some cell => halite_amount cell
  | None => 0
  end.

(** The entry pushed for the neighbour of [p] in direction [d]. *)
Definition relax_entry (m : GameMap) (cost : Q) (p : Position) (d : Direction)
  : Q * Position :=
  let neighbour := normalize m (directional_offset p d) in
  ((cost + inject_Z (halite_at m neighbour) / 10 + 50)%Q, neighbour).

(** The frontier after the four pushes from [p]. *)
Definition relaxed (m : GameMap) (cost : Q) (p : Position)
    (q : list (Q * Position)) : list (Q * Position) :=
  relax_entry m cost p West :: relax_entry m cost p East ::
  relax_entry m cost p South :: relax_entry m cost p North :: q.

(** What one finalization adds to the running sum of amounts. *)
Definition visited_halite (m : GameMap) (p : Position) : Z :=
  halite_at m p
  + halite_at m (normalize m (directional_offset p North))
  + halite_at m (normalize m (directional_offset p South))
  + halite_at m (normalize m (directional_offset p East))
  + halite_at m (normalize m (directional_offset p West)).

(** The frontier invariant, for a base [b] and a bound [good] on the
    priorities waiting: whatever has been finalized has each of its four
    neighbours either finalized or waiting on the frontier with a [good]
    priority, and the base is finalized or waiting. *)
Definition frontier_inv (m : GameMap) (b : Position) (good : Q -> Z -> Prop)
    (q : list (Q * Position)) (cm : gmap Position Q) : Prop :=
  (forall e, e ∈ q -> normalized m e.2) ∧
  (forall p, is_Some (cm !! p) -> normalized m p) ∧
  (forall p d, is_Some (cm !! p) -> d ∈ get_all_cardinals ->
     is_Some (cm !! normalize m (directional_offset p d)) ∨
     exists k, (k, normalize m (directional_offset p d)) ∈ q ∧
               good k (calculate_distance m b p + 1)) ∧
  (is_Some (cm !! b) ∨ exists k, (k, b) ∈ q ∧ good k 0).

(** Every cell of the grid holds the amount [V]. *)
Definition uniform (m : GameMap) (V : Z) : Prop :=
  Forall (Forall (fun cell => halite_amount cell = V)) (_cells m).

(** The cost of one step on a grid that holds [V] everywhere. *)
Definition step_cost (V : Z) : Q := (inject_Z V / 10 + 50)%Q.

(** A priority that is no more than [d] steps' worth. *)
Definition within (V : Z) (k : Q) (d : Z) : Prop :=
  (k <= inject_Z d * step_cost V)%Q.

(** On a uniform grid: finalized costs are exact, waiting ones are a whole
    number of steps that is no less than the distance. *)
Definition uniform_inv (m : GameMap) (b : Position) (V : Z)
    (q : list (Q * Position)) (cm : gmap Position Q) : Prop :=
  frontier_inv m b (within V) q cm ∧
  (forall k p, (k, p) ∈ q ->
     exists n, calculate_distance m b p <= n ∧ (k == inject_Z n * step_cost V)%Q) ∧
  (forall p k, cm !! p = Some k ->
     (k == inject_Z (calculate_distance m b p) * step_cost V)%Q).

(** The base is finalized at cost 0, or the loop has not started. *)
Definition base_inv (b : Position) (q : list (Q * Position))
    (cm : gmap Position Q) : Prop :=
  cm !! b = Some 0%Q ∨ (cm = ∅ ∧ q = [(0%Q, b)]).

(** The fold of [navigate_back] over the neighbours' costs [f]: the
    strictly lowest cost seen so far and the direction it came from. *)
Definition keep_lowest (f : Direction -> Q) (acc : Q * Direction)
    (direction : Direction) : Q * Direction :=
  if Qltb (f direction) acc.1 then (f direction, direction) else acc.

(** What the cost map holds for the neighbour in a direction. *)
Definition neighbour_cost (m : GameMap) (ship : Entity)
    (dijkstra_map : gmap Position Q) (direction : Direction) : Q :=
  default 0%Q
    (dijkstra_map !! normalize m (directional_offset (entity_position ship) direction)).

(** * The rest of the module *)

(** ** MapCell: the remaining properties and methods *)

Definition is_empty (c : MapCell) : bool :=
  match ship c, structure c with
  | None, None => true
  | _, _ => false
  end.

Definition has_structure (c : MapCell) : bool :=
  match structure c with Some _ => true | None => false end.

Definition mark_unsafe (c : MapCell) (s : Entity) : MapCell :=
  set_ship (Some s) c.

(** [__eq__] and [__ne__]: two cells are compared by their positions. *)
Definition MapCell_eq (c other : MapCell) : bool :=
  bool_decide (position c = position other).

Definition MapCell_ne (c other : MapCell) : bool :=
  negb (MapCell_eq c other).

(** ** GameMap.__getitem__ in full *)

(** Python's [l[i]] for an integer [i]: a negative index counts from the
    end, and an index outside [-len, len) is an IndexError, here [None]. *)
Definition py_index {A : Type} (l : list A) (i : Z) : option A :=
  if 0 <=? i then l !! Z.to_nat i
  else if - Z.of_nat (length l) <=? i then l !! Z.to_nat (Z.of_nat (length l) + i)
  else None.

(** What [self[...]] is given: a position, an entity, or anything else. *)
Inductive location : Type :=
| a_position (p : Position)
| an_entity (e : Entity)
| another_object.

(** The three branches of [__getitem__].  [Raised] is an IndexError; the
    value is Python's [None] for an object that is neither a position nor
    an entity.  A position is normalized first, an entity's position is
    used as it is. *)
Definition getitem_location (m : GameMap) (loc : location)
  : outcome (option MapCell) :=
  match loc with
  | a_position p =>
      let p := normalize m p in
      match (row ← py_index (_cells m) (Position.y p); py_index row (Position.x p)) with
      | Some cell => Returned (Some cell)
      | None => Raised
      end
  | an_entity e =>
      match (row ← py_index (_cells m) (Position.y (entity_position e));
             py_index row (Position.x (entity_position e))) with
      | Some cell => Returned (Some cell)
      | None => Raised
      end
  | another_object => Returned None
  end.

(** ** GameMap._generate *)

(** [_generate], on what [read_input] delivers: the two numbers of the
    first line, then the lines of amounts, one per row.  The tokens are
    taken as the integers they denote, so a token that [int] turns down
    (a ValueError) has no counterpart here: the input is one whose tokens
    are all integers.  On such input a line that is missing and a line
    with fewer than [map_width] amounts are the errors ([None]); amounts
    beyond the [map_width]-th are never read. *)
Definition _generate (map_width map_height : Z) (lines : list (list Z))
  : option GameMap :=
  game_map ←
    mapM (fun y_position =>
            cells ← lines !! Z.to_nat y_position;
            mapM (fun x_position =>
                    amount ← cells !! Z.to_nat x_position;
                    Some (mkMapCell (Position.mk x_position y_position) amount
                            None None 0))
                 (seqZ 0 map_width))
         (seqZ 0 map_height);
  Some (mkGameMap map_width map_height game_map).

(** ** GameMap.mining *)

(** numpy's [argmax] on a list of integers: the index of the first
    occurrence of the largest value; on an empty list it raises. *)
Fixpoint argmax_from (best_index : nat) (best : Z) (index : nat) (l : list Z) : nat :=
  match l with
  | [] => best_index
  | a :: l' =>
      if best <? a then argmax_from index a (S index) l'
      else argmax_from best_index best (S index) l'
  end.

Definition argmax (l : list Z) : option nat :=
  match l with
  | [] => None
  | a :: l' => Some (argmax_from 0 a 1 l')
  end.

Definition mining (m : GameMap) (ship : Entity) : option Direction :=
  let neighbours := get_surrounding_cardinals (entity_position ship) in
  let directions := get_all_cardinals in
  neighbours_halite ←
    mapM (fun pos =>
            cell ← getitem m pos;
            Some (if negb (is_occupied cell) then halite_amount cell else -1))
         neighbours;
  max_index ← argmax neighbours_halite;
  here ← getitem m (entity_position ship);
  if halite_amount here =? 0 then directions !! max_index
  else
    highest ← neighbours_halite !! max_index;
    if halite_amount here <? highest then directions !! max_index
    else Some Still.

(** * Further vocabulary *)

(** A walk from a position towards [b] that takes, at every step, one of
    the directions [get_unsafe_moves] offers there: [unsafe_walk m b a n c]
    is such a walk of [n] steps from [a] to [c]. *)
Inductive unsafe_walk (m : GameMap) (b : Position)
  : Position -> nat -> Position -> Prop :=
| unsafe_walk_stop (a : Position) : unsafe_walk m b a 0 a
| unsafe_walk_step (a : Position) (d : Direction) (n : nat) (c : Position) :
    Some d ∈ get_unsafe_moves m a b ->
    unsafe_walk m b (normalize m (directional_offset a d)) n c ->
    unsafe_walk m b a (S n) c.

(** The lines of a feed applied one after the other: the second loop of
    [_update]. *)
Definition apply_feed (m : GameMap) (feed : list (Z * Z * Z)) : option GameMap :=
  foldl (fun acc line => m ← acc; apply_resource_update m line) (Some m) feed.

(** The cell that a line of the feed addresses. *)
Definition addressed (m : GameMap) (line : Z * Z * Z) : Position :=
  normalize m (Position.mk line.1.1 line.1.2).

(** Two cells that differ in the amount at most. *)
Definition same_but_amount (c c' : MapCell) : Prop :=
  position c' = position c ∧ ship c' = ship c ∧
  structure c' = structure c ∧ potential c' = potential c.

(** The cell [_generate] makes for column [x] of the row [cells]. *)
Definition generate_cell (y : Z) (cells : list Z) (x : Z) : option MapCell :=
  amount ← cells !! Z.to_nat x;
  Some (mkMapCell (Position.mk x y) amount None None 0).

(** The row [_generate] makes for line [y]. *)
Definition generate_row (map_width : Z) (lines : list (list Z)) (y : Z)
  : option (list MapCell) :=
  cells ← lines !! Z.to_nat y;
  mapM (generate_cell y cells) (seqZ 0 map_width).

(** Every cell of the grid holds an amount that is not negative. *)
Definition nonnegative (m : GameMap) : Prop :=
  Forall (Forall (fun cell => 0 <= halite_amount cell)) (_cells m).

(** The routes [dijkstra_map] prices: [route_cost m b p k] when some walk
    from [b] to [p] along cardinal neighbours costs [k], each step paying
    a tenth of the amount on the cell it enters, plus 50. *)
Inductive route_cost (m : GameMap) (b : Position) : Position -> Q -> Prop :=
| route_stay : route_cost m b b 0%Q
| route_step (p : Position) (k : Q) (d : Direction) :
    route_cost m b p k -> d ∈ get_all_cardinals ->
    route_cost m b (relax_entry m k p d).2 (relax_entry m k p d).1.

(** What the loop of [dijkstra_map] keeps true of frontier and cost map:
    what waits is the cost of a route, what is finalized is the cost of a
    cheapest route, and the neighbours of a finalized coordinate are
    finalized or waiting at the cost through it. *)
Definition cheapest_inv (m : GameMap) (b : Position)
    (q : list (Q * Position)) (cm : gmap Position Q) : Prop :=
  (forall k p, (k, p) ∈ q -> route_cost m b p k) ∧
  (forall p k, cm !! p = Some k ->
     route_cost m b p k ∧ forall k', route_cost m b p k' -> (k <= k')%Q) ∧
  (forall p k d, cm !! p = Some k -> d ∈ get_all_cardinals ->
     is_Some (cm !! (relax_entry m k p d).2) ∨ relax_entry m k p d ∈ q) ∧
  (is_Some (cm !! b) ∨ (0%Q, b) ∈ q).

(** Following [navigate_back] home: from [p], at most [steps] times, the
    move it returns on the cost map is taken; the walk stops where it
    returns [Still]. *)
Fixpoint follow_home (m : GameMap) (cost_map : gmap Position Q) (steps : nat)
    (p : Position) : option Position :=
  match steps with
  | O => Some p
  | S steps =>
      d ← navigate_back m (mkEntity 0 0 p 0) cost_map;
      match d with
      | Still => Some p
      | _ => follow_home m cost_map steps (normalize m (directional_offset p d))
      end
  end.

(** The sum of a list of integers. *)
Definition Zsum (l : list Z) : Z := foldr Z.add 0 l.

(** The sum of the amounts of all the cells of the grid. *)
Definition total_halite (m : GameMap) : Z :=
  Zsum (halite_at m <$> all_positions m).

(** What the finalized coordinates have added to the running sum. *)
Definition finalized_sum (m : GameMap) (cm : gmap Position Q) : Z :=
  Zsum ((fun p => match cm !! p with
                  | Some _ => visited_halite m p
                  | None => 0
                  end) <$> all_positions m).


(** No ship is on the grid. *)
Definition ship_free (m : GameMap) : Prop :=
  Forall (Forall (fun cell => ship cell = None)) (_cells m).

(** No structure on the grid has the id [id]. *)
Definition no_structure_of (m : GameMap) (id : Z) : Prop :=
  Forall (Forall (fun cell =>
            forall s, structure cell = Some s -> entity_id s <> id)) (_cells m).

(** What the cell of [p] adds to the potential of [source] when it is
    reached at its toroidal distance. *)
Definition field_term (m : GameMap) (id : Z) (source p : Position) : Z :=
  match getitem m p with
  | Some cell => contribution m id cell (calculate_distance m source p)
  | None => 0
  end.

(** The sum of [f] over the coordinates of the grid that [seen] holds. *)
Definition seen_sum (m : GameMap) (f : Position -> Z) (seen : gmap Position Z) : Z :=
  Zsum ((fun p => match seen !! p with
                  | Some _ => f p
                  | None => 0
                  end) <$> all_positions m).

(** What the loop of [_calculate_potential_cell] keeps true on a grid
    without ships: what waits is at no less than its distance from the
    source, what is seen is at its distance exactly, the neighbours of a
    seen coordinate are seen or wait one step further, and the potential
    is the sum of the terms of the seen coordinates. *)
Definition field_inv (m : GameMap) (id : Z) (source : Position)
    (q : list (Z * Position)) (seen : gmap Position Z) (pot : Z) : Prop :=
  (forall k p, (k, p) ∈ q ->
     normalized m p ∧ calculate_distance m source p <= k) ∧
  (forall p k, seen !! p = Some k ->
     normalized m p ∧ k = calculate_distance m source p) ∧
  (forall p d, is_Some (seen !! p) -> d ∈ get_all_cardinals ->
     is_Some (seen !! normalize m (directional_offset p d)) ∨
     exists k, (k, normalize m (directional_offset p d)) ∈ q ∧
               k <= calculate_distance m source p + 1) ∧
  (is_Some (seen !! source) ∨ exists k, (k, source) ∈ q ∧ k <= 0) ∧
  pot = seen_sum m (field_term m id source) seen.

(** What [mining] compares for the neighbour in a direction: the amount
    on it, or -1 when a ship is on it. *)
Definition mining_value (m : GameMap) (ship : Entity) (d : Direction) : Z :=
  match getitem m (directional_offset (entity_position ship) d) with
  | Some cell => if is_occupied cell then -1 else halite_amount cell
  | None => -1
  end.

(** The amounts of the grid, row by row. *)
Definition amounts (m : GameMap) : list (list Z) :=
  (fun row : list MapCell => halite_amount <$> row) <$> _cells m.
(** The same for the binary64 run: the entry pushed for the neighbour of
    [p] in direction [d], the frontier after the four pushes, and the
    base finalized at 0 or the loop not started. *)
Definition binary64_entry (m : GameMap) (cost : float) (p : Position)
    (d : Direction) : float * Position :=
  let neighbour := normalize m (directional_offset p d) in
  ((cost + Binary64.of_int (halite_at m neighbour) / 10 + 50)%float, neighbour).

Definition binary64_relaxed (m : GameMap) (cost : float) (p : Position)
    (q : list (float * Position)) : list (float * Position) :=
  binary64_entry m cost p West :: binary64_entry m cost p East ::
  binary64_entry m cost p South :: binary64_entry m cost p North :: q.

Definition binary64_base_inv (b : Position) (q : list (float * Position))
    (cm : gmap Position float) : Prop :=
  cm !! b = Some PrimFloat.zero ∨ (cm = ∅ ∧ q = [(PrimFloat.zero, b)]).

(** The cost after [n] steps over cells that hold [V], in binary64: the
    sum [cost + V/10 + 50] taken [n] times from 0, rounded at every
    operation as the code rounds it. *)
Definition rounded_steps (V : Z) (n : nat) : float :=
  Nat.iter n (fun cost => (cost + Binary64.of_int V / 10 + 50)%float)
           PrimFloat.zero.

(** The first [N + 1] of these sums are ordered like their numbers of
    steps: a later one compares greater, and each compares equal to
    itself.  (A check by evaluation; it fails when a sum overflows or a
    step no longer raises it.) *)
Definition steps_increase (V : Z) (N : nat) : bool :=
  forallb (fun i =>
    forallb (fun j =>
      bool_decide (Binary64.float_compare (rounded_steps V i) (rounded_steps V j)
                   = Nat.compare i j))
      (seq 0 (S N)))
    (seq 0 (S N)).

(** On a uniform grid, for the binary64 run: what waits is a rounded sum
    of no fewer steps than its distance, what is finalized is the rounded
    sum of exactly its distance, and the neighbours of a finalized
    coordinate are finalized or wait one step further. *)
Definition binary64_uniform_inv (m : GameMap) (b : Position) (V : Z) (N : nat)
    (q : list (float * Position)) (cm : gmap Position float) : Prop :=
  (forall k p, (k, p) ∈ q ->
     normalized m p ∧
     exists n, (Z.to_nat (calculate_distance m b p) <= n <= N)%nat ∧
               k = rounded_steps V n) ∧
  (forall p k, cm !! p = Some k ->
     normalized m p ∧ k = rounded_steps V (Z.to_nat (calculate_distance m b p))) ∧
  (forall p d, is_Some (cm !! p) -> d ∈ get_all_cardinals ->
     is_Some (cm !! normalize m (directional_offset p d)) ∨
     (rounded_steps V (S (Z.to_nat (calculate_distance m b p))),
      normalize m (directional_offset p d)) ∈ q) ∧
  (is_Some (cm !! b) ∨ (rounded_steps V 0, b) ∈ q).

(** * Properties *)

(** ** Toroidal addressing *)

Lemma normalize_normalized (m : GameMap) (p : Position) :
  0 < width m -> 0 < height m -> normalized m (normalize m p).
Proof.
  intros Hw Hh. unfold normalized, normalize; simpl.
  split; apply Z.mod_pos_bound; assumption.
Qed.

Lemma normalize_id (m : GameMap) (p : Position) :
  normalized m p -> normalize m p = p.
Proof.
  destruct p as [a b]. unfold normalized, normalize; simpl. intros [Ha Hb].
  rewrite !Z.mod_small by assumption. reflexivity.
Qed.

Lemma normalize_idempotent (m : GameMap) (p : Position) :
  0 < width m -> 0 < height m -> normalize m (normalize m p) = normalize m p.
Proof. intros Hw Hh. apply normalize_id, normalize_normalized; assumption. Qed.

Lemma getitem_wf (m : GameMap) (p : Position) :
  wf_map m -> is_Some (getitem m p).
Proof.
  intros (Hw & Hh & Hlen & Hrows). unfold getitem.
  destruct (normalize_normalized m p Hw Hh) as [Hx Hy].
  unfold normalize in *; simpl in *.
  destruct (lookup_lt_is_Some_2 (_cells m) (Z.to_nat (Position.y p mod height m)))
    as [row Hrow]; [lia|].
  rewrite Hrow; simpl.
  apply lookup_lt_is_Some_2.
  rewrite Forall_forall in Hrows.
  rewrite (Hrows row) by (eapply list_elem_of_lookup_2; eassumption). lia.
Qed.

(** ** The distance metric *)

Lemma calculate_distance_sym (m : GameMap) (a b : Position) :
  calculate_distance m a b = calculate_distance m b a.
Proof.
  unfold calculate_distance, normalize, pos_abs, pos_sub; simpl.
  generalize (Position.x a mod width m) (Position.x b mod width m)
             (Position.y a mod height m) (Position.y b mod height m).
  intros. lia.
Qed.

(** On one axis of extent [w], the wrapped delta of two residues is the
    least [|a - b + k * w|] over all integers [k]. *)
Lemma wrap_delta_least (w a b k : Z) :
  0 <= a < w -> 0 <= b < w ->
  Z.min (Z.abs (a - b)) (w - Z.abs (a - b)) <= Z.abs (a - b + k * w).
Proof.
  intros Ha Hb.
  destruct (Z.lt_trichotomy k 0) as [Hk | [-> | Hk]]; [| lia |].
  - assert (k * w <= - w) by nia. lia.
  - assert (w <= k * w) by nia. lia.
Qed.

Lemma wrap_delta_attained (w a b : Z) :
  0 <= a < w -> 0 <= b < w ->
  exists k, Z.min (Z.abs (a - b)) (w - Z.abs (a - b)) = Z.abs (a - b + k * w).
Proof.
  intros Ha Hb.
  destruct (Z_le_gt_dec (Z.abs (a - b)) (w - Z.abs (a - b))).
  - exists 0. lia.
  - destruct (Z_le_gt_dec a b); [exists 1 | exists (-1)]; lia.
Qed.

(** On a grid of positive extent the value is the length of a shortest
    axis-parallel path between any two representatives of the points: no
    pair of wrap counts gives less, and one pair gives exactly it. *)
Lemma calculate_distance_least (m : GameMap) (a b : Position) :
  0 < width m -> 0 < height m ->
  (forall k l,
     calculate_distance m a b <=
       Z.abs (Position.x a - Position.x b + k * width m) +
       Z.abs (Position.y a - Position.y b + l * height m)) ∧
  (exists k l,
     calculate_distance m a b =
       Z.abs (Position.x a - Position.x b + k * width m) +
       Z.abs (Position.y a - Position.y b + l * height m)).
Proof.
  intros Hw Hh. unfold calculate_distance, normalize, pos_abs, pos_sub; simpl.
  pose proof (Z.mod_pos_bound (Position.x a) _ Hw) as Hax.
  pose proof (Z.mod_pos_bound (Position.x b) _ Hw) as Hbx.
  pose proof (Z.mod_pos_bound (Position.y a) _ Hh) as Hay.
  pose proof (Z.mod_pos_bound (Position.y b) _ Hh) as Hby.
  pose proof (Z.div_mod (Position.x a) (width m) ltac:(lia)) as Eax.
  pose proof (Z.div_mod (Position.x b) (width m) ltac:(lia)) as Ebx.
  pose proof (Z.div_mod (Position.y a) (height m) ltac:(lia)) as Eay.
  pose proof (Z.div_mod (Position.y b) (height m) ltac:(lia)) as Eby.
  set (qa := Position.x a / width m) in *. set (qb := Position.x b / width m) in *.
  set (ra := Position.y a / height m) in *. set (rb := Position.y b / height m) in *.
  split.
  - intros k l.
    pose proof (wrap_delta_least (width m) _ _ (k + qa - qb) Hax Hbx) as H1.
    pose proof (wrap_delta_least (height m) _ _ (l + ra - rb) Hay Hby) as H2.
    replace (Position.x a - Position.x b + k * width m)
      with (Position.x a mod width m - Position.x b mod width m + (k + qa - qb) * width m)
      by lia.
    replace (Position.y a - Position.y b + l * height m)
      with (Position.y a mod height m - Position.y b mod height m + (l + ra - rb) * height m)
      by lia.
    lia.
  - destruct (wrap_delta_attained (width m) _ _ Hax Hbx) as [k Hk].
    destruct (wrap_delta_attained (height m) _ _ Hay Hby) as [l Hl].
    exists (k - qa + qb), (l - ra + rb).
    replace (Position.x a - Position.x b + (k - qa + qb) * width m)
      with (Position.x a mod width m - Position.x b mod width m + k * width m)
      by lia.
    replace (Position.y a - Position.y b + (l - ra + rb) * height m)
      with (Position.y a mod height m - Position.y b mod height m + l * height m)
      by lia.
    lia.
Qed.

(** C9. On a grid of positive extent, [calculate_distance] is the toroidal
    Manhattan metric: it is the spec's formula
    [min(d.x, width - d.x) + min(d.y, height - d.y)] on the absolute deltas
    [d] of the normalized points, which is the least axis-parallel length
    between representatives of the two points; it is symmetric in its
    arguments; and on a 5x5 grid the distance from (0,0) to (4,0) is 1,
    not 4. *)
Theorem calculate_distance_toroidal (m : GameMap) (a b : Position) :
  0 < width m -> 0 < height m ->
  calculate_distance m a b = toroidal_distance m a b ∧
  (forall k l,
     calculate_distance m a b <=
       Z.abs (Position.x a - Position.x b + k * width m) +
       Z.abs (Position.y a - Position.y b + l * height m)) ∧
  (exists k l,
     calculate_distance m a b =
       Z.abs (Position.x a - Position.x b + k * width m) +
       Z.abs (Position.y a - Position.y b + l * height m)) ∧
  calculate_distance m a b = calculate_distance m b a ∧
  (forall cells,
     calculate_distance (mkGameMap 5 5 cells) (Position.mk 0 0) (Position.mk 4 0) = 1 ∧
     calculate_distance (mkGameMap 5 5 cells) (Position.mk 0 0) (Position.mk 4 0) ≠ 4).
Proof.
  intros Hw Hh.
  destruct (calculate_distance_least m a b Hw Hh) as [Hleast Hatt].
  split; [reflexivity|]. split; [exact Hleast|]. split; [exact Hatt|].
  split; [apply calculate_distance_sym|].
  intros cells. split; [reflexivity | discriminate].
Qed.

Lemma calculate_distance_toroidal_witness :
  calculate_distance (uniform_map 5 5 0) (Position.mk 0 0) (Position.mk 4 0)
    = calculate_distance (uniform_map 5 5 0) (Position.mk 4 0) (Position.mk 0 0).
Proof.
  exact (proj1 (proj2 (proj2 (proj2
           (calculate_distance_toroidal (uniform_map 5 5 0)
              (Position.mk 0 0) (Position.mk 4 0)
              ltac:(simpl; lia) ltac:(simpl; lia)))))).
Defined.

(** ** Candidate directions *)

Lemma Qltb_lt (a b : Q) : Qltb a b = true <-> (a < b)%Q.
Proof.
  unfold Qltb. rewrite Qlt_alt.
  destruct (a ?= b)%Q; split; congruence.
Qed.

Lemma Qltb_half (a w : Z) :
  Qltb (inject_Z a) (inject_Z w / 2) = (2 * a <? w).
Proof.
  apply eq_true_iff_eq. rewrite Qltb_lt, Z.ltb_lt.
  unfold Qlt, Qdiv, Qmult, Qinv, inject_Z; simpl. lia.
Qed.

Lemma mod_succ (w a : Z) :
  0 < w -> (a + 1) mod w = if a mod w + 1 =? w then 0 else a mod w + 1.
Proof.
  intros Hw. pose proof (Z.mod_pos_bound a w Hw) as Hr.
  pose proof (Z.div_mod a w ltac:(lia)) as Ea.
  destruct (Z.eqb_spec (a mod w + 1) w) as [E | E]; symmetry.
  - apply (Zmod_unique _ _ (a / w + 1)); lia.
  - apply (Zmod_unique _ _ (a / w)); lia.
Qed.

Lemma mod_pred (w a : Z) :
  0 < w -> (a + -1) mod w = if a mod w =? 0 then w - 1 else a mod w - 1.
Proof.
  intros Hw. pose proof (Z.mod_pos_bound a w Hw) as Hr.
  pose proof (Z.div_mod a w ltac:(lia)) as Ea.
  destruct (Z.eqb_spec (a mod w) 0) as [E | E]; symmetry.
  - apply (Zmod_unique _ _ (a / w - 1)); lia.
  - apply (Zmod_unique _ _ (a / w)); lia.
Qed.

Lemma get_unsafe_moves_axes (m : GameMap) (a b : Position) :
  let s := normalize m a in
  let t := normalize m b in
  get_unsafe_moves m a b =
    axis_choice (width m) (Z.abs (Position.x t - Position.x s))
                (Position.x s <? Position.x t) East West ++
    axis_choice (height m) (Z.abs (Position.y t - Position.y s))
                (Position.y s <? Position.y t) South North.
Proof.
  unfold get_unsafe_moves, axis_choice, _get_target_direction, pos_abs, pos_sub; simpl.
  rewrite !Qltb_half.
  set (sx := Position.x a mod width m). set (tx := Position.x b mod width m).
  set (sy := Position.y a mod height m). set (ty := Position.y b mod height m).
  f_equal.
  - destruct (Z.eqb_spec (Z.abs (tx - sx)) 0); [reflexivity|].
    destruct (Z.ltb_spec sx tx); [destruct (_ <? _); reflexivity|].
    destruct (Z.ltb_spec tx sx); [destruct (_ <? _); reflexivity | lia].
  - destruct (Z.eqb_spec (Z.abs (ty - sy)) 0); [reflexivity|].
    destruct (Z.ltb_spec sy ty); [destruct (_ <? _); reflexivity|].
    destruct (Z.ltb_spec ty sy); [destruct (_ <? _); reflexivity | lia].
Qed.

Lemma get_unsafe_moves_cardinal (m : GameMap) (a b : Position) (o : option Direction) :
  o ∈ get_unsafe_moves m a b -> exists d, o = Some d ∧ d ∈ get_all_cardinals.
Proof.
  rewrite get_unsafe_moves_axes. simpl. unfold axis_choice, get_all_cardinals.
  rewrite elem_of_app.
  intros [Hin | Hin];
    destruct (_ =? 0); try (apply elem_of_nil in Hin; contradiction);
    apply list_elem_of_singleton in Hin; subst o;
    destruct (_ <? _), (_ <? _); eexists; (split; [reflexivity|]);
    repeat constructor.
Qed.

Ltac case_if_in H :=
  match type of H with
  | context [if ?c =? ?e then _ else _] => destruct (Z.eqb_spec c e)
  | context [if ?c <? ?e then _ else _] => destruct (Z.ltb_spec c e)
  end.

(** A step along a direction the code returns brings the source one closer
    to the destination on the torus. *)
Lemma get_unsafe_moves_closer (m : GameMap) (a b : Position) (d : Direction) :
  0 < width m -> 0 < height m ->
  Some d ∈ get_unsafe_moves m a b ->
  calculate_distance m (directional_offset a d) b = calculate_distance m a b - 1.
Proof.
  intros Hw Hh. rewrite get_unsafe_moves_axes. simpl. unfold axis_choice.
  pose proof (Z.mod_pos_bound (Position.x a) _ Hw) as Hax.
  pose proof (Z.mod_pos_bound (Position.x b) _ Hw) as Hbx.
  pose proof (Z.mod_pos_bound (Position.y a) _ Hh) as Hay.
  pose proof (Z.mod_pos_bound (Position.y b) _ Hh) as Hby.
  pose proof (mod_succ (width m) (Position.x a) Hw) as Sx.
  pose proof (mod_pred (width m) (Position.x a) Hw) as Px.
  pose proof (mod_succ (height m) (Position.y a) Hh) as Sy.
  pose proof (mod_pred (height m) (Position.y a) Hh) as Py.
  rewrite elem_of_app.
  intros [Hin | Hin];
    case_if_in Hin;
    try (apply elem_of_nil in Hin; contradiction);
    apply list_elem_of_singleton in Hin;
    repeat case_if_in Hin;
    injection Hin as ->;
    unfold calculate_distance, directional_offset, pos_add, normalize, pos_abs, pos_sub;
    simpl; rewrite ?Z.add_0_r, ?Sx, ?Px, ?Sy, ?Py;
    repeat match goal with |- context [if ?c =? ?e then _ else _] =>
      destruct (Z.eqb_spec c e) end; lia.
Qed.

(** C4 (as the code has it). On each axis on which the normalized points
    differ, [get_unsafe_moves] returns the naive bearing when the absolute
    delta is strictly less than half the extent and the inverted bearing
    when it is half the extent or more (at exactly half both ways round are
    equally long); the result holds between 0 and 2 entries, each a
    cardinal direction, and a step along any of them shortens the toroidal
    distance to the destination by one. *)
Theorem get_unsafe_moves_shorter_way (m : GameMap) (a b : Position) :
  0 < width m -> 0 < height m ->
  let s := normalize m a in
  let t := normalize m b in
  get_unsafe_moves m a b =
    axis_choice (width m) (Z.abs (Position.x t - Position.x s))
                (Position.x s <? Position.x t) East West ++
    axis_choice (height m) (Z.abs (Position.y t - Position.y s))
                (Position.y s <? Position.y t) South North ∧
  (length (get_unsafe_moves m a b) <= 2)%nat ∧
  (forall o, o ∈ get_unsafe_moves m a b ->
     exists d, o = Some d ∧ d ∈ get_all_cardinals ∧
       calculate_distance m (directional_offset a d) b =
         calculate_distance m a b - 1).
Proof.
  intros Hw Hh s t. split; [apply get_unsafe_moves_axes|]. split.
  - rewrite get_unsafe_moves_axes. simpl. unfold axis_choice.
    rewrite length_app. do 2 destruct (_ =? 0); simpl; lia.
  - intros o Ho. destruct (get_unsafe_moves_cardinal m a b o Ho) as (d & -> & Hd).
    exists d. split; [reflexivity|]. split; [exact Hd|].
    apply get_unsafe_moves_closer; assumption.
Qed.

Lemma get_unsafe_moves_shorter_way_witness :
  get_unsafe_moves (uniform_map 5 5 0) (Position.mk 0 0) (Position.mk 2 3)
    = [Some East; Some North].
Proof.
  pose proof (get_unsafe_moves_shorter_way (uniform_map 5 5 0)
                (Position.mk 0 0) (Position.mk 2 3)
                ltac:(simpl; lia) ltac:(simpl; lia)) as [E _].
  rewrite E. reflexivity.
Defined.

(** At a delta of exactly half the extent the spec's wording keeps the
    naive bearing (East); the code inverts it (West). *)
Lemma get_unsafe_moves_half_extent_inverted :
  let m := uniform_map 4 4 0 in
  let a := Position.mk 0 0 in
  let b := Position.mk 2 0 in
  normalized m a ∧ normalized m b ∧
  2 * Z.abs (Position.x b - Position.x a) <= width m ∧
  snd (_get_target_direction a b) = Some East ∧
  unsafe_candidate_directions m a b = [Some East] ∧
  get_unsafe_moves m a b = [Some West].
Proof. vm_compute. repeat split; congruence. Qed.

(** ** The per-turn update *)

Lemma setattr_cell_wf (f : MapCell -> MapCell) (m : GameMap) (p : Position) :
  wf_map m ->
  exists m', setattr_cell f m p = Some m' ∧ wf_map m' ∧
    width m' = width m ∧ height m' = height m ∧
    forall q, getitem m' q =
      if decide (normalize m q = normalize m p) then f <$> getitem m q
      else getitem m q.
Proof.
  intros Hwf. destruct (getitem_wf m p Hwf) as [c Hc].
  unfold setattr_cell. rewrite Hc; simpl. eexists; split; [reflexivity|].
  destruct Hwf as (Hw & Hh & Hlen & Hrows).
  split; [|split; [reflexivity|split; [reflexivity|]]].
  - unfold wf_map; simpl. rewrite length_alter.
    repeat split; try assumption.
    apply Forall_alter; [assumption|].
    intros row _ Hrow. rewrite length_alter. exact Hrow.
  - intros q. unfold getitem, normalize. simpl.
    pose proof (Z.mod_pos_bound (Position.x q) _ Hw).
    pose proof (Z.mod_pos_bound (Position.y q) _ Hh).
    pose proof (Z.mod_pos_bound (Position.x p) _ Hw).
    pose proof (Z.mod_pos_bound (Position.y p) _ Hh).
    set (qx := Position.x q mod width m) in *.
    set (qy := Position.y q mod height m) in *.
    set (px := Position.x p mod width m) in *.
    set (py := Position.y p mod height m) in *.
    case_decide as E.
    + injection E as Ex Ey. rewrite Ex, Ey, list_lookup_alter_eq.
      destruct (_cells m !! _) as [row|]; simpl; [|reflexivity].
      apply list_lookup_alter_eq.
    + destruct (decide (qy = py)) as [Ey | Ey].
      * rewrite Ey, list_lookup_alter_eq.
        destruct (_cells m !! _) as [row|]; simpl; [|reflexivity].
        apply list_lookup_alter_ne. intros Ex. apply E. f_equal; lia.
      * rewrite list_lookup_alter_ne by lia. reflexivity.
Qed.

Lemma setattr_cell_steps (f : MapCell -> MapCell) (ps : list Position) (m : GameMap) :
  wf_map m ->
  exists m',
    foldl (fun acc p => m ← acc; setattr_cell f m p) (Some m) ps = Some m' ∧
    wf_map m' ∧ width m' = width m ∧ height m' = height m.
Proof.
  revert m. induction ps as [|p ps IH]; intros m Hwf; simpl.
  - exists m. auto.
  - destruct (setattr_cell_wf f m p Hwf) as (m1 & E1 & Hwf1 & Hw1 & Hh1 & _).
    rewrite E1. destruct (IH m1 Hwf1) as (m' & E' & Hwf' & Hw' & Hh').
    exists m'. split; [exact E'|]. split; [exact Hwf'|]. split; congruence.
Qed.

Lemma apply_resource_update_spec (m : GameMap) (cell_x cell_y cell_energy : Z) :
  wf_map m ->
  exists m',
    apply_resource_update m (cell_x, cell_y, cell_energy) = Some m' ∧
    wf_map m' ∧ width m' = width m ∧ height m' = height m ∧
    (exists c, getitem m (Position.mk cell_x cell_y) = Some c ∧
       getitem m' (Position.mk cell_x cell_y) = Some (set_halite_amount cell_energy c)) ∧
    (forall q, normalize m q ≠ normalize m (Position.mk cell_x cell_y) ->
       getitem m' q = getitem m q).
Proof.
  intros Hwf. unfold apply_resource_update.
  destruct (setattr_cell_wf (set_halite_amount cell_energy) m
              (Position.mk cell_x cell_y) Hwf) as (m' & E & Hwf' & Hw' & Hh' & Hget).
  exists m'. do 4 (split; [assumption|]). split.
  - destruct (getitem_wf m (Position.mk cell_x cell_y) Hwf) as [c Hc].
    exists c. split; [assumption|]. rewrite Hget, decide_True by reflexivity.
    rewrite Hc. reflexivity.
  - intros q Hq. rewrite Hget, decide_False by assumption. reflexivity.
Qed.

Lemma _update_snoc (m : GameMap) (feed : list (Z * Z * Z)) (line : Z * Z * Z) :
  _update m (feed ++ [line]) =
    m' ← _update m feed; apply_resource_update m' line.
Proof.
  unfold _update.
  destruct (foldl _ (Some m) (all_positions m)) as [m1|]; simpl; [|reflexivity].
  rewrite foldl_app. reflexivity.
Qed.

Lemma _update_returns (m : GameMap) (feed : list (Z * Z * Z)) :
  wf_map m ->
  exists m', _update m feed = Some m' ∧ wf_map m' ∧
    width m' = width m ∧ height m' = height m.
Proof.
  intros Hwf. induction feed as [|line feed IH] using rev_ind.
  - unfold _update.
    destruct (setattr_cell_steps (set_ship None) (all_positions m) m Hwf)
      as (m1 & E1 & H1). rewrite E1. simpl. exists m1. auto.
  - rewrite _update_snoc. destruct IH as (m1 & E1 & Hwf1 & Hw1 & Hh1).
    rewrite E1; simpl. destruct line as [[cx cy] ce].
    destruct (apply_resource_update_spec m1 cx cy ce Hwf1)
      as (m' & E & Hwf' & Hw' & Hh' & _).
    exists m'. split; [exact E|]. split; [exact Hwf'|]. split; congruence.
Qed.

(** C2 (as the code has it). [_update] applies every line of the feed,
    whatever the sign of its amount: once the lines before it are
    processed, the line [(x, y, amount)] overwrites the amount of the cell
    at the normalized coordinate with [amount] -- a negative one too, no
    update is rejected and nothing is logged --, leaves the cell's other
    fields and all other cells as they are, and the processing of the turn
    goes on from the grid so changed. *)
Theorem update_overwrites (m : GameMap) (feed : list (Z * Z * Z))
    (cell_x cell_y cell_energy : Z) :
  wf_map m ->
  exists m1 m2 c1 c2,
    _update m feed = Some m1 ∧
    _update m (feed ++ [(cell_x, cell_y, cell_energy)]) = Some m2 ∧
    apply_resource_update m1 (cell_x, cell_y, cell_energy) = Some m2 ∧
    wf_map m2 ∧
    getitem m1 (Position.mk cell_x cell_y) = Some c1 ∧
    getitem m2 (Position.mk cell_x cell_y) = Some c2 ∧
    halite_amount c2 = cell_energy ∧
    ship c2 = ship c1 ∧ structure c2 = structure c1 ∧
    (forall q, normalize m q ≠ normalize m (Position.mk cell_x cell_y) ->
       getitem m2 q = getitem m1 q).
Proof.
  intros Hwf.
  destruct (_update_returns m feed Hwf) as (m1 & E1 & Hwf1 & Hw1 & Hh1).
  destruct (apply_resource_update_spec m1 cell_x cell_y cell_energy Hwf1)
    as (m2 & E2 & Hwf2 & _ & _ & (c & Hc & Hc') & Hother).
  exists m1, m2, c, (set_halite_amount cell_energy c).
  rewrite _update_snoc, E1. simpl.
  split; [reflexivity|]. split; [exact E2|]. do 4 (split; [assumption|]).
  do 3 (split; [reflexivity|]).
  intros q Hq. apply Hother. unfold normalize in *. rewrite Hw1, Hh1. exact Hq.
Qed.

Ltac solve_wf_map :=
  unfold wf_map; simpl; repeat split; try lia; repeat constructor.

Lemma update_overwrites_witness :
  (m' ← _update (uniform_map 2 2 5) ([] ++ [(0, 0, 7)]);
   halite_amount <$> getitem m' (Position.mk 0 0)) = Some 7.
Proof.
  destruct (update_overwrites (uniform_map 2 2 5) [] 0 0 7 ltac:(solve_wf_map))
    as (m1 & m2 & c1 & c2 & _ & E2 & _ & _ & _ & Hc2 & Hh & _).
  rewrite E2. simpl. rewrite Hc2. simpl. rewrite Hh. reflexivity.
Defined.

(** A negative amount in the feed is stored like any other: the cell that
    held 5 holds -3 after the update. *)
Lemma update_stores_negative_amount :
  let m := uniform_map 2 2 5 in
  halite_amount <$> getitem m (Position.mk 0 0) = Some 5 ∧
  (m' ← _update m [(0, 0, -3)]; halite_amount <$> getitem m' (Position.mk 0 0))
    = Some (-3).
Proof. vm_compute. split; reflexivity. Qed.

(** ** heapq *)

Section HeapqFacts.
Context {po : PositionOrder} {K : Type} (cmp : K -> K -> comparison).

Lemma pop_min_perm (e : K * Position) (q : list (K * Position)) :
  e :: q ≡ₚ (pop_min cmp e q).1 :: (pop_min cmp e q).2.
Proof.
  revert e. induction q as [|e' q IH]; intros e; simpl; [reflexivity|].
  specialize (IH e'). destruct (pop_min cmp e' q) as [least rest]; simpl in *.
  destruct (entry_ltb cmp least e); simpl.
  - rewrite IH. apply Permutation_swap.
  - rewrite IH. reflexivity.
Qed.

Lemma heappop_perm q e rest :
  heappop cmp q = Some (e, rest) -> q ≡ₚ e :: rest.
Proof.
  destruct q as [|e0 q]; simpl; [discriminate|].
  intros E. pose proof (pop_min_perm e0 q) as P.
  injection E as E. rewrite E in P. exact P.
Qed.

Lemma heappop_None q : heappop cmp q = None -> q = [].
Proof. destruct q; simpl; [reflexivity | discriminate]. Qed.

Lemma heappop_length q e rest :
  heappop cmp q = Some (e, rest) -> length q = S (length rest).
Proof. intros E. rewrite (heappop_perm _ _ _ E). reflexivity. Qed.

Lemma heappop_elem_of q e rest x :
  heappop cmp q = Some (e, rest) -> x ∈ q <-> x = e ∨ x ∈ rest.
Proof. intros E. rewrite (heappop_perm _ _ _ E). apply elem_of_cons. Qed.

(** The popped entry has a least priority, for any preorder [le] that
    [cmp] decides. *)
Lemma heappop_least (le : K -> K -> Prop) q e rest :
  (forall a, le a a) ->
  (forall a b c, le a b -> le b c -> le a c) ->
  (forall a b, cmp a b = Lt -> le a b) ->
  (forall a b, cmp a b = Eq -> le a b ∧ le b a) ->
  (forall a b, cmp a b = Gt -> le b a) ->
  heappop cmp q = Some (e, rest) ->
  forall x, x ∈ q -> le e.1 x.1.
Proof.
  intros Hrefl Htrans HLt HEq HGt.
  assert (Hcmp : forall a b, entry_ltb cmp a b = true -> le a.1 b.1).
  { intros a b. unfold entry_ltb.
    destruct (cmp a.1 b.1) eqn:E; try discriminate; intros _.
    - destruct (HEq _ _ E); assumption.
    - apply HLt, E. }
  assert (Hncmp : forall a b, entry_ltb cmp a b = false -> le b.1 a.1).
  { intros a b. unfold entry_ltb.
    destruct (cmp a.1 b.1) eqn:E; try discriminate; intros _.
    - destruct (HEq _ _ E); assumption.
    - apply HGt, E. }
  destruct q as [|e0 q]; simpl; [discriminate|]. intros E. injection E as E.
  revert e0 e rest E. induction q as [|e' q IH]; intros e0 e rest E x Hx; simpl in E.
  - injection E as <- <-. apply list_elem_of_singleton in Hx. subst. apply Hrefl.
  - destruct (pop_min cmp e' q) as [least r] eqn:El.
    specialize (IH e' least r El).
    destruct (entry_ltb cmp least e0) eqn:Ec; injection E as <- <-.
    + apply elem_of_cons in Hx as [-> | Hx]; [apply Hcmp, Ec | apply IH, Hx].
    + apply elem_of_cons in Hx as [-> | Hx]; [apply Hrefl|].
      eapply Htrans; [apply Hncmp, Ec | apply IH, Hx].
Qed.
End HeapqFacts.

(** ** Termination of the frontier loops *)

Section Unvisited.
Context {V : Type}.

Lemma unvisited_insert_le (U : list Position) (s : gmap Position V) (p : Position) (v : V) :
  (unvisited U (<[p := v]> s) <= unvisited U s)%nat.
Proof.
  unfold unvisited. induction U as [|a U IH]; simpl; [lia|].
  rewrite !filter_cons. destruct (decide (a = p)) as [-> | Hne].
  - rewrite lookup_insert_eq. rewrite decide_False by discriminate.
    case_decide; simpl; lia.
  - rewrite lookup_insert_ne by congruence.
    case_decide; simpl; lia.
Qed.

Lemma unvisited_insert_lt (U : list Position) (s : gmap Position V) (p : Position) (v : V) :
  p ∈ U -> s !! p = None ->
  (unvisited U (<[p := v]> s) < unvisited U s)%nat.
Proof.
  unfold unvisited. induction U as [|a U IH]; intros Hin Hp.
  - apply elem_of_nil in Hin. contradiction.
  - rewrite !filter_cons. destruct (decide (a = p)) as [-> | Hne].
    + rewrite lookup_insert_eq. rewrite decide_False by discriminate.
      rewrite decide_True by assumption. simpl.
      pose proof (unvisited_insert_le U s p v). unfold unvisited in *. lia.
    + rewrite lookup_insert_ne by congruence.
      apply elem_of_cons in Hin as [-> | Hin]; [congruence|].
      specialize (IH Hin Hp). case_decide; simpl; lia.
Qed.

Lemma unvisited_le_length (U : list Position) (s : gmap Position V) :
  (unvisited U s <= length U)%nat.
Proof. apply length_filter. Qed.
End Unvisited.

Lemma all_positions_length (m : GameMap) :
  length (all_positions m) = (Z.to_nat (height m) * Z.to_nat (width m))%nat.
Proof.
  unfold all_positions.
  assert (Hrow : forall y : Z,
    length (seqZ 0 (width m) ≫= fun x => [Position.mk x y]) = Z.to_nat (width m)).
  { intros y. rewrite <- (length_seqZ 0 (width m)).
    induction (seqZ 0 (width m)) as [|x xs IH]; [reflexivity|].
    rewrite bind_cons, length_app, IH. reflexivity. }
  rewrite <- (length_seqZ 0 (height m)).
  induction (seqZ 0 (height m)) as [|y ys IH]; [reflexivity|].
  rewrite bind_cons, length_app, IH, Hrow. reflexivity.
Qed.

Lemma elem_of_all_positions (m : GameMap) (p : Position) :
  p ∈ all_positions m <-> normalized m p.
Proof.
  unfold all_positions, normalized. rewrite list_elem_of_bind. split.
  - intros (y & Hp & Hy). apply list_elem_of_bind in Hp as (x & Hp & Hx).
    apply list_elem_of_singleton in Hp. subst p. simpl.
    apply elem_of_seqZ in Hx, Hy. lia.
  - intros [Hx Hy]. exists (Position.y p). split; [|apply elem_of_seqZ; lia].
    apply list_elem_of_bind. exists (Position.x p).
    split; [|apply elem_of_seqZ; lia].
    destruct p; simpl. apply list_elem_of_singleton. reflexivity.
Qed.

Lemma loop_fuel_enough (m : GameMap) (p : Position) :
  0 < width m -> 0 < height m ->
  (1 + 4 * length (p :: all_positions m) < loop_fuel m)%nat.
Proof.
  intros Hw Hh. unfold loop_fuel. simpl length. rewrite all_positions_length.
  nia.
Qed.

(** ** The potential field *)

Section PotentialFacts.
Context {po : PositionOrder}.

Lemma potential_visit_spec (m : GameMap) (id d : Z) (p : Position)
    (q : list (Z * Position)) (seen : gmap Position Z) (pot : Z) :
  wf_map m ->
  exists cell, getitem m p = Some cell ∧
    potential_visit m id d p (q, seen, pot) =
      Some (match seen !! p with
            | Some _ => (q, seen, pot)
            | None =>
                match ship cell with
                | Some _ => (q, <[p := d]> seen, pot)
                | None => (expanded m d p q, <[p := d]> seen,
                           pot + contribution m id cell d)
                end
            end).
Proof.
  intros Hwf. destruct (getitem_wf m p Hwf) as [cell Hcell].
  exists cell. split; [assumption|].
  unfold potential_visit. destruct (seen !! p); [reflexivity|].
  rewrite Hcell; simpl. destruct (ship cell); [reflexivity|].
  unfold contribution, expanded, heappush. simpl.
  destruct (structure cell) as [s|]; [destruct (entity_id s =? id)|]; reflexivity.
Qed.

Lemma potential_loop_fuel_mono (m : GameMap) (id : Z) (fuel fuel' : nat)
    (st : potential_state) (v : Z) :
  potential_loop m id fuel st = Returned v -> (fuel <= fuel')%nat ->
  potential_loop m id fuel' st = Returned v.
Proof.
  revert fuel' st. induction fuel as [|fuel IH]; intros fuel' st; simpl;
    [discriminate|].
  intros E Hle. destruct fuel' as [|fuel']; [lia|]. simpl.
  destruct st as [[q seen] pot].
  destruct (heappop Z.compare q) as [[[d p] r]|]; [|exact E].
  destruct (potential_visit m id d p (r, seen, pot)); [|exact E].
  apply IH; [exact E | lia].
Qed.

Lemma potential_loop_terminates (m : GameMap) (id : Z) (U : list Position) :
  wf_map m ->
  (forall p, normalized m p -> p ∈ U) ->
  forall fuel q seen pot,
    (forall e, e ∈ q -> e.2 ∈ U) ->
    (length q + 4 * unvisited U seen < fuel)%nat ->
    exists v, potential_loop m id fuel (q, seen, pot) = Returned v.
Proof.
  intros Hwf HU. pose proof Hwf as (Hw & Hh & _).
  induction fuel as [|fuel IH]; intros q seen pot Hq Hfuel; [lia|].
  simpl. destruct (heappop Z.compare q) as [[[d p] r]|] eqn:Epop;
    [|eexists; reflexivity].
  pose proof (heappop_length _ _ _ _ Epop) as Hlen.
  assert (Hr : forall e, e ∈ r -> e.2 ∈ U).
  { intros e He. apply Hq. apply (heappop_elem_of _ _ _ _ _ Epop). auto. }
  assert (Hp : p ∈ U).
  { apply (Hq (d, p)). apply (heappop_elem_of _ _ _ _ _ Epop). auto. }
  destruct (potential_visit_spec m id d p r seen pot Hwf) as (cell & _ & ->).
  destruct (seen !! p) eqn:Eseen.
  - apply IH; [assumption | lia].
  - pose proof (unvisited_insert_lt U seen p d Hp Eseen).
    destruct (ship cell).
    + apply IH; [assumption | lia].
    + apply IH; [|simpl; lia].
      intros e He. unfold expanded in He.
      repeat (apply elem_of_cons in He as [-> | He];
              [simpl; apply HU, normalize_normalized; assumption|]).
      apply Hr, He.
Qed.

Lemma potential_cell_returns (m : GameMap) (source : Position)
    (dropoffs : list Entity) (id : Z) :
  wf_map m ->
  exists v, _calculate_potential_cell m source dropoffs id = Returned v.
Proof.
  intros Hwf. pose proof Hwf as (Hw & Hh & _).
  destruct (potential_loop_terminates m id (source :: all_positions m) Hwf)
    with (fuel := loop_fuel m) (q := [(0, source)])
         (seen := (∅ : gmap Position Z)) (pot := 0) as [v Hv].
  - intros p Hp. apply elem_of_cons. right. apply elem_of_all_positions, Hp.
  - intros e He. apply list_elem_of_singleton in He. subst e. simpl.
    apply elem_of_cons. auto.
  - pose proof (loop_fuel_enough m source Hw Hh).
    pose proof (unvisited_le_length (source :: all_positions m)
                  (∅ : gmap Position Z)).
    simpl length in *. lia.
  - exists v. unfold _calculate_potential_cell. exact Hv.
Qed.

(** C10. On a well-formed grid (width and height at least 1) the
    expansion of [_calculate_potential_cell] terminates from every source
    coordinate, with no cap on the distance: the call returns a value,
    and the loop returns that same value on any larger budget of
    passes.  What makes it so: the pop of a coordinate already seen
    changes nothing (a coordinate is expanded at most once), and every
    entry a pass pushes is a normalized coordinate of the grid. *)
Theorem calculate_potential_cell_terminates (m : GameMap) (source : Position)
    (dropoffs : list Entity) (id : Z) :
  wf_map m ->
  (exists v,
     _calculate_potential_cell m source dropoffs id = Returned v ∧
     forall fuel, (loop_fuel m <= fuel)%nat ->
       potential_loop m id fuel ([(0, source)], ∅, 0) = Returned v) ∧
  (forall d p q seen pot,
     is_Some (seen !! p) ->
     potential_visit m id d p (q, seen, pot) = Some (q, seen, pot)) ∧
  (forall d p q seen pot q' seen' pot',
     potential_visit m id d p (q, seen, pot) = Some (q', seen', pot') ->
     forall e, e ∈ q' -> e ∈ q ∨ normalized m e.2).
Proof.
  intros Hwf. pose proof Hwf as (Hw & Hh & _). split; [|split].
  - destruct (potential_cell_returns m source dropoffs id Hwf) as [v Hv].
    exists v. split; [exact Hv|].
    intros fuel Hfuel. unfold _calculate_potential_cell in Hv.
    eapply potential_loop_fuel_mono; eassumption.
  - intros d p q seen pot [c Hc].
    destruct (potential_visit_spec m id d p q seen pot Hwf) as (cell & _ & ->).
    rewrite Hc. reflexivity.
  - intros d p q seen pot q' seen' pot' E e He.
    destruct (potential_visit_spec m id d p q seen pot Hwf) as (cell & _ & E').
    rewrite E' in E. injection E as E.
    destruct (seen !! p); [injection E as <- _ _; auto|].
    destruct (ship cell); injection E as <- _ _; [auto|].
    unfold expanded in He.
    repeat (apply elem_of_cons in He as [-> | He];
            [right; simpl; apply normalize_normalized; assumption|]).
    auto.
Qed.

(** C1 (as the code has it). When a popped coordinate is finalized and
    its cell holds a ship, it adds nothing to the potential and nothing
    is pushed for it: the frontier is left as the pop left it, so the
    expansion does not go on through an occupied cell.  The four
    normalized cardinal neighbours are pushed, at one more than the
    distance, only from a finalized cell with no ship. *)
Theorem potential_visit_occupied (m : GameMap) (id d : Z) (p : Position)
    (q : list (Z * Position)) (seen : gmap Position Z) (pot : Z)
    (cell : MapCell) :
  getitem m p = Some cell -> seen !! p = None ->
  (is_occupied cell = true ->
     potential_visit m id d p (q, seen, pot) = Some (q, <[p := d]> seen, pot)) ∧
  (is_occupied cell = false ->
     potential_visit m id d p (q, seen, pot) =
       Some (expanded m d p q, <[p := d]> seen, pot + contribution m id cell d) ∧
     forall n, n ∈ get_surrounding_cardinals p ->
       (d + 1, normalize m n) ∈ expanded m d p q).
Proof.
  intros Hcell Hseen. unfold potential_visit, is_occupied.
  rewrite Hseen, Hcell; simpl. split.
  - destruct (ship cell); [reflexivity | discriminate].
  - destruct (ship cell); [discriminate|]. intros _. split.
    + unfold contribution, expanded, heappush.
      destruct (structure cell) as [s|]; [destruct (entity_id s =? id)|];
        reflexivity.
    + intros n Hn. unfold get_surrounding_cardinals, get_all_cardinals in Hn.
      simpl in Hn. unfold expanded.
      repeat (apply elem_of_cons in Hn as [-> | Hn];
              [repeat constructor|]).
      apply elem_of_nil in Hn. contradiction.
Qed.

Lemma keep_highest_spec (f : Direction -> Z) (l : list Direction)
    (hi0 : Z) (d0 : Direction) :
  let r := foldl (keep_highest f) (hi0, d0) l in
  (r = (hi0, d0) ∧ forall x, x ∈ l -> f x <= hi0) ∨
  (exists before after,
     l = before ++ r.2 :: after ∧ r.1 = f r.2 ∧ hi0 < f r.2 ∧
     (forall x, x ∈ before -> f x < f r.2) ∧
     (forall x, x ∈ after -> f x <= f r.2)).
Proof.
  induction l as [|a l IH] using rev_ind; simpl.
  - left. split; [reflexivity|]. intros x Hx. apply elem_of_nil in Hx. contradiction.
  - rewrite foldl_app. simpl. simpl in IH.
    destruct (foldl (keep_highest f) (hi0, d0) l) as [hi mv].
    unfold keep_highest. simpl.
    destruct (Z.ltb_spec hi (f a)) as [Hlt | Hge]; simpl.
    + right. exists l, []. split; [reflexivity|]. split; [reflexivity|].
      destruct IH as [[E Hall] | (b & af & El & Ehi & H0 & Hb & Ha)].
      * injection E as -> ->. split; [lia|]. split.
        -- intros x Hx. specialize (Hall x Hx). lia.
        -- intros x Hx. apply elem_of_nil in Hx. contradiction.
      * simpl in *. split; [lia|]. split.
        -- intros x Hx. rewrite El in Hx.
           apply elem_of_app in Hx as [Hx | Hx]; [specialize (Hb x Hx); lia|].
           apply elem_of_cons in Hx as [-> | Hx]; [lia|].
           specialize (Ha x Hx). lia.
        -- intros x Hx. apply elem_of_nil in Hx. contradiction.
    + destruct IH as [[E Hall] | (b & af & El & Ehi & H0 & Hb & Ha)].
      * left. split; [assumption|]. injection E as -> ->.
        intros x Hx. apply elem_of_app in Hx as [Hx | Hx]; [auto|].
        apply list_elem_of_singleton in Hx. subst. lia.
      * right. simpl in *. exists b, (af ++ [a]).
        split; [rewrite El, <- app_assoc; reflexivity|].
        split; [assumption|]. split; [assumption|]. split; [assumption|].
        intros x Hx. apply elem_of_app in Hx as [Hx | Hx]; [auto|].
        apply list_elem_of_singleton in Hx. subst. lia.
Qed.

Lemma finding_halite_step_spec (m : GameMap) (ship : Entity) (id : Z)
    (acc : Z * Direction) (direction : Direction) :
  wf_map m ->
  finding_halite_step m ship id (Returned acc) direction =
    Returned (keep_highest (candidate_potential m ship id) acc direction).
Proof.
  intros Hwf. unfold finding_halite_step, keep_highest, candidate_potential.
  destruct acc as [hi mv]. simpl.
  set (position := normalize m (directional_offset (entity_position ship) direction)).
  destruct (getitem_wf m position Hwf) as [cell ->].
  destruct (is_occupied cell); simpl.
  - destruct (hi <? 0); reflexivity.
  - destruct (potential_cell_returns m position [] id Hwf)
      as (v & ->). simpl.
    destruct (hi <? v); reflexivity.
Qed.

Lemma finding_halite_fold (m : GameMap) (ship : Entity) (id : Z)
    (l : list Direction) (acc : Z * Direction) :
  wf_map m ->
  foldl (finding_halite_step m ship id) (Returned acc) l =
    Returned (foldl (keep_highest (candidate_potential m ship id)) acc l).
Proof.
  intros Hwf. revert acc. induction l as [|a l IH]; intros acc; cbn [foldl];
    [reflexivity|].
  rewrite finding_halite_step_spec by assumption. apply IH.
Qed.

(** C8. On a well-formed grid [finding_halite] returns.  It goes through
    the four cardinal neighbours of the unit's position in enumeration
    order, with potential 0 for an occupied neighbour and the field value
    otherwise, and returns the direction of the strictly highest
    potential: the value there is positive, every direction enumerated
    before it has a strictly lower one (a tie keeps the earlier choice)
    and none after it has a higher one.  When no candidate has a strictly
    positive potential it returns [Still] -- in particular when all four
    neighbours are occupied. *)
Theorem finding_halite_highest (m : GameMap) (ship : Entity) (id : Z) :
  wf_map m ->
  let f := candidate_potential m ship id in
  (forall direction cell,
     getitem m (normalize m (directional_offset (entity_position ship) direction))
       = Some cell ->
     if is_occupied cell then f direction = 0
     else _calculate_potential_cell m
            (normalize m (directional_offset (entity_position ship) direction)) [] id
          = Returned (f direction)) ∧
  exists move_dir,
    finding_halite m ship id = Returned move_dir ∧
    ((move_dir = Still ∧ forall x, x ∈ get_all_cardinals -> f x <= 0) ∨
     (exists before after,
        get_all_cardinals = before ++ move_dir :: after ∧
        0 < f move_dir ∧
        (forall x, x ∈ before -> f x < f move_dir) ∧
        (forall x, x ∈ after -> f x <= f move_dir))) ∧
    ((forall x, x ∈ get_all_cardinals -> f x <= 0) -> move_dir = Still) ∧
    ((forall direction cell, direction ∈ get_all_cardinals ->
        getitem m (normalize m (directional_offset (entity_position ship) direction))
          = Some cell -> is_occupied cell = true) ->
     move_dir = Still).
Proof.
  intros Hwf f. split.
  { intros direction cell Hcell. unfold f, candidate_potential. rewrite Hcell.
    destruct (is_occupied cell); [reflexivity|].
    destruct (potential_cell_returns m
                (normalize m (directional_offset (entity_position ship) direction))
                [] id Hwf) as (v & ->). reflexivity. }
  unfold finding_halite. rewrite finding_halite_fold by assumption.
  pose proof (keep_highest_spec f get_all_cardinals 0 Still) as Hspec.
  cbv zeta in Hspec. fold f. revert Hspec.
  destruct (foldl (keep_highest f) (0, Still) get_all_cardinals) as [hi mv].
  intros Hspec. exists mv. simpl. split; [reflexivity|].
  assert (Hnone : (forall x, x ∈ get_all_cardinals -> f x <= 0) -> mv = Still).
  { intros Hall.
    destruct Hspec as [[E' _] | (b & af & El & _ & Hpos & _)]; [congruence|].
    simpl in *. specialize (Hall mv). rewrite El in Hall.
    assert (f mv <= 0) by (apply Hall, elem_of_app; right; constructor). lia. }
  split; [|split; [exact Hnone|]].
  - destruct Hspec as [[E' Hall] | (b & af & El & _ & Hpos & Hb & Ha)].
    + left. split; [congruence | exact Hall].
    + right. exists b, af. simpl in *. auto.
  - intros Hocc. apply Hnone. intros x Hx. unfold f, candidate_potential.
    destruct (getitem m _) as [cell|] eqn:Hcell; [|lia].
    rewrite (Hocc x cell Hx Hcell). lia.
Qed.
End PotentialFacts.

Lemma potential_visit_occupied_witness :
  let m := with_ship (uniform_map 3 3 10) (Position.mk 1 1)
             (mkEntity 0 7 (Position.mk 1 1) 0) in
  potential_visit m 0 2 (Position.mk 1 1) ([(3, Position.mk 0 0)], ∅, 5)
    = Some ([(3, Position.mk 0 0)], <[Position.mk 1 1 := 2]> ∅, 5).
Proof.
  intros m.
  refine (proj1 (potential_visit_occupied m 0 2 (Position.mk 1 1)
            [(3, Position.mk 0 0)] ∅ 5
            (mkMapCell (Position.mk 1 1) 10 (Some (mkEntity 0 7 (Position.mk 1 1) 0)) None 0)
            _ _) _); reflexivity.
Defined.

(** A finalized cell with a ship on it pushes nothing: the frontier, empty
    after the pop, is still empty after the visit, so none of the four
    neighbours is on it.  And on a row of five cells with ships on (1,0)
    and (4,0) and 100 on (2,0), the expansion from (0,0) stops at both
    ships and never reaches (2,0), whose amount adds nothing. *)
Lemma potential_expansion_stops_at_ships :
  (let m := with_ship (uniform_map 3 3 10) (Position.mk 1 1)
              (mkEntity 0 7 (Position.mk 1 1) 0) in
   is_occupied <$> getitem m (Position.mk 1 1) = Some true ∧
   exists seen,
     potential_visit m 0 0 (Position.mk 1 1) ([], ∅, 0) = Some ([], seen, 0) ∧
     seen !! Position.mk 1 1 = Some 0 ∧
     forall n, n ∈ get_surrounding_cardinals (Position.mk 1 1) ->
       (1, normalize m n) ∉ ([] : list (Z * Position))) ∧
  (let m := with_halite
              (with_ship (with_ship (uniform_map 5 1 0) (Position.mk 1 0)
                            (mkEntity 0 7 (Position.mk 1 0) 0))
                         (Position.mk 4 0) (mkEntity 0 8 (Position.mk 4 0) 0))
              (Position.mk 2 0) 100 in
   _calculate_potential_cell (po := lexicographic) m (Position.mk 0 0) [] 0
     = Returned 0).
Proof.
  split.
  - intros m. split; [reflexivity|].
    exists (<[Position.mk 1 1 := 0]> ∅). split; [reflexivity|].
    split; [reflexivity|]. intros n _ Hn. apply elem_of_nil in Hn. exact Hn.
  - vm_compute. reflexivity.
Qed.

Lemma calculate_potential_cell_terminates_witness :
  exists v,
    _calculate_potential_cell (po := lexicographic) (uniform_map 3 3 100)
      (Position.mk 0 0) [] 0 = Returned v.
Proof.
  destruct (calculate_potential_cell_terminates (po := lexicographic)
              (uniform_map 3 3 100) (Position.mk 0 0) [] 0 ltac:(solve_wf_map))
    as ((v & Hv & _) & _).
  exists v. exact Hv.
Defined.

(** The 5x5 torus of the design notes: the player's base on (0,0), 100 on
    (4,0) and nothing elsewhere; a unit on (2,0) is sent East, towards the
    neighbour that is closer to (4,0). *)
Example finding_halite_towards_the_rich_cell :
  finding_halite (po := lexicographic)
    (with_halite
       (with_structure (uniform_map 5 5 0) (Position.mk 0 0)
          (mkEntity 0 0 (Position.mk 0 0) 0))
       (Position.mk 4 0) 100)
    (mkEntity 0 1 (Position.mk 2 0) 0) 0
  = Returned East.
Proof. vm_compute. reflexivity. Qed.

Lemma finding_halite_highest_witness :
  exists move_dir,
    finding_halite (po := lexicographic) (uniform_map 3 3 100)
      (mkEntity 0 1 (Position.mk 1 1) 0) 0 = Returned move_dir.
Proof.
  destruct (finding_halite_highest (po := lexicographic) (uniform_map 3 3 100)
              (mkEntity 0 1 (Position.mk 1 1) 0) 0 ltac:(solve_wf_map))
    as (_ & d & Hd & _).
  exists d. exact Hd.
Defined.

(** ** Steps on the torus *)

Lemma calculate_distance_normalize_l (m : GameMap) (a b : Position) :
  0 < width m -> 0 < height m ->
  calculate_distance m (normalize m a) b = calculate_distance m a b.
Proof.
  intros Hw Hh. unfold calculate_distance.
  rewrite normalize_idempotent by assumption. reflexivity.
Qed.

Lemma calculate_distance_normalize_r (m : GameMap) (a b : Position) :
  0 < width m -> 0 < height m ->
  calculate_distance m a (normalize m b) = calculate_distance m a b.
Proof.
  intros Hw Hh. unfold calculate_distance.
  rewrite normalize_idempotent by assumption. reflexivity.
Qed.

Lemma calculate_distance_zero (m : GameMap) (a b : Position) :
  normalized m a -> normalized m b ->
  calculate_distance m a b = 0 -> a = b.
Proof.
  intros Ha Hb. unfold calculate_distance.
  rewrite (normalize_id m a Ha), (normalize_id m b Hb).
  destruct a as [ax ay], b as [bx by_]. unfold normalized in *; simpl in *.
  intros E. f_equal; lia.
Qed.

Lemma calculate_distance_self (m : GameMap) (a : Position) :
  0 < width m -> 0 < height m -> calculate_distance m a a = 0.
Proof.
  intros Hw Hh. unfold calculate_distance; simpl. lia.
Qed.

(** One step changes the distance to a fixed point by at most one. *)
Lemma calculate_distance_step (m : GameMap) (b p : Position) (d : Direction) :
  0 < width m -> 0 < height m ->
  calculate_distance m b (normalize m (directional_offset p d))
    <= calculate_distance m b p + 1.
Proof.
  intros Hw Hh. rewrite calculate_distance_normalize_r by assumption.
  pose proof (Z.mod_pos_bound (Position.x b) _ Hw) as Hbx.
  pose proof (Z.mod_pos_bound (Position.y b) _ Hh) as Hby.
  pose proof (Z.mod_pos_bound (Position.x p) _ Hw) as Hpx.
  pose proof (Z.mod_pos_bound (Position.y p) _ Hh) as Hpy.
  pose proof (mod_succ (width m) (Position.x p) Hw) as Sx.
  pose proof (mod_pred (width m) (Position.x p) Hw) as Px.
  pose proof (mod_succ (height m) (Position.y p) Hh) as Sy.
  pose proof (mod_pred (height m) (Position.y p) Hh) as Py.
  destruct d;
    unfold calculate_distance, directional_offset, pos_add, normalize, pos_abs, pos_sub;
    simpl; rewrite ?Z.add_0_r, ?Sx, ?Px, ?Sy, ?Py;
    repeat match goal with |- context [if ?c =? ?e then _ else _] =>
      destruct (Z.eqb_spec c e) end; lia.
Qed.

Lemma normalize_step_back (m : GameMap) (p : Position) (d : Direction) :
  0 < width m -> 0 < height m ->
  normalize m (directional_offset (normalize m (directional_offset p d)) (invert d))
    = normalize m p.
Proof.
  intros Hw Hh. unfold normalize, directional_offset, pos_add.
  destruct d; simpl; rewrite !Z.add_mod_idemp_l by lia; f_equal; f_equal; lia.
Qed.

Lemma invert_cardinal (d : Direction) :
  d ∈ get_all_cardinals -> invert d ∈ get_all_cardinals.
Proof.
  unfold get_all_cardinals. intros Hd.
  repeat (apply elem_of_cons in Hd as [-> | Hd]; [simpl; repeat constructor|]).
  apply elem_of_nil in Hd. contradiction.
Qed.

(** Away from [b] there is always a neighbour one step closer to [b] from
    which the coordinate is reached in one step. *)
Lemma calculate_distance_pred (m : GameMap) (b p : Position) :
  0 < width m -> 0 < height m ->
  normalized m p ->
  0 < calculate_distance m b p ->
  exists v d,
    normalized m v ∧ d ∈ get_all_cardinals ∧
    normalize m (directional_offset v d) = p ∧
    calculate_distance m b v = calculate_distance m b p - 1.
Proof.
  intros Hw Hh Hp Hpos.
  assert (Hne : exists o, o ∈ get_unsafe_moves m p b).
  { rewrite get_unsafe_moves_axes. simpl. unfold axis_choice.
    rewrite (calculate_distance_sym m b p) in Hpos.
    unfold calculate_distance, pos_abs, pos_sub in Hpos. simpl in Hpos.
    destruct (Z.eqb_spec (Z.abs (Position.x b mod width m - Position.x p mod width m)) 0) as [Ex|Ex];
      [|eexists; apply elem_of_app; left; constructor].
    destruct (Z.eqb_spec (Z.abs (Position.y b mod height m - Position.y p mod height m)) 0) as [Ey|Ey];
      [|eexists; apply elem_of_app; right; constructor].
    exfalso. lia. }
  destruct Hne as [o Ho].
  destruct (get_unsafe_moves_cardinal m p b o Ho) as (d & -> & Hd).
  pose proof (get_unsafe_moves_closer m p b d Hw Hh Ho) as Hcl.
  exists (normalize m (directional_offset p d)), (invert d).
  split; [apply normalize_normalized; assumption|].
  split; [apply invert_cardinal, Hd|].
  split; [rewrite normalize_step_back by assumption; apply normalize_id, Hp|].
  rewrite calculate_distance_normalize_r by assumption.
  rewrite (calculate_distance_sym m b), Hcl, (calculate_distance_sym m p b).
  reflexivity.
Qed.

Lemma calculate_distance_nonneg (m : GameMap) (a b : Position) :
  0 < width m -> 0 < height m -> 0 <= calculate_distance m a b.
Proof.
  intros Hw Hh. unfold calculate_distance, pos_abs, pos_sub, normalize; simpl.
  pose proof (Z.mod_pos_bound (Position.x a) _ Hw).
  pose proof (Z.mod_pos_bound (Position.x b) _ Hw).
  pose proof (Z.mod_pos_bound (Position.y a) _ Hh).
  pose proof (Z.mod_pos_bound (Position.y b) _ Hh).
  lia.
Qed.

(** ** The return-cost map *)

Lemma Qcompare_le_facts :
  (forall a : Q, (a <= a)%Q) ∧
  (forall a b c : Q, (a <= b)%Q -> (b <= c)%Q -> (a <= c)%Q) ∧
  (forall a b : Q, (a ?= b)%Q = Lt -> (a <= b)%Q) ∧
  (forall a b : Q, (a ?= b)%Q = Eq -> (a <= b)%Q ∧ (b <= a)%Q) ∧
  (forall a b : Q, (a ?= b)%Q = Gt -> (b <= a)%Q).
Proof.
  split; [apply Qle_refl|]. split; [apply Qle_trans|].
  split; [intros a b E; apply Qlt_le_weak, Qlt_alt, E|].
  split.
  - intros a b E. apply Qeq_alt in E. rewrite E. split; apply Qle_refl.
  - intros a b E. apply Qlt_le_weak, Qgt_alt, E.
Qed.

Section DijkstraFacts.
Context {po : PositionOrder}.

Lemma heappop_cost_least q cost p rest :
  heappop Qcompare q = Some ((cost, p), rest) ->
  forall k u, (k, u) ∈ q -> (cost <= k)%Q.
Proof.
  intros E k u Hin.
  destruct Qcompare_le_facts as (H1 & H2 & H3 & H4 & H5).
  exact (heappop_least Qcompare Qle q (cost, p) rest H1 H2 H3 H4 H5 E (k, u) Hin).
Qed.

Lemma dijkstra_visit_spec (m : GameMap) (cost : Q) (p : Position)
    (q : list (Q * Position)) (cost_map : gmap Position Q) (avg : Z) :
  wf_map m ->
  dijkstra_visit m cost p (q, cost_map, avg) =
    Some (match cost_map !! p with
          | Some _ => (q, cost_map, avg)
          | None => (relaxed m cost p q, <[p := cost]> cost_map,
                     avg + visited_halite m p)
          end).
Proof.
  intros Hwf. unfold dijkstra_visit. destruct (cost_map !! p); [reflexivity|].
  unfold visited_halite, relaxed, relax_entry, halite_at.
  destruct (getitem_wf m p Hwf) as [c ->].
  unfold get_surrounding_cardinals, get_all_cardinals, dijkstra_relax, heappush.
  simpl.
  destruct (getitem_wf m (normalize m (directional_offset p North)) Hwf) as [cN ->].
  simpl.
  destruct (getitem_wf m (normalize m (directional_offset p South)) Hwf) as [cS ->].
  simpl.
  destruct (getitem_wf m (normalize m (directional_offset p East)) Hwf) as [cE ->].
  simpl.
  destruct (getitem_wf m (normalize m (directional_offset p West)) Hwf) as [cW ->].
  simpl. do 2 f_equal. lia.
Qed.

Lemma dijkstra_loop_fuel_mono (m : GameMap) (fuel fuel' : nat)
    (st : dijkstra_state) (res : gmap Position Q * Q) :
  dijkstra_loop m fuel st = Returned res -> (fuel <= fuel')%nat ->
  dijkstra_loop m fuel' st = Returned res.
Proof.
  revert fuel' st. induction fuel as [|fuel IH]; intros fuel' st; simpl;
    [discriminate|].
  intros E Hle. destruct fuel' as [|fuel']; [lia|]. simpl.
  destruct st as [[q cm] avg].
  destruct (heappop Qcompare q) as [[[d p] r]|]; [|exact E].
  destruct (dijkstra_visit m d p (r, cm, avg)); [|exact E].
  apply IH; [exact E | lia].
Qed.

Lemma dijkstra_loop_terminates (m : GameMap) (U : list Position) :
  wf_map m ->
  (forall p, normalized m p -> p ∈ U) ->
  forall fuel q cm avg,
    (forall e, e ∈ q -> e.2 ∈ U) ->
    (length q + 4 * unvisited U cm < fuel)%nat ->
    exists res, dijkstra_loop m fuel (q, cm, avg) = Returned res.
Proof.
  intros Hwf HU. pose proof Hwf as (Hw & Hh & _).
  induction fuel as [|fuel IH]; intros q cm avg Hq Hfuel; [lia|].
  simpl. destruct (heappop Qcompare q) as [[[d p] r]|] eqn:Epop;
    [|eexists; reflexivity].
  pose proof (heappop_length _ _ _ _ Epop) as Hlen.
  assert (Hr : forall e, e ∈ r -> e.2 ∈ U).
  { intros e He. apply Hq. apply (heappop_elem_of _ _ _ _ _ Epop). auto. }
  assert (Hp : p ∈ U).
  { apply (Hq (d, p)). apply (heappop_elem_of _ _ _ _ _ Epop). auto. }
  rewrite dijkstra_visit_spec by assumption.
  destruct (cm !! p) eqn:Ecm.
  - apply IH; [assumption | lia].
  - pose proof (unvisited_insert_lt U cm p d Hp Ecm).
    apply IH; [|simpl; lia].
    intros e He. unfold relaxed in He.
    repeat (apply elem_of_cons in He as [-> | He];
            [simpl; apply HU, normalize_normalized; assumption|]).
    apply Hr, He.
Qed.

(** A property of frontier and cost map that every pass keeps holds of
    the map the loop returns, with the frontier empty. *)
Lemma dijkstra_loop_invariant (m : GameMap)
    (Inv : list (Q * Position) -> gmap Position Q -> Prop) :
  wf_map m ->
  (forall q cm cost p r,
     Inv q cm -> heappop Qcompare q = Some ((cost, p), r) ->
     match cm !! p with
     | Some _ => Inv r cm
     | None => Inv (relaxed m cost p r) (<[p := cost]> cm)
     end) ->
  forall fuel q cm avg res,
    Inv q cm -> dijkstra_loop m fuel (q, cm, avg) = Returned res ->
    Inv [] res.1.
Proof.
  intros Hwf Hstep. induction fuel as [|fuel IH]; intros q cm avg res HI;
    simpl; [discriminate|].
  destruct (heappop Qcompare q) as [[[cost p] r]|] eqn:Epop.
  - rewrite dijkstra_visit_spec by assumption.
    specialize (Hstep q cm cost p r HI Epop).
    destruct (cm !! p); apply IH; assumption.
  - intros E. injection E as <-. simpl.
    apply heappop_None in Epop. subst q. exact HI.
Qed.
End DijkstraFacts.

Lemma is_Some_insert {V : Type} (cm : gmap Position V) (p x : Position) (v : V) :
  is_Some (<[p := v]> cm !! x) <-> x = p ∨ is_Some (cm !! x).
Proof.
  destruct (decide (x = p)) as [-> | Hne].
  - rewrite lookup_insert_eq. split; [auto | eauto].
  - rewrite lookup_insert_ne by congruence. split; [auto | intros [? | ?]; [contradiction | assumption]].
Qed.

Lemma elem_of_relaxed (m : GameMap) (cost : Q) (p : Position)
    (r : list (Q * Position)) (e : Q * Position) :
  e ∈ relaxed m cost p r <->
  (exists d, d ∈ get_all_cardinals ∧ e = relax_entry m cost p d) ∨ e ∈ r.
Proof.
  unfold relaxed, get_all_cardinals. rewrite !elem_of_cons. split.
  - intros [-> | [-> | [-> | [-> | Hr]]]]; [left; eexists; split; [|reflexivity]; repeat constructor ..| right; exact Hr].
  - intros [(d & Hd & ->) | Hr]; [|auto 6].
    repeat (apply elem_of_cons in Hd as [-> | Hd]; [auto 6|]).
    apply elem_of_nil in Hd. contradiction.
Qed.

(** *** The frontier invariant

    Whatever has been finalized has each of its four neighbours either
    finalized or waiting on the frontier with a [good] priority, and the
    base is finalized or waiting. *)

Section Frontier.
Context {po : PositionOrder}.
Variables (m : GameMap) (b : Position) (good : Q -> Z -> Prop).
Hypothesis Hwf : wf_map m.
Hypothesis Hb : normalized m b.
Hypothesis good_mono : forall k d d', good k d -> d <= d' -> good k d'.

Lemma frontier_inv_init (k : Q) :
  good k 0 -> frontier_inv m b good [(k, b)] ∅.
Proof.
  intros Hk. unfold frontier_inv. split; [|split; [|split]].
  - intros e He. apply list_elem_of_singleton in He. subst e. exact Hb.
  - intros p [v Hv]. rewrite lookup_empty in Hv. discriminate.
  - intros p d [v Hv]. rewrite lookup_empty in Hv. discriminate.
  - right. exists k. split; [constructor | exact Hk].
Qed.

(** While a coordinate of the grid is not finalized, something is
    waiting on the frontier, with a priority [good] for its distance. *)
Lemma frontier_pending (q : list (Q * Position)) (cm : gmap Position Q) :
  frontier_inv m b good q cm ->
  forall p, normalized m p -> cm !! p = None ->
    exists k u, (k, u) ∈ q ∧ good k (calculate_distance m b p).
Proof.
  intros (Ia & Ib & Ic & Id). pose proof Hwf as (Hw & Hh & _).
  assert (Hind : forall n p, Z.to_nat (calculate_distance m b p) = n ->
            normalized m p -> cm !! p = None ->
            exists k u, (k, u) ∈ q ∧ good k (calculate_distance m b p)).
  { induction n as [n IH] using lt_wf_ind. intros p Hn Hp Hnone.
    pose proof (calculate_distance_nonneg m b p Hw Hh) as Hge.
    destruct (Z.eq_dec (calculate_distance m b p) 0) as [E0 | E0].
    - assert (b = p) by (apply (calculate_distance_zero m); assumption).
      subst p. rewrite E0.
      destruct Id as [[v Hv] | (k & Hk & Hg)]; [congruence|].
      exists k, b. auto.
    - destruct (calculate_distance_pred m b p Hw Hh Hp ltac:(lia))
        as (v & d & Hv & Hd & Hvp & Hdist).
      destruct (cm !! v) as [c|] eqn:Ev.
      + destruct (Ic v d ltac:(rewrite Ev; eauto) Hd) as [[c' Hc'] | (k & Hk & Hg)].
        * rewrite Hvp in Hc'. congruence.
        * rewrite Hvp in Hk. exists k, p. split; [exact Hk|].
          replace (calculate_distance m b p)
            with (calculate_distance m b v + 1) by lia. exact Hg.
      + destruct (IH (Z.to_nat (calculate_distance m b v)) ltac:(lia) v eq_refl Hv Ev)
          as (k & u & Hk & Hg).
        exists k, u. split; [exact Hk|]. eapply good_mono; [exact Hg | lia]. }
  intros p. apply (Hind _ p eq_refl).
Qed.

(** With the frontier empty the whole grid is finalized. *)
Lemma frontier_inv_done (cm : gmap Position Q) :
  frontier_inv m b good [] cm -> forall p, normalized m p <-> is_Some (cm !! p).
Proof.
  intros HI p. split.
  - intros Hp. destruct (cm !! p) eqn:E; [eauto|].
    destruct (frontier_pending [] cm HI p Hp E) as (k & u & Hk & _).
    apply elem_of_nil in Hk. contradiction.
  - destruct HI as (_ & Ib & _). apply Ib.
Qed.

Lemma frontier_inv_step (q : list (Q * Position)) (cm : gmap Position Q)
    (cost : Q) (p : Position) (r : list (Q * Position)) :
  frontier_inv m b good q cm ->
  heappop Qcompare q = Some ((cost, p), r) ->
  (cm !! p = None -> forall d, d ∈ get_all_cardinals ->
     good (relax_entry m cost p d).1 (calculate_distance m b p + 1)) ->
  match cm !! p with
  | Some _ => frontier_inv m b good r cm
  | None => frontier_inv m b good (relaxed m cost p r) (<[p := cost]> cm)
  end.
Proof.
  intros (Ia & Ib & Ic & Id) Epop Hgood. pose proof Hwf as (Hw & Hh & _).
  pose proof (fun x => heappop_elem_of _ _ _ _ x Epop) as Hmem.
  assert (Hp : normalized m p) by (apply (Ia (cost, p)), Hmem; auto).
  destruct (cm !! p) as [c|] eqn:Ecm.
  - split; [|split; [|split]].
    + intros e He. apply Ia, Hmem. auto.
    + exact Ib.
    + intros p' d Hp' Hd.
      destruct (Ic p' d Hp' Hd) as [Hl | (k & Hk & Hg)]; [auto|].
      apply Hmem in Hk as [Hk | Hk].
      * left. injection Hk as _ ->. rewrite Ecm. eauto.
      * right. eauto.
    + destruct Id as [Hl | (k & Hk & Hg)]; [auto|].
      apply Hmem in Hk as [Hk | Hk].
      * left. injection Hk as _ ->. rewrite Ecm. eauto.
      * right. eauto.
  - specialize (Hgood eq_refl). split; [|split; [|split]].
    + intros e He. apply elem_of_relaxed in He as [(d & Hd & ->) | He].
      * simpl. apply normalize_normalized; assumption.
      * apply Ia, Hmem. auto.
    + intros p' Hp'. apply is_Some_insert in Hp' as [-> | Hp']; auto.
    + intros p' d Hp' Hd. rewrite is_Some_insert.
      apply is_Some_insert in Hp' as [-> | Hp'].
      * right. exists (relax_entry m cost p d).1. split; [|apply Hgood, Hd].
        apply elem_of_relaxed. left. exists d. split; [exact Hd | reflexivity].
      * destruct (Ic p' d Hp' Hd) as [Hl | (k & Hk & Hg)]; [auto|].
        apply Hmem in Hk as [Hk | Hk].
        -- left. left. injection Hk as _ ->. reflexivity.
        -- right. exists k. split; [|exact Hg].
           apply elem_of_relaxed. auto.
    + rewrite is_Some_insert.
      destruct Id as [Hl | (k & Hk & Hg)]; [auto|].
      apply Hmem in Hk as [Hk | Hk].
      * left. left. injection Hk as _ ->. reflexivity.
      * right. exists k. split; [|exact Hg]. apply elem_of_relaxed. auto.
Qed.
End Frontier.

(** *** Coverage *)

Section DijkstraTotal.
Context {po : PositionOrder}.

Lemma dijkstra_map_returns (m : GameMap) (base : Entity) :
  wf_map m ->
  exists res,
    dijkstra_map m base = Returned res ∧
    forall fuel, (loop_fuel m <= fuel)%nat ->
      dijkstra_loop m fuel ([(0%Q, entity_position base)], ∅, 0) = Returned res.
Proof.
  intros Hwf. pose proof Hwf as (Hw & Hh & _).
  destruct (dijkstra_loop_terminates m (entity_position base :: all_positions m) Hwf)
    with (fuel := loop_fuel m) (q := [(0%Q, entity_position base)])
         (cm := (∅ : gmap Position Q)) (avg := 0) as [res Hres].
  - intros p Hp. apply elem_of_cons. right. apply elem_of_all_positions, Hp.
  - intros e He. apply list_elem_of_singleton in He. subst e. simpl.
    apply elem_of_cons. auto.
  - pose proof (loop_fuel_enough m (entity_position base) Hw Hh).
    pose proof (unvisited_le_length (entity_position base :: all_positions m)
                  (∅ : gmap Position Q)).
    simpl length in *. lia.
  - exists res. split; [exact Hres|].
    intros fuel Hfuel. eapply dijkstra_loop_fuel_mono; eassumption.
Qed.

(** C6. On a well-formed grid (width and height at least 1) and for a
    base whose position is normalized, [dijkstra_map] terminates -- it
    returns, and the loop returns the same map on any larger budget of
    passes -- and the cost map it returns has an entry for exactly the
    normalized coordinates of the grid.  A coordinate is finalized once,
    at its first pop: the pop of a coordinate with no entry records the
    popped cost for it, and the pop of a coordinate that has one leaves
    frontier, map and sum as they are. *)
Theorem dijkstra_map_total (m : GameMap) (base : Entity) :
  wf_map m -> normalized m (entity_position base) ->
  exists cost_map avg_halite,
    dijkstra_map m base = Returned (cost_map, avg_halite) ∧
    (forall fuel, (loop_fuel m <= fuel)%nat ->
       dijkstra_loop m fuel ([(0%Q, entity_position base)], ∅, 0)
         = Returned (cost_map, avg_halite)) ∧
    (forall p, normalized m p <-> is_Some (cost_map !! p)) ∧
    (forall cost p q cm avg,
       cm !! p = None ->
       exists q' avg', dijkstra_visit m cost p (q, cm, avg)
                       = Some (q', <[p := cost]> cm, avg')) ∧
    (forall cost p q cm avg,
       is_Some (cm !! p) ->
       dijkstra_visit m cost p (q, cm, avg) = Some (q, cm, avg)).
Proof.
  intros Hwf Hb.
  destruct (dijkstra_map_returns m base Hwf) as ([cost_map avg] & Hret & Hfuel).
  exists cost_map, avg. split; [exact Hret|]. split; [exact Hfuel|].
  split; [|split].
  - apply (frontier_inv_done m (entity_position base) (fun _ _ => True) Hwf Hb);
      [auto|].
    refine (dijkstra_loop_invariant m
              (frontier_inv m (entity_position base) (fun _ _ => True)) Hwf _
              (loop_fuel m) [(0%Q, entity_position base)] ∅ 0 (cost_map, avg)
              _ Hret).
    + intros q cm cost p r HI Epop.
      eapply (frontier_inv_step m (entity_position base) (fun _ _ => True));
        eauto.
    + apply frontier_inv_init; auto.
  - intros cost p q cm avg' Hnone.
    rewrite dijkstra_visit_spec, Hnone by assumption. eauto.
  - intros cost p q cm avg' [c Hc].
    rewrite dijkstra_visit_spec, Hc by assumption. reflexivity.
Qed.
End DijkstraTotal.

Lemma dijkstra_map_total_witness :
  exists cost_map avg_halite,
    dijkstra_map (po := lexicographic) (uniform_map 3 3 100)
      (mkEntity 0 0 (Position.mk 0 0) 0) = Returned (cost_map, avg_halite) ∧
    is_Some (cost_map !! Position.mk 2 1).
Proof.
  destruct (dijkstra_map_total (po := lexicographic) (uniform_map 3 3 100)
              (mkEntity 0 0 (Position.mk 0 0) 0)
              ltac:(solve_wf_map) ltac:(unfold normalized; simpl; lia))
    as (cost_map & avg & Hret & _ & Hall & _).
  exists cost_map, avg. split; [exact Hret|].
  apply Hall. unfold normalized; simpl; lia.
Defined.

(** *** Costs on a uniform grid *)

Lemma uniform_halite_at (m : GameMap) (V : Z) (p : Position) :
  wf_map m -> uniform m V -> halite_at m p = V.
Proof.
  intros Hwf Hu. unfold halite_at.
  destruct (getitem_wf m p Hwf) as [cell Hcell]. rewrite Hcell.
  unfold getitem in Hcell.
  destruct (_cells m !! _) as [row|] eqn:Hrow; simpl in Hcell; [|discriminate].
  unfold uniform in Hu. rewrite Forall_forall in Hu.
  specialize (Hu row ltac:(eapply list_elem_of_lookup_2; eassumption)).
  rewrite Forall_forall in Hu. apply Hu.
  eapply list_elem_of_lookup_2; eassumption.
Qed.

Lemma step_cost_nonneg (V : Z) :
  -500 <= V -> (0 <= step_cost V)%Q.
Proof.
  intros HV. unfold step_cost, Qle, Qdiv, Qmult, Qplus, Qinv, inject_Z; simpl. lia.
Qed.

Lemma scale_succ (d : Z) (c : Q) :
  (inject_Z (d + 1) * c == inject_Z d * c + c)%Q.
Proof. rewrite inject_Z_plus. ring. Qed.

Lemma scale_le (d d' : Z) (c : Q) :
  (0 <= c)%Q -> d <= d' -> (inject_Z d * c <= inject_Z d' * c)%Q.
Proof.
  intros Hc Hd. apply Qmult_le_compat_r; [|exact Hc].
  rewrite <- Zle_Qle. exact Hd.
Qed.

Section Uniform.
Context {po : PositionOrder}.
Variables (m : GameMap) (b : Position) (V : Z).
Hypothesis Hwf : wf_map m.
Hypothesis Hb : normalized m b.
Hypothesis Huniform : uniform m V.
Hypothesis HV : -500 <= V.

Lemma within_mono k d d' : within V k d -> d <= d' -> within V k d'.
Proof.
  unfold within. intros Hk Hd.
  pose proof (scale_le d d' (step_cost V) (step_cost_nonneg V HV) Hd). lra.
Qed.

Lemma relax_entry_cost (cost : Q) (p : Position) (d : Direction) :
  ((relax_entry m cost p d).1 == cost + step_cost V)%Q.
Proof.
  unfold relax_entry; simpl.
  rewrite (uniform_halite_at m V _ Hwf Huniform). unfold step_cost. ring.
Qed.

Lemma uniform_inv_init : uniform_inv m b V [(0%Q, b)] ∅.
Proof.
  pose proof Hwf as (Hw & Hh & _). split; [|split].
  - apply frontier_inv_init; [exact Hb|]. unfold within.
    change (inject_Z 0) with 0%Q. lra.
  - intros k p Hin. apply list_elem_of_singleton in Hin. injection Hin as -> ->.
    exists 0. rewrite calculate_distance_self by assumption.
    split; [lia|]. change (inject_Z 0) with 0%Q. lra.
  - intros p k Hk. rewrite lookup_empty in Hk. discriminate.
Qed.

(** The heart of the argument: the popped coordinate, if it is not
    finalized yet, is popped at exactly its distance times the step cost
    -- it cannot be less, being a sum of that many steps at least, and
    it cannot be more, since something no dearer is waiting. *)
Lemma uniform_inv_pop_exact q cm cost p r :
  uniform_inv m b V q cm ->
  heappop Qcompare q = Some ((cost, p), r) ->
  cm !! p = None ->
  (cost == inject_Z (calculate_distance m b p) * step_cost V)%Q.
Proof.
  intros (HF & Hq & Hcm) Epop Hnone.
  pose proof (fun x => heappop_elem_of _ _ _ _ x Epop) as Hmem.
  assert (Hin : (cost, p) ∈ q) by (apply Hmem; auto).
  destruct (Hq cost p Hin) as (n & Hn & Ecost).
  assert (Hp : normalized m p) by (destruct HF as (Ia & _); apply (Ia _ Hin)).
  destruct (frontier_pending m b (within V) Hwf Hb within_mono q cm HF p Hp Hnone)
    as (k & u & Hk & Hwithin).
  pose proof (heappop_cost_least q cost p r Epop k u Hk) as Hleast.
  pose proof (scale_le (calculate_distance m b p) n (step_cost V) (step_cost_nonneg V HV) Hn) as Hle.
  unfold within in *. lra.
Qed.

Lemma uniform_inv_step q cm cost p r :
  uniform_inv m b V q cm ->
  heappop Qcompare q = Some ((cost, p), r) ->
  match cm !! p with
  | Some _ => uniform_inv m b V r cm
  | None => uniform_inv m b V (relaxed m cost p r) (<[p := cost]> cm)
  end.
Proof.
  intros HI Epop. pose proof Hwf as (Hw & Hh & _).
  pose proof (fun x => heappop_elem_of _ _ _ _ x Epop) as Hmem.
  pose proof (uniform_inv_pop_exact q cm cost p r HI Epop) as Hexact.
  destruct HI as (HF & Hq & Hcm).
  assert (Hstep :
    (cm !! p = None -> forall d, d ∈ get_all_cardinals ->
       within V (relax_entry m cost p d).1 (calculate_distance m b p + 1)) ->
    match cm !! p with
    | Some _ => frontier_inv m b (within V) r cm
    | None => frontier_inv m b (within V) (relaxed m cost p r) (<[p := cost]> cm)
    end) by (intros Hg; eapply frontier_inv_step; eauto).
  destruct (cm !! p) as [c0|] eqn:Ecm.
  - split; [|split].
    + apply Hstep. intros; discriminate.
    + intros k p' Hin. apply Hq, Hmem. auto.
    + exact Hcm.
  - specialize (Hexact eq_refl). split; [|split].
    + apply Hstep. intros _ d Hd. unfold within.
      pose proof (relax_entry_cost cost p d).
      pose proof (scale_succ (calculate_distance m b p) (step_cost V)). lra.
    + intros k p' Hin. apply elem_of_relaxed in Hin as [(d & Hd & E) | Hin].
      * exists (calculate_distance m b p + 1). split.
        -- replace p' with (relax_entry m cost p d).2 by (rewrite <- E; reflexivity).
           simpl. apply calculate_distance_step; assumption.
        -- replace k with (relax_entry m cost p d).1 by (rewrite <- E; reflexivity).
           pose proof (relax_entry_cost cost p d).
           pose proof (scale_succ (calculate_distance m b p) (step_cost V)). lra.
      * apply Hq, Hmem. auto.
    + intros p' k. destruct (decide (p' = p)) as [-> | Hne].
      * rewrite lookup_insert_eq. intros E. injection E as <-. exact Hexact.
      * rewrite lookup_insert_ne by congruence. apply Hcm.
Qed.

Lemma uniform_inv_done (cm : gmap Position Q) :
  uniform_inv m b V [] cm ->
  forall p, normalized m p ->
    exists k, cm !! p = Some k ∧
      (k == inject_Z (calculate_distance m b p) * (inject_Z V / 10 + 50))%Q.
Proof.
  intros (HF & _ & Hcm) p Hp.
  destruct (proj1 (frontier_inv_done m b (within V) Hwf Hb within_mono cm HF p) Hp)
    as [k Hk].
  exists k. split; [exact Hk|]. apply (Hcm p k Hk).
Qed.
End Uniform.

(** *** The cost at the base *)

(** ** The binary64 run *)

Section Binary64Facts.
Context {po : PositionOrder}.

Lemma binary64_visit_spec (m : GameMap) (cost : float) (p : Position)
    (q : list (float * Position)) (cost_map : gmap Position float) (avg : Z) :
  wf_map m ->
  Binary64.dijkstra_visit m cost p (q, cost_map, avg) =
    Some (match cost_map !! p with
          | Some _ => (q, cost_map, avg)
          | None => (binary64_relaxed m cost p q, <[p := cost]> cost_map,
                     avg + visited_halite m p)
          end).
Proof.
  intros Hwf. unfold Binary64.dijkstra_visit. destruct (cost_map !! p); [reflexivity|].
  unfold visited_halite, binary64_relaxed, binary64_entry, halite_at.
  destruct (getitem_wf m p Hwf) as [c ->].
  unfold get_surrounding_cardinals, get_all_cardinals, Binary64.dijkstra_relax, heappush.
  simpl.
  destruct (getitem_wf m (normalize m (directional_offset p North)) Hwf) as [cN ->].
  simpl.
  destruct (getitem_wf m (normalize m (directional_offset p South)) Hwf) as [cS ->].
  simpl.
  destruct (getitem_wf m (normalize m (directional_offset p East)) Hwf) as [cE ->].
  simpl.
  destruct (getitem_wf m (normalize m (directional_offset p West)) Hwf) as [cW ->].
  simpl. do 2 f_equal. lia.
Qed.

Lemma binary64_loop_terminates (m : GameMap) (U : list Position) :
  wf_map m ->
  (forall p, normalized m p -> p ∈ U) ->
  forall fuel q cm avg,
    (forall e, e ∈ q -> e.2 ∈ U) ->
    (length q + 4 * unvisited U cm < fuel)%nat ->
    exists res, Binary64.dijkstra_loop m fuel (q, cm, avg) = Returned res.
Proof.
  intros Hwf HU. pose proof Hwf as (Hw & Hh & _).
  induction fuel as [|fuel IH]; intros q cm avg Hq Hfuel; [lia|].
  simpl. destruct (heappop Binary64.float_compare q) as [[[d p] r]|] eqn:Epop;
    [|eexists; reflexivity].
  pose proof (heappop_length _ _ _ _ Epop) as Hlen.
  assert (Hr : forall e, e ∈ r -> e.2 ∈ U).
  { intros e He. apply Hq. apply (heappop_elem_of _ _ _ _ _ Epop). auto. }
  assert (Hp : p ∈ U).
  { apply (Hq (d, p)). apply (heappop_elem_of _ _ _ _ _ Epop). auto. }
  rewrite binary64_visit_spec by assumption.
  destruct (cm !! p) eqn:Ecm.
  - apply IH; [assumption | lia].
  - pose proof (unvisited_insert_lt U cm p d Hp Ecm).
    apply IH; [|simpl; lia].
    intros e He. unfold binary64_relaxed in He.
    repeat (apply elem_of_cons in He as [-> | He];
            [simpl; apply HU, normalize_normalized; assumption|]).
    apply Hr, He.
Qed.

Lemma binary64_loop_invariant (m : GameMap)
    (Inv : list (float * Position) -> gmap Position float -> Prop) :
  wf_map m ->
  (forall q cm cost p r,
     Inv q cm -> heappop Binary64.float_compare q = Some ((cost, p), r) ->
     match cm !! p with
     | Some _ => Inv r cm
     | None => Inv (binary64_relaxed m cost p r) (<[p := cost]> cm)
     end) ->
  forall fuel q cm avg res,
    Inv q cm -> Binary64.dijkstra_loop m fuel (q, cm, avg) = Returned res ->
    Inv [] res.1.
Proof.
  intros Hwf Hstep. induction fuel as [|fuel IH]; intros q cm avg res HI;
    simpl; [discriminate|].
  destruct (heappop Binary64.float_compare q) as [[[cost p] r]|] eqn:Epop.
  - rewrite binary64_visit_spec by assumption.
    specialize (Hstep q cm cost p r HI Epop).
    destruct (cm !! p); apply IH; assumption.
  - intros E. injection E as <-. simpl.
    apply heappop_None in Epop. subst q. exact HI.
Qed.

Lemma binary64_map_returns (m : GameMap) (base : Entity) :
  wf_map m ->
  exists res, Binary64.dijkstra_map m base = Returned res.
Proof.
  intros Hwf. pose proof Hwf as (Hw & Hh & _).
  apply (binary64_loop_terminates m (entity_position base :: all_positions m) Hwf).
  - intros p Hp. apply elem_of_cons. right. apply elem_of_all_positions, Hp.
  - intros e He. apply list_elem_of_singleton in He. subst e. simpl.
    apply elem_of_cons. auto.
  - pose proof (loop_fuel_enough m (entity_position base) Hw Hh).
    pose proof (unvisited_le_length (entity_position base :: all_positions m)
                  (∅ : gmap Position float)).
    simpl length in *. lia.
Qed.

Lemma binary64_base_inv_step (m : GameMap) (b : Position) q cm cost p r :
  binary64_base_inv b q cm ->
  heappop Binary64.float_compare q = Some ((cost, p), r) ->
  match cm !! p with
  | Some _ => binary64_base_inv b r cm
  | None => binary64_base_inv b (binary64_relaxed m cost p r) (<[p := cost]> cm)
  end.
Proof.
  intros [Hb | [-> ->]] Epop.
  - destruct (cm !! p) eqn:Ecm; [left; exact Hb|].
    left. rewrite lookup_insert_ne by congruence. exact Hb.
  - unfold heappop in Epop. simpl in Epop. injection Epop as <- <- <-.
    rewrite lookup_empty. left. apply lookup_insert_eq.
Qed.

Lemma binary64_base_cost (m : GameMap) (base : Entity) :
  wf_map m ->
  exists cost_map avg_halite,
    Binary64.dijkstra_map m base = Returned (cost_map, avg_halite) ∧
    cost_map !! entity_position base = Some PrimFloat.zero.
Proof.
  intros Hwf.
  destruct (binary64_map_returns m base Hwf) as ([cost_map avg] & Hret).
  exists cost_map, avg. split; [exact Hret|].
  assert (HI : binary64_base_inv (entity_position base) [] (cost_map, avg).1).
  { refine (binary64_loop_invariant m (binary64_base_inv (entity_position base)) Hwf _
              (loop_fuel m) [(PrimFloat.zero, entity_position base)] ∅ 0 (cost_map, avg)
              _ Hret).
    - intros q cm cost p r HI Epop. eapply binary64_base_inv_step; eassumption.
    - right. split; reflexivity. }
  destruct HI as [HI | [_ HI]]; [exact HI | discriminate].
Qed.
End Binary64Facts.

(** The popped entry has a least priority among priorities of a kind [P]
    that [cmp] orders like [le]. *)
Lemma heappop_least_on {po : PositionOrder} {K : Type}
    (cmp : K -> K -> comparison) (P : K -> Prop) (le : K -> K -> Prop)
    (q : list (K * Position)) (e : K * Position) (rest : list (K * Position)) :
  (forall a, P a -> le a a) ->
  (forall a b c, P a -> P b -> P c -> le a b -> le b c -> le a c) ->
  (forall a b, P a -> P b -> cmp a b = Lt -> le a b) ->
  (forall a b, P a -> P b -> cmp a b = Eq -> le a b ∧ le b a) ->
  (forall a b, P a -> P b -> cmp a b = Gt -> le b a) ->
  (forall x, x ∈ q -> P x.1) ->
  heappop cmp q = Some (e, rest) ->
  P e.1 ∧ forall x, x ∈ q -> le e.1 x.1.
Proof.
  intros Hrefl Htrans HLt HEq HGt.
  assert (Hcmp : forall a b, P a.1 -> P b.1 -> entry_ltb cmp a b = true -> le a.1 b.1).
  { intros a b Ha Hb. unfold entry_ltb.
    destruct (cmp a.1 b.1) eqn:E; try discriminate; intros _.
    - destruct (HEq _ _ Ha Hb E); assumption.
    - apply HLt; assumption. }
  assert (Hncmp : forall a b, P a.1 -> P b.1 -> entry_ltb cmp a b = false -> le b.1 a.1).
  { intros a b Ha Hb. unfold entry_ltb.
    destruct (cmp a.1 b.1) eqn:E; try discriminate; intros _.
    - destruct (HEq _ _ Ha Hb E); assumption.
    - apply HGt; assumption. }
  destruct q as [|e0 q]; simpl; [discriminate|]. intros HP E. injection E as E.
  revert e0 e rest E HP.
  induction q as [|e' q IH]; intros e0 e rest E HP; simpl in E.
  - injection E as <- <-. split; [apply HP; constructor|].
    intros x Hx. apply list_elem_of_singleton in Hx. subst.
    apply Hrefl, HP. constructor.
  - destruct (pop_min cmp e' q) as [least r] eqn:El.
    destruct (IH e' least r El) as [Pl Hl].
    { intros x Hx. apply HP. constructor. exact Hx. }
    assert (P0 : P e0.1) by (apply HP; constructor).
    destruct (entry_ltb cmp least e0) eqn:Ec; injection E as <- <-.
    + split; [exact Pl|]. intros x Hx.
      apply elem_of_cons in Hx as [-> | Hx]; [apply Hcmp; assumption | apply Hl, Hx].
    + split; [exact P0|]. intros x Hx.
      apply elem_of_cons in Hx as [-> | Hx]; [apply Hrefl, P0|].
      apply (Htrans _ least.1); try assumption.
      * apply HP. constructor. exact Hx.
      * apply Hncmp; assumption.
      * apply Hl, Hx.
Qed.

Lemma steps_increase_spec (V : Z) (N i j : nat) :
  steps_increase V N = true -> (i <= N)%nat -> (j <= N)%nat ->
  Binary64.float_compare (rounded_steps V i) (rounded_steps V j) = Nat.compare i j.
Proof.
  unfold steps_increase. rewrite forallb_forall. intros H Hi Hj.
  specialize (H i). rewrite in_seq in H. specialize (H ltac:(lia)).
  rewrite forallb_forall in H. specialize (H j). rewrite in_seq in H.
  specialize (H ltac:(lia)). apply bool_decide_eq_true in H. exact H.
Qed.

Lemma calculate_distance_below (m : GameMap) (a b : Position) :
  0 < width m -> 0 < height m ->
  calculate_distance m a b + 1 < width m + height m.
Proof.
  intros Hw Hh. unfold calculate_distance, pos_abs, pos_sub, normalize; simpl.
  pose proof (Z.mod_pos_bound (Position.x a) _ Hw).
  pose proof (Z.mod_pos_bound (Position.x b) _ Hw).
  pose proof (Z.mod_pos_bound (Position.y a) _ Hh).
  pose proof (Z.mod_pos_bound (Position.y b) _ Hh).
  lia.
Qed.

Lemma elem_of_binary64_relaxed (m : GameMap) (cost : float) (p : Position)
    (r : list (float * Position)) (e : float * Position) :
  e ∈ binary64_relaxed m cost p r <->
  (exists d, d ∈ get_all_cardinals ∧ e = binary64_entry m cost p d) ∨ e ∈ r.
Proof.
  unfold binary64_relaxed, get_all_cardinals. rewrite !elem_of_cons. split.
  - intros [-> | [-> | [-> | [-> | Hr]]]];
      [left; eexists; split; [|reflexivity]; repeat constructor ..| right; exact Hr].
  - intros [(d & Hd & ->) | Hr]; [|auto 6].
    repeat (apply elem_of_cons in Hd as [-> | Hd]; [auto 6|]).
    apply elem_of_nil in Hd. contradiction.
Qed.

Section Binary64Uniform.
Context {po : PositionOrder}.
Variables (m : GameMap) (b : Position) (V : Z).
Hypothesis Hwf : wf_map m.
Hypothesis Hb : normalized m b.
Hypothesis Hu : uniform m V.
Hypothesis Hinc : steps_increase V (Z.to_nat (width m + height m)) = true.

Lemma binary64_uniform_inv_init :
  binary64_uniform_inv m b V (Z.to_nat (width m + height m))
    [(PrimFloat.zero, b)] ∅.
Proof.
  pose proof Hwf as (Hw & Hh & _).
  split; [|split; [|split]].
  - intros k p Hk. apply list_elem_of_singleton in Hk. injection Hk as -> ->.
    split; [exact Hb|]. exists 0%nat. split; [|reflexivity].
    rewrite calculate_distance_self by assumption. simpl. lia.
  - intros p k Hk. rewrite lookup_empty in Hk. discriminate.
  - intros p d [v Hv]. rewrite lookup_empty in Hv. discriminate.
  - right. constructor.
Qed.

Lemma binary64_uniform_pending (q : list (float * Position))
    (cm : gmap Position float) :
  binary64_uniform_inv m b V (Z.to_nat (width m + height m)) q cm ->
  forall p, normalized m p -> cm !! p = None ->
    exists n u, (rounded_steps V n, u) ∈ q ∧
                (n <= Z.to_nat (calculate_distance m b p))%nat.
Proof.
  intros (Ia & Ib & Ic & Id). pose proof Hwf as (Hw & Hh & _).
  assert (Hind : forall n p, Z.to_nat (calculate_distance m b p) = n ->
            normalized m p -> cm !! p = None ->
            exists n' u, (rounded_steps V n', u) ∈ q ∧
                         (n' <= Z.to_nat (calculate_distance m b p))%nat).
  { induction n as [n IH] using lt_wf_ind. intros p Hn Hp Hnone.
    pose proof (calculate_distance_nonneg m b p Hw Hh) as Hge.
    destruct (Z.eq_dec (calculate_distance m b p) 0) as [E0 | E0].
    - assert (b = p) by (apply (calculate_distance_zero m); assumption).
      subst p. destruct Id as [[v Hv] | Hk]; [congruence|].
      exists 0%nat, b. split; [exact Hk | lia].
    - destruct (calculate_distance_pred m b p Hw Hh Hp ltac:(lia))
        as (v & d & Hv & Hd & Hvp & Hdist).
      destruct (cm !! v) as [c|] eqn:Ev.
      + destruct (Ic v d ltac:(rewrite Ev; eauto) Hd) as [[c' Hc'] | Hk].
        * rewrite Hvp in Hc'. congruence.
        * rewrite Hvp in Hk.
          exists (S (Z.to_nat (calculate_distance m b v))), p.
          split; [exact Hk | lia].
      + destruct (IH (Z.to_nat (calculate_distance m b v)) ltac:(lia) v eq_refl Hv Ev)
          as (n' & u & Hk & Hg).
        exists n', u. split; [exact Hk | lia]. }
  intros p. apply (Hind _ p eq_refl).
Qed.

Lemma binary64_uniform_least (q : list (float * Position))
    (cm : gmap Position float) (cost : float) (p : Position)
    (r : list (float * Position)) (n n' : nat) (u : Position) :
  binary64_uniform_inv m b V (Z.to_nat (width m + height m)) q cm ->
  heappop Binary64.float_compare q = Some ((cost, p), r) ->
  cost = rounded_steps V n -> (n <= Z.to_nat (width m + height m))%nat ->
  (rounded_steps V n', u) ∈ q -> (n' <= Z.to_nat (width m + height m))%nat ->
  (n <= n')%nat.
Proof.
  intros (Ia & _) Epop -> Hn Hin Hn'.
  set (N := Z.to_nat (width m + height m)) in *.
  set (P := fun k : float => exists i, (i <= N)%nat ∧ k = rounded_steps V i).
  set (le := fun a c : float =>
               forall i j, (i <= N)%nat -> (j <= N)%nat ->
                 a = rounded_steps V i -> c = rounded_steps V j -> (i <= j)%nat).
  assert (Hinj : forall i j, (i <= N)%nat -> (j <= N)%nat ->
            rounded_steps V i = rounded_steps V j -> i = j).
  { intros i j Hi Hj E.
    pose proof (steps_increase_spec V N i j Hinc Hi Hj) as H1.
    pose proof (steps_increase_spec V N j j Hinc Hj Hj) as H2.
    rewrite E, H2 in H1. rewrite Nat.compare_refl in H1.
    symmetry in H1. apply Nat.compare_eq_iff in H1. exact H1. }
  destruct (heappop_least_on Binary64.float_compare P le q
              (rounded_steps V n, p) r) as [_ Hleast]; try assumption.
  - intros a (i & Hi & ->) i1 j1 Hi1 Hj1 E1 E2.
    apply Hinj in E1; [|assumption..]. apply Hinj in E2; [|assumption..]. lia.
  - intros a0 b0 c0 _ (j & Hj & ->) _ Hab Hbc i k Hi Hk Ea Ec.
    specialize (Hab i j Hi Hj Ea eq_refl). specialize (Hbc j k Hj Hk eq_refl Ec).
    lia.
  - intros a0 b0 _ _ Hc i j Hi Hj -> ->.
    rewrite (steps_increase_spec V N i j Hinc Hi Hj) in Hc.
    apply Nat.compare_lt_iff in Hc. lia.
  - intros a0 b0 _ _ Hc. split; intros i j Hi Hj E1 E2; subst.
    + rewrite (steps_increase_spec V N i j Hinc Hi Hj) in Hc.
      apply Nat.compare_eq_iff in Hc. lia.
    + rewrite (steps_increase_spec V N j i Hinc Hj Hi) in Hc.
      apply Nat.compare_eq_iff in Hc. lia.
  - intros a0 b0 _ _ Hc i j Hi Hj -> ->.
    rewrite (steps_increase_spec V N j i Hinc Hj Hi) in Hc.
    apply Nat.compare_gt_iff in Hc. lia.
  - intros [k x] Hx. destruct (Ia k x Hx) as (_ & i & Hi & ->).
    exists i. split; [lia | reflexivity].
  - exact (Hleast (rounded_steps V n', u) Hin n n' Hn Hn' eq_refl eq_refl).
Qed.

Lemma binary64_uniform_inv_step (q : list (float * Position))
    (cm : gmap Position float) (cost : float) (p : Position)
    (r : list (float * Position)) :
  binary64_uniform_inv m b V (Z.to_nat (width m + height m)) q cm ->
  heappop Binary64.float_compare q = Some ((cost, p), r) ->
  match cm !! p with
  | Some _ => binary64_uniform_inv m b V (Z.to_nat (width m + height m)) r cm
  | None => binary64_uniform_inv m b V (Z.to_nat (width m + height m))
              (binary64_relaxed m cost p r) (<[p := cost]> cm)
  end.
Proof.
  intros HI Epop. pose proof HI as (Ia & Ib & Ic & Id).
  pose proof Hwf as (Hw & Hh & _).
  pose proof (fun x => heappop_elem_of _ _ _ _ x Epop) as Hmem.
  assert (Hdp : (cost, p) ∈ q) by (apply Hmem; auto).
  destruct (Ia cost p Hdp) as (Hp & n & Hn & Ecost).
  destruct (cm !! p) as [c|] eqn:Ecm.
  - split; [|split; [|split]]; try assumption.
    + intros k u Hk. apply Ia, Hmem. auto.
    + intros p' c' Hp' Hc'.
      destruct (Ic p' c' Hp' Hc') as [Hl | Hk]; [auto|].
      apply Hmem in Hk as [Hk | Hk].
      * left. injection Hk as _ ->. rewrite Ecm. eauto.
      * right. exact Hk.
    + destruct Id as [Hl | Hk]; [auto|].
      apply Hmem in Hk as [Hk | Hk].
      * left. injection Hk as _ ->. rewrite Ecm. eauto.
      * right. exact Hk.
  - assert (En : n = Z.to_nat (calculate_distance m b p)).
    { destruct (binary64_uniform_pending q cm HI p Hp Ecm) as (n' & u & Hk & Hle).
      pose proof (binary64_uniform_least q cm cost p r n n' u HI Epop Ecost
                    ltac:(lia) Hk ltac:(lia)). lia. }
    assert (Hentry : forall d,
              binary64_entry m cost p d
              = (rounded_steps V (S n), normalize m (directional_offset p d))).
    { intros d. unfold binary64_entry.
      rewrite (uniform_halite_at m V _ Hwf Hu). rewrite Ecost. reflexivity. }
    pose proof (calculate_distance_below m b p Hw Hh) as Hbelow.
    pose proof (calculate_distance_nonneg m b p Hw Hh) as Hge.
    split; [|split; [|split]].
    + intros k u Hk. apply elem_of_binary64_relaxed in Hk as [(d & Hd & E) | Hk].
      * rewrite Hentry in E. injection E as -> ->.
        split; [apply normalize_normalized; assumption|].
        exists (S n). split; [|reflexivity].
        pose proof (calculate_distance_step m b p d Hw Hh).
        pose proof (calculate_distance_nonneg m b
                      (normalize m (directional_offset p d)) Hw Hh).
        lia.
      * apply Ia, Hmem. auto.
    + intros p' k Hk. destruct (decide (p' = p)) as [-> | Hne].
      * rewrite lookup_insert_eq in Hk. injection Hk as <-.
        split; [exact Hp|]. rewrite Ecost, En. reflexivity.
      * rewrite lookup_insert_ne in Hk by congruence. apply Ib, Hk.
    + intros p' d Hp' Hd. rewrite is_Some_insert.
      apply is_Some_insert in Hp' as [-> | Hp'].
      * right. rewrite <- En. apply elem_of_binary64_relaxed. left.
        exists d. split; [exact Hd|]. symmetry. apply Hentry.
      * destruct (Ic p' d Hp' Hd) as [Hl | Hk]; [auto|].
        apply Hmem in Hk as [Hk | Hk].
        -- left. left. injection Hk as _ ->. reflexivity.
        -- right. apply elem_of_binary64_relaxed. auto.
    + rewrite is_Some_insert.
      destruct Id as [Hl | Hk]; [auto|].
      apply Hmem in Hk as [Hk | Hk].
      * left. left. injection Hk as _ ->. reflexivity.
      * right. apply elem_of_binary64_relaxed. auto.
Qed.

Lemma binary64_uniform_inv_done (cm : gmap Position float) :
  binary64_uniform_inv m b V (Z.to_nat (width m + height m)) [] cm ->
  forall p, normalized m p ->
    cm !! p = Some (rounded_steps V (Z.to_nat (calculate_distance m b p))).
Proof.
  intros HI p Hp. destruct (cm !! p) as [k|] eqn:E.
  - destruct HI as (_ & Ib & _). destruct (Ib p k E) as [_ ->]. reflexivity.
  - destruct (binary64_uniform_pending [] cm HI p Hp E) as (n & u & Hk & _).
    apply elem_of_nil in Hk. contradiction.
Qed.
End Binary64Uniform.

Section ReturnCost.
Context {po : PositionOrder}.

Lemma base_inv_step (m : GameMap) (b : Position) q cm cost p r :
  base_inv b q cm ->
  heappop Qcompare q = Some ((cost, p), r) ->
  match cm !! p with
  | Some _ => base_inv b r cm
  | None => base_inv b (relaxed m cost p r) (<[p := cost]> cm)
  end.
Proof.
  intros [Hb | [-> ->]] Epop.
  - destruct (cm !! p) eqn:Ecm; [left; exact Hb|].
    left. rewrite lookup_insert_ne by congruence. exact Hb.
  - unfold heappop in Epop. simpl in Epop. injection Epop as <- <- <-.
    rewrite lookup_empty. left. apply lookup_insert_eq.
Qed.

(** C5. On a well-formed grid the cost map that [dijkstra_map] returns
    gives the base position the cost 0.  When moreover the base position
    is normalized and every cell holds the same amount [V], a coordinate
    at toroidal distance [d] from the base has the cost of [d] steps:
    - as the code computes it, in binary64, the sum [cost + V/10 + 50]
      taken [d] times from 0 and rounded at every operation, provided
      these sums increase along the distances of the grid;
    - in exact arithmetic, [d * (V/10 + 50)], provided the step cost
      [V/10 + 50] is not negative.
    The two differ wherever a rounding is inexact. *)
Theorem dijkstra_map_uniform_cost (m : GameMap) (base : Entity) :
  wf_map m ->
  (exists cost_map avg_halite,
     Binary64.dijkstra_map m base = Returned (cost_map, avg_halite) ∧
     cost_map !! entity_position base = Some PrimFloat.zero ∧
     (normalized m (entity_position base) ->
      forall V, uniform m V ->
      steps_increase V (Z.to_nat (width m + height m)) = true ->
      forall p d,
        normalized m p ->
        calculate_distance m (entity_position base) p = d ->
        cost_map !! p = Some (rounded_steps V (Z.to_nat d)))) ∧
  (exists cost_map avg_halite,
     dijkstra_map m base = Returned (cost_map, avg_halite) ∧
     cost_map !! entity_position base = Some 0%Q ∧
     (normalized m (entity_position base) ->
      forall V, -500 <= V -> uniform m V ->
      forall p d,
        normalized m p ->
        calculate_distance m (entity_position base) p = d ->
        exists k, cost_map !! p = Some k ∧
                  (k == inject_Z d * (inject_Z V / 10 + 50))%Q)).
Proof.
  intros Hwf. split.
  - destruct (binary64_base_cost m base Hwf) as (cost_map & avg & Hret & Hbase).
    exists cost_map, avg. split; [exact Hret|]. split; [exact Hbase|].
    intros Hb V Hu Hinc p d Hp <-.
    eapply (binary64_uniform_inv_done m (entity_position base) V);
      try eassumption.
    refine (binary64_loop_invariant m
              (binary64_uniform_inv m (entity_position base) V
                 (Z.to_nat (width m + height m))) Hwf _
              (loop_fuel m) [(PrimFloat.zero, entity_position base)] ∅ 0
              (cost_map, avg) _ Hret).
    + intros q cm cost p' r HI Epop.
      eapply (binary64_uniform_inv_step m (entity_position base) V); eassumption.
    + apply binary64_uniform_inv_init; assumption.
  - destruct (dijkstra_map_returns m base Hwf) as ([cost_map avg] & Hret & _).
    exists cost_map, avg. split; [exact Hret|]. split.
    + assert (HI : base_inv (entity_position base) [] (cost_map, avg).1).
      { refine (dijkstra_loop_invariant m (base_inv (entity_position base)) Hwf _
                  (loop_fuel m) [(0%Q, entity_position base)] ∅ 0 (cost_map, avg)
                  _ Hret).
        - intros q cm cost p r HI Epop. eapply base_inv_step; eassumption.
        - right. split; reflexivity. }
      destruct HI as [HI | [_ HI]]; [exact HI | discriminate].
    + intros Hb V HV Hu p d Hp <-.
      apply (uniform_inv_done m (entity_position base) V Hwf Hb HV); [|exact Hp].
      refine (dijkstra_loop_invariant m (uniform_inv m (entity_position base) V) Hwf _
                (loop_fuel m) [(0%Q, entity_position base)] ∅ 0 (cost_map, avg)
                _ Hret).
      * intros q cm cost p' r HI Epop.
        eapply (uniform_inv_step m (entity_position base) V); eassumption.
      * apply uniform_inv_init; assumption.
Qed.
End ReturnCost.

Lemma dijkstra_map_uniform_cost_witness :
  (exists cost_map avg_halite,
     Binary64.dijkstra_map (po := lexicographic) (uniform_map 3 3 100)
       (mkEntity 0 0 (Position.mk 0 0) 0) = Returned (cost_map, avg_halite) ∧
     cost_map !! Position.mk 0 0 = Some PrimFloat.zero ∧
     cost_map !! Position.mk 1 1 = Some 120%float) ∧
  (exists cost_map avg_halite k,
     dijkstra_map (po := lexicographic) (uniform_map 3 3 100)
       (mkEntity 0 0 (Position.mk 0 0) 0) = Returned (cost_map, avg_halite) ∧
     cost_map !! Position.mk 0 0 = Some 0%Q ∧
     cost_map !! Position.mk 1 1 = Some k ∧ (k == 120)%Q).
Proof.
  destruct (dijkstra_map_uniform_cost (po := lexicographic) (uniform_map 3 3 100)
              (mkEntity 0 0 (Position.mk 0 0) 0) ltac:(solve_wf_map))
    as [(fcost_map & favg & Hfret & Hfbase & Hfcost)
        (cost_map & avg & Hret & Hbase & Hcost)].
  split.
  - exists fcost_map, favg. split; [exact Hfret|]. split; [exact Hfbase|].
    exact (Hfcost ltac:(unfold normalized; simpl; lia) 100
             ltac:(repeat constructor) ltac:(vm_compute; reflexivity)
             (Position.mk 1 1) 2
             ltac:(unfold normalized; simpl; lia) eq_refl).
  - destruct (Hcost ltac:(unfold normalized; simpl; lia) 100 ltac:(lia)
                ltac:(repeat constructor) (Position.mk 1 1) 2
                ltac:(unfold normalized; simpl; lia) eq_refl) as (k & Hk & Ek).
    exists cost_map, avg, k. split; [exact Hret|]. split; [exact Hbase|].
    split; [exact Hk|]. rewrite Ek. reflexivity.
Defined.

(** On a row of fifteen cells that hold 1 each, the code records
    350.70000000000005 for the cell seven steps from the base: neither
    what [7 * (1/10 + 50)] evaluates to in binary64 (350.7) nor, as a
    number, seven times the exact step cost. *)
Lemma dijkstra_map_rounds_every_step :
  exists cost_map avg_halite cost exact,
    Binary64.dijkstra_map (po := lexicographic) (uniform_map 15 1 1)
      (mkEntity 0 0 (Position.mk 0 0) 0) = Returned (cost_map, avg_halite) ∧
    uniform (uniform_map 15 1 1) 1 ∧
    calculate_distance (uniform_map 15 1 1) (Position.mk 0 0) (Position.mk 7 0) = 7 ∧
    cost_map !! Position.mk 7 0 = Some cost ∧
    cost = 0x1.5eb3333333334p+8%float ∧
    (cost =? 7 * (1 / 10 + 50))%float = false ∧
    Binary64.exact_value cost = Some exact ∧
    ¬ (exact == 7 * (1 / 10 + 50))%Q.
Proof.
  destruct (Binary64.dijkstra_map (po := lexicographic) (uniform_map 15 1 1)
              (mkEntity 0 0 (Position.mk 0 0) 0)) as [[cost_map avg_halite]| |] eqn:E;
    vm_compute in E; try discriminate.
  injection E as <- <-.
  eexists _, _, _, _. split; [reflexivity|].
  split; [repeat constructor|]. split; [reflexivity|].
  split; [vm_compute; reflexivity|]. split; [reflexivity|].
  split; [vm_compute; reflexivity|]. split; [vm_compute; reflexivity|].
  vm_compute. discriminate.
Qed.

(** ** Following the cost map home *)

Lemma Qltb_false (a b : Q) : Qltb a b = false <-> (b <= a)%Q.
Proof.
  pose proof (Qltb_lt a b) as Hlt. destruct (Qltb a b).
  - split; [discriminate|]. intros Hle. apply Qle_not_lt in Hle.
    exfalso. apply Hle, Hlt. reflexivity.
  - split; [|reflexivity]. intros _. apply Qnot_lt_le. intros Hc.
    apply Hlt in Hc. discriminate.
Qed.

Lemma keep_lowest_spec (f : Direction -> Q) (l : list Direction)
    (c0 : Q) (d0 : Direction) :
  let r := foldl (keep_lowest f) (c0, d0) l in
  (r = (c0, d0) ∧ forall x, x ∈ l -> (c0 <= f x)%Q) ∨
  (exists before after,
     l = before ++ r.2 :: after ∧ r.1 = f r.2 ∧ (f r.2 < c0)%Q ∧
     (forall x, x ∈ before -> (f r.2 < f x)%Q) ∧
     (forall x, x ∈ after -> (f r.2 <= f x)%Q)).
Proof.
  induction l as [|a l IH] using rev_ind; simpl.
  - left. split; [reflexivity|]. intros x Hx. apply elem_of_nil in Hx. contradiction.
  - rewrite foldl_app. simpl. simpl in IH.
    destruct (foldl (keep_lowest f) (c0, d0) l) as [lo mv].
    unfold keep_lowest. simpl.
    destruct (Qltb (f a) lo) eqn:Hcmp; simpl.
    + apply Qltb_lt in Hcmp.
      right. exists l, []. split; [reflexivity|]. split; [reflexivity|].
      destruct IH as [[E Hall] | (b & af & El & Elo & H0 & Hb & Ha)].
      * injection E as -> ->. split; [lra|]. split.
        -- intros x Hx. specialize (Hall x Hx). lra.
        -- intros x Hx. apply elem_of_nil in Hx. contradiction.
      * simpl in *. subst lo. split; [lra|]. split.
        -- intros x Hx. rewrite El in Hx.
           apply elem_of_app in Hx as [Hx | Hx]; [specialize (Hb x Hx); lra|].
           apply elem_of_cons in Hx as [-> | Hx]; [lra|].
           specialize (Ha x Hx). lra.
        -- intros x Hx. apply elem_of_nil in Hx. contradiction.
    + apply Qltb_false in Hcmp.
      destruct IH as [[E Hall] | (b & af & El & Elo & H0 & Hb & Ha)].
      * left. split; [assumption|]. injection E as -> ->.
        intros x Hx. apply elem_of_app in Hx as [Hx | Hx]; [auto|].
        apply list_elem_of_singleton in Hx. subst. lra.
      * right. simpl in *. subst lo. exists b, (af ++ [a]).
        split; [rewrite El, <- app_assoc; reflexivity|].
        split; [reflexivity|]. split; [assumption|]. split; [assumption|].
        intros x Hx. apply elem_of_app in Hx as [Hx | Hx]; [auto|].
        apply list_elem_of_singleton in Hx. subst. lra.
Qed.

Lemma navigate_back_fold (m : GameMap) (ship : Entity)
    (dijkstra_map : gmap Position Q) (l : list Direction) (acc : Q * Direction) :
  (forall d, d ∈ l ->
     is_Some (dijkstra_map !! normalize m (directional_offset (entity_position ship) d))) ->
  foldl (navigate_back_step m ship dijkstra_map) (Some acc) l =
    Some (foldl (keep_lowest (neighbour_cost m ship dijkstra_map)) acc l).
Proof.
  revert acc. induction l as [|a l IH]; intros acc Hl; cbn [foldl]; [reflexivity|].
  destruct (Hl a ltac:(constructor)) as [c Hc].
  replace (navigate_back_step m ship dijkstra_map (Some acc) a)
    with (Some (keep_lowest (neighbour_cost m ship dijkstra_map) acc a)).
  - apply IH. intros d Hd. apply Hl. constructor. exact Hd.
  - unfold navigate_back_step, keep_lowest, neighbour_cost. destruct acc as [cost mv].
    simpl. rewrite Hc. simpl. destruct (Qltb c cost); reflexivity.
Qed.

(** C7. Given a cost map with an entry for the ship's position and for its
    four normalized cardinal neighbours, [navigate_back] returns, and what
    it returns is either [Still] -- when no neighbour costs strictly less
    than the ship's cell -- or a cardinal direction whose neighbour costs
    strictly less than the ship's cell, strictly less than every neighbour
    enumerated before it and no more than any after it (a tie never
    replaces the choice made so far).  In particular it returns [Still]
    when the ship's cell has cost 0 and no cost is negative. *)
Theorem navigate_back_descends (m : GameMap) (ship : Entity)
    (dijkstra_map : gmap Position Q) :
  is_Some (dijkstra_map !! entity_position ship) ->
  (forall d, d ∈ get_all_cardinals ->
     is_Some (dijkstra_map !! normalize m (directional_offset (entity_position ship) d))) ->
  let f := neighbour_cost m ship dijkstra_map in
  exists cost move_dir,
    dijkstra_map !! entity_position ship = Some cost ∧
    navigate_back m ship dijkstra_map = Some move_dir ∧
    (forall d, d ∈ get_all_cardinals ->
       dijkstra_map !! normalize m (directional_offset (entity_position ship) d)
         = Some (f d)) ∧
    ((move_dir = Still ∧ forall d, d ∈ get_all_cardinals -> (cost <= f d)%Q) ∨
     (exists before after,
        get_all_cardinals = before ++ move_dir :: after ∧
        (f move_dir < cost)%Q ∧
        (forall d, d ∈ before -> (f move_dir < f d)%Q) ∧
        (forall d, d ∈ after -> (f move_dir <= f d)%Q))) ∧
    ((cost == 0)%Q ->
     (forall p c, dijkstra_map !! p = Some c -> (0 <= c)%Q) ->
     move_dir = Still).
Proof.
  intros [cost Hcost] Hnb f.
  assert (Hf : forall d, d ∈ get_all_cardinals ->
            dijkstra_map !! normalize m (directional_offset (entity_position ship) d)
              = Some (f d)).
  { intros d Hd. destruct (Hnb d Hd) as [c Hc]. unfold f, neighbour_cost.
    rewrite Hc. reflexivity. }
  unfold navigate_back. rewrite Hcost. cbn -[foldl get_all_cardinals].
  rewrite navigate_back_fold by exact Hnb. fold f.
  pose proof (keep_lowest_spec f get_all_cardinals cost Still) as Hspec.
  cbv zeta in Hspec. revert Hspec.
  destruct (foldl (keep_lowest f) (cost, Still) get_all_cardinals) as [lo mv].
  intros Hspec. simpl. exists cost, mv.
  split; [reflexivity|]. split; [reflexivity|]. split; [exact Hf|]. split.
  - destruct Hspec as [[E Hall] | (b & af & El & _ & Hlt & Hb & Ha)].
    + left. split; [congruence | exact Hall].
    + right. exists b, af. simpl in *. auto.
  - intros H0 Hpos.
    destruct Hspec as [[E _] | (b & af & El & _ & Hlt & _)]; [congruence|].
    simpl in *. exfalso.
    assert (Hmv : mv ∈ get_all_cardinals)
      by (rewrite El; apply elem_of_app; right; constructor).
    pose proof (Hpos _ _ (Hf mv Hmv)). lra.
Qed.

Lemma navigate_back_descends_witness :
  navigate_back (uniform_map 3 3 0) (mkEntity 0 1 (Position.mk 1 1) 0)
    (<[Position.mk 1 1 := 2%Q]> (<[Position.mk 1 0 := 1%Q]> (<[Position.mk 1 2 := 3%Q]>
      (<[Position.mk 2 1 := 3%Q]> (<[Position.mk 0 1 := 1%Q]> ∅)))))
    = Some North.
Proof.
  set (cm := <[Position.mk 1 1 := 2%Q]> (<[Position.mk 1 0 := 1%Q]> (<[Position.mk 1 2 := 3%Q]>
      (<[Position.mk 2 1 := 3%Q]> (<[Position.mk 0 1 := 1%Q]> (∅ : gmap Position Q)))))).
  destruct (navigate_back_descends (uniform_map 3 3 0)
              (mkEntity 0 1 (Position.mk 1 1) 0) cm)
    as (cost & mv & _ & Hnav & _).
  - vm_compute. eauto.
  - intros d Hd. unfold get_all_cardinals in Hd.
    repeat (apply elem_of_cons in Hd as [-> | Hd]; [vm_compute; eauto|]).
    apply elem_of_nil in Hd. contradiction.
  - vm_compute. reflexivity.
Defined.

(** * Further properties *)

(** ** Toroidal addressing *)

(** X1. On a grid of positive extent [normalize] sends every integer
    coordinate into the grid, leaves a coordinate of the grid as it is (so
    it is idempotent), and does not tell apart two coordinates that differ
    by whole multiples of the width and the height. *)
Theorem normalize_wraps (m : GameMap) (p : Position) (k l : Z) :
  0 < width m -> 0 < height m ->
  normalized m (normalize m p) ∧
  normalize m (normalize m p) = normalize m p ∧
  (normalized m p -> normalize m p = p) ∧
  normalize m (Position.mk (Position.x p + k * width m)
                           (Position.y p + l * height m)) = normalize m p.
Proof.
  intros Hw Hh.
  split; [apply normalize_normalized; assumption|].
  split; [apply normalize_idempotent; assumption|].
  split; [apply normalize_id|].
  unfold normalize; simpl. rewrite !Z_mod_plus_full. reflexivity.
Qed.

Lemma normalize_wraps_witness :
  normalize (uniform_map 5 4 0) (Position.mk (-1) 9) = Position.mk 4 1.
Proof.
  destruct (normalize_wraps (uniform_map 5 4 0) (Position.mk 4 1) (-1) 2
              ltac:(simpl; lia) ltac:(simpl; lia)) as (_ & _ & Hid & Hshift).
  transitivity (normalize (uniform_map 5 4 0) (Position.mk 4 1));
    [exact Hshift | apply Hid; unfold normalized; simpl; lia].
Defined.

Lemma py_index_wraps {A : Type} (l : list A) (n i : Z) :
  0 < n -> length l = Z.to_nat n -> - n <= i < n ->
  py_index l i = l !! Z.to_nat (i mod n).
Proof.
  intros Hn Hlen Hi. unfold py_index.
  destruct (Z.leb_spec 0 i).
  - rewrite Z.mod_small by lia. reflexivity.
  - destruct (Z.leb_spec (- Z.of_nat (length l)) i); [|lia].
    f_equal. f_equal. rewrite Hlen, Z2Nat.id by lia.
    apply (Zmod_unique _ _ (-1)); lia.
Qed.

Lemma py_index_outside {A : Type} (l : list A) (n i : Z) :
  0 < n -> length l = Z.to_nat n -> i < - n ∨ n <= i ->
  py_index l i = None.
Proof.
  intros Hn Hlen Hi. unfold py_index.
  destruct (Z.leb_spec 0 i).
  - apply lookup_ge_None. lia.
  - destruct (Z.leb_spec (- Z.of_nat (length l)) i); [lia | reflexivity].
Qed.

Lemma wf_map_row (m : GameMap) (i : nat) (row : list MapCell) :
  wf_map m -> _cells m !! i = Some row -> length row = Z.to_nat (width m).
Proof.
  intros (_ & _ & _ & Hrows) Hrow. rewrite Forall_forall in Hrows.
  apply Hrows. eapply list_elem_of_lookup_2; eassumption.
Qed.

Lemma getitem_location_position (m : GameMap) (p : Position) :
  wf_map m ->
  getitem_location m (a_position p) =
    match getitem m p with Some cell => Returned (Some cell) | None => Raised end.
Proof.
  intros Hwf. pose proof Hwf as (Hw & Hh & Hlen & _).
  destruct (normalize_normalized m p Hw Hh) as [Hx Hy].
  unfold getitem_location, getitem, normalize in *. simpl in *.
  rewrite (py_index_wraps (_cells m) (height m)) by lia.
  rewrite Zmod_mod.
  destruct (_cells m !! Z.to_nat (Position.y p mod height m)) as [row|] eqn:Hrow;
    simpl; [|reflexivity].
  rewrite (py_index_wraps row (width m));
    [|lia|eapply wf_map_row; eassumption|lia].
  rewrite Zmod_mod. reflexivity.
Qed.

(** X2. On a well-formed grid [self[position]] never fails, whatever the
    integer coordinates: it returns a cell, the same one for the
    normalized position and for every position that differs from it by
    whole multiples of the width and the height. *)
Theorem getitem_toroidal (m : GameMap) (p : Position) (k l : Z) :
  wf_map m ->
  exists cell,
    getitem_location m (a_position p) = Returned (Some cell) ∧
    getitem m p = Some cell ∧
    getitem m (normalize m p) = Some cell ∧
    getitem m (Position.mk (Position.x p + k * width m)
                           (Position.y p + l * height m)) = Some cell.
Proof.
  intros Hwf. pose proof Hwf as (Hw & Hh & _).
  destruct (getitem_wf m p Hwf) as [cell Hcell]. exists cell.
  split; [rewrite getitem_location_position, Hcell by assumption; reflexivity|].
  split; [exact Hcell|].
  split.
  - unfold getitem in *. rewrite normalize_idempotent by assumption. exact Hcell.
  - unfold getitem in *.
    replace (normalize m (Position.mk (Position.x p + k * width m)
                                      (Position.y p + l * height m)))
      with (normalize m p); [exact Hcell|].
    unfold normalize; simpl. rewrite !Z_mod_plus_full. reflexivity.
Qed.

Lemma getitem_toroidal_witness :
  getitem (uniform_map 3 2 7) (Position.mk (-4) 5)
    = Some (mkMapCell (Position.mk 2 1) 7 None None 0).
Proof.
  destruct (getitem_toroidal (uniform_map 3 2 7) (Position.mk 2 1) (-2) 2
              ltac:(solve_wf_map)) as (cell & _ & Hcell & _ & Hshift).
  transitivity (getitem (uniform_map 3 2 7) (Position.mk 2 1));
    [transitivity (Some cell); [exact Hshift | symmetry; exact Hcell] | reflexivity].
Defined.

(** X3. [self[entity]] indexes the rows with the entity's position as it
    is.  On a well-formed grid it returns the same cell as [self[position]]
    exactly while the position lies within one extent of the grid on
    either side ([-width <= x < width] and [-height <= y < height], where
    Python's negative indices wrap like [normalize]); any farther out it
    raises an IndexError, where [self[position]] still returns a cell.
    For an object that is neither, [None] is returned. *)
Theorem getitem_entity_window (m : GameMap) (e : Entity) :
  wf_map m ->
  let p := entity_position e in
  (- width m <= Position.x p < width m ->
   - height m <= Position.y p < height m ->
   exists cell,
     getitem_location m (an_entity e) = Returned (Some cell) ∧
     getitem_location m (a_position p) = Returned (Some cell)) ∧
  (¬ (- width m <= Position.x p < width m ∧
      - height m <= Position.y p < height m) ->
   getitem_location m (an_entity e) = Raised ∧
   exists cell, getitem_location m (a_position p) = Returned (Some cell)) ∧
  getitem_location m another_object = Returned None.
Proof.
  intros Hwf p. pose proof Hwf as (Hw & Hh & Hlen & _).
  destruct (getitem_wf m p Hwf) as [cell Hcell].
  pose proof (getitem_location_position m p Hwf) as Hpos. rewrite Hcell in Hpos.
  split; [|split; [|reflexivity]].
  - intros Hx Hy. exists cell. split; [|exact Hpos].
    unfold getitem_location. fold p.
    rewrite (py_index_wraps (_cells m) (height m)) by lia.
    unfold getitem, normalize in Hcell. simpl in Hcell.
    destruct (_cells m !! Z.to_nat (Position.y p mod height m)) as [row|] eqn:Hrow;
      simpl in *; [|discriminate].
    rewrite (py_index_wraps row (width m));
      [|lia|eapply wf_map_row; eassumption|lia].
    rewrite Hcell. reflexivity.
  - intros Hout. split; [|exists cell; exact Hpos].
    unfold getitem_location. fold p.
    destruct (Z_lt_dec (Position.y p) (- height m)) as [Hy1|Hy1];
      [rewrite (py_index_outside (_cells m) (height m)) by lia; reflexivity|].
    destruct (Z_le_dec (height m) (Position.y p)) as [Hy2|Hy2];
      [rewrite (py_index_outside (_cells m) (height m)) by lia; reflexivity|].
    rewrite (py_index_wraps (_cells m) (height m)) by lia.
    destruct (_cells m !! Z.to_nat (Position.y p mod height m)) as [row|] eqn:Hrow;
      simpl; [|reflexivity].
    rewrite (py_index_outside row (width m));
      [reflexivity|lia|eapply wf_map_row; eassumption|lia].
Qed.

Lemma getitem_entity_window_witness :
  getitem_location (uniform_map 3 2 7) (an_entity (mkEntity 0 1 (Position.mk 3 0) 0))
    = Raised.
Proof.
  destruct (getitem_entity_window (uniform_map 3 2 7)
              (mkEntity 0 1 (Position.mk 3 0) 0) ltac:(solve_wf_map))
    as (_ & Hout & _).
  apply Hout. simpl. lia.
Defined.

(** ** The distance as a metric *)

Lemma wrap_delta_triangle (w a b c : Z) :
  0 <= a < w -> 0 <= b < w -> 0 <= c < w ->
  Z.min (Z.abs (a - c)) (w - Z.abs (a - c)) <=
    Z.min (Z.abs (a - b)) (w - Z.abs (a - b)) +
    Z.min (Z.abs (b - c)) (w - Z.abs (b - c)).
Proof. lia. Qed.

Lemma calculate_distance_zero_iff (m : GameMap) (a b : Position) :
  0 < width m -> 0 < height m ->
  calculate_distance m a b = 0 <-> normalize m a = normalize m b.
Proof.
  intros Hw Hh. split.
  - intros E. apply (calculate_distance_zero m);
      try (apply normalize_normalized; assumption).
    rewrite calculate_distance_normalize_l, calculate_distance_normalize_r by assumption.
    exact E.
  - intros E. rewrite <- calculate_distance_normalize_l, E,
      calculate_distance_normalize_l by assumption.
    apply calculate_distance_self; assumption.
Qed.

(** X4. On a grid of positive extent [calculate_distance] is a metric on
    the cells of the torus: it is never negative, it is 0 exactly for two
    coordinates of the same cell, it obeys the triangle inequality, and no
    two cells are farther apart than half the width plus half the
    height. *)
Theorem calculate_distance_metric (m : GameMap) (a b c : Position) :
  0 < width m -> 0 < height m ->
  0 <= calculate_distance m a b ∧
  (calculate_distance m a b = 0 <-> normalize m a = normalize m b) ∧
  calculate_distance m a c <= calculate_distance m a b + calculate_distance m b c ∧
  calculate_distance m a b <= width m / 2 + height m / 2.
Proof.
  intros Hw Hh.
  split; [apply calculate_distance_nonneg; assumption|].
  split; [apply calculate_distance_zero_iff; assumption|].
  pose proof (Z.mod_pos_bound (Position.x a) _ Hw) as Hax.
  pose proof (Z.mod_pos_bound (Position.x b) _ Hw) as Hbx.
  pose proof (Z.mod_pos_bound (Position.x c) _ Hw) as Hcx.
  pose proof (Z.mod_pos_bound (Position.y a) _ Hh) as Hay.
  pose proof (Z.mod_pos_bound (Position.y b) _ Hh) as Hby.
  pose proof (Z.mod_pos_bound (Position.y c) _ Hh) as Hcy.
  unfold calculate_distance, normalize, pos_abs, pos_sub; simpl. split.
  - pose proof (wrap_delta_triangle (width m) _ _ _ Hax Hbx Hcx).
    pose proof (wrap_delta_triangle (height m) _ _ _ Hay Hby Hcy).
    lia.
  - pose proof (Z.div_mod (width m) 2 ltac:(lia)).
    pose proof (Z.mod_pos_bound (width m) 2 ltac:(lia)).
    pose proof (Z.div_mod (height m) 2 ltac:(lia)).
    pose proof (Z.mod_pos_bound (height m) 2 ltac:(lia)).
    lia.
Qed.

Lemma calculate_distance_metric_witness :
  calculate_distance (uniform_map 5 5 0) (Position.mk 0 0) (Position.mk 3 3) <= 4.
Proof.
  exact (proj2 (proj2 (proj2
           (calculate_distance_metric (uniform_map 5 5 0)
              (Position.mk 0 0) (Position.mk 3 3) (Position.mk 0 0)
              ltac:(simpl; lia) ltac:(simpl; lia))))).
Defined.

(** ** Walking along the candidate directions *)

Lemma get_unsafe_moves_nil_iff (m : GameMap) (a b : Position) :
  0 < width m -> 0 < height m ->
  get_unsafe_moves m a b = [] <-> normalize m a = normalize m b.
Proof.
  intros Hw Hh. rewrite get_unsafe_moves_axes. simpl. unfold axis_choice, normalize.
  destruct (Z.eqb_spec (Z.abs (Position.x b mod width m - Position.x a mod width m)) 0) as [Ex|Ex];
  destruct (Z.eqb_spec (Z.abs (Position.y b mod height m - Position.y a mod height m)) 0) as [Ey|Ey];
    simpl; split; intros E;
    first [discriminate | reflexivity | (f_equal; lia)
          | (exfalso; injection E as E1 E2; lia)].
Qed.

(** X5. [get_unsafe_moves] returns the empty list exactly when source and
    destination are coordinates of the same cell, and it only looks at the
    cells: two sources (or destinations) of the same cell give the same
    list. *)
Theorem get_unsafe_moves_same_cell (m : GameMap) (a b : Position) :
  0 < width m -> 0 < height m ->
  (get_unsafe_moves m a b = [] <-> normalize m a = normalize m b) ∧
  (get_unsafe_moves m a b = [] <-> calculate_distance m a b = 0) ∧
  get_unsafe_moves m (normalize m a) b = get_unsafe_moves m a b ∧
  get_unsafe_moves m a (normalize m b) = get_unsafe_moves m a b.
Proof.
  intros Hw Hh.
  split; [apply get_unsafe_moves_nil_iff; assumption|].
  split; [rewrite calculate_distance_zero_iff by assumption;
          apply get_unsafe_moves_nil_iff; assumption|].
  unfold get_unsafe_moves. rewrite !normalize_idempotent by assumption.
  split; reflexivity.
Qed.

Lemma get_unsafe_moves_same_cell_witness :
  get_unsafe_moves (uniform_map 5 5 0) (Position.mk 7 (-2)) (Position.mk 2 3) = [].
Proof.
  exact (proj2 (proj1 (get_unsafe_moves_same_cell (uniform_map 5 5 0)
                         (Position.mk 7 (-2)) (Position.mk 2 3)
                         ltac:(simpl; lia) ltac:(simpl; lia)))
               eq_refl).
Defined.

Lemma unsafe_walk_distance (m : GameMap) (b a c : Position) (n : nat) :
  0 < width m -> 0 < height m ->
  unsafe_walk m b a n c ->
  calculate_distance m c b = calculate_distance m a b - Z.of_nat n.
Proof.
  intros Hw Hh Hwalk. induction Hwalk as [a | a d n c Hd Hwalk IH].
  - simpl. lia.
  - rewrite IH, calculate_distance_normalize_l by assumption.
    rewrite (get_unsafe_moves_closer m a b d Hw Hh Hd). lia.
Qed.

Lemma unsafe_walk_exists (m : GameMap) (b : Position) (n : nat) :
  0 < width m -> 0 < height m ->
  forall a, calculate_distance m a b = Z.of_nat n ->
  exists c, unsafe_walk m b a n c.
Proof.
  intros Hw Hh. induction n as [|n IH]; intros a Hd.
  - exists a. constructor.
  - destruct (get_unsafe_moves m a b) as [|o l] eqn:E.
    + apply get_unsafe_moves_nil_iff in E; [|assumption..].
      apply calculate_distance_zero_iff in E; [|assumption..]. lia.
    + destruct (get_unsafe_moves_cardinal m a b o) as (d & -> & _);
        [rewrite E; constructor|].
      assert (Hin : Some d ∈ get_unsafe_moves m a b) by (rewrite E; constructor).
      destruct (IH (normalize m (directional_offset a d))) as [c Hc].
      * rewrite calculate_distance_normalize_l by assumption.
        rewrite (get_unsafe_moves_closer m a b d Hw Hh Hin). lia.
      * exists c. econstructor; eassumption.
Qed.

(** X6. Whichever of the directions that [get_unsafe_moves] offers is
    taken at each step, a walk towards a destination is one step closer
    to it after every step: after [n] steps the toroidal distance has
    dropped by exactly [n].  So no such walk is longer than the distance,
    a walk of that length ends on the destination's cell, and from every
    source there is one. *)
Theorem unsafe_walk_reaches (m : GameMap) (a b : Position) :
  0 < width m -> 0 < height m ->
  (forall n c, unsafe_walk m b a n c ->
     calculate_distance m c b = calculate_distance m a b - Z.of_nat n ∧
     Z.of_nat n <= calculate_distance m a b ∧
     (Z.of_nat n = calculate_distance m a b -> normalize m c = normalize m b)) ∧
  (exists c, unsafe_walk m b a (Z.to_nat (calculate_distance m a b)) c).
Proof.
  intros Hw Hh. split.
  - intros n c Hwalk.
    pose proof (unsafe_walk_distance m b a c n Hw Hh Hwalk) as Hd.
    pose proof (calculate_distance_nonneg m c b Hw Hh).
    split; [exact Hd|]. split; [lia|].
    intros E. apply calculate_distance_zero_iff; [assumption..|]. lia.
  - apply unsafe_walk_exists; [assumption..|].
    pose proof (calculate_distance_nonneg m a b Hw Hh). lia.
Qed.

Lemma unsafe_walk_reaches_witness :
  exists c,
    unsafe_walk (uniform_map 5 5 0) (Position.mk 4 4) (Position.mk 0 0) 2 c.
Proof.
  exact (proj2 (unsafe_walk_reaches (uniform_map 5 5 0)
                  (Position.mk 0 0) (Position.mk 4 4)
                  ltac:(simpl; lia) ltac:(simpl; lia))).
Defined.

(** ** The per-turn update, cell by cell *)

Lemma normalize_same_extent (m m' : GameMap) (p : Position) :
  width m' = width m -> height m' = height m -> normalize m' p = normalize m p.
Proof. intros Hw Hh. unfold normalize. rewrite Hw, Hh. reflexivity. Qed.

Lemma setattr_cell_fold (f : MapCell -> MapCell) (ps : list Position) :
  (forall c, f (f c) = f c) ->
  forall m, wf_map m ->
  exists m',
    foldl (fun acc p => m ← acc; setattr_cell f m p) (Some m) ps = Some m' ∧
    wf_map m' ∧ width m' = width m ∧ height m' = height m ∧
    forall q, getitem m' q =
      if decide (Exists (fun p => normalize m q = normalize m p) ps)
      then f <$> getitem m q else getitem m q.
Proof.
  intros Hf. induction ps as [|p ps IH]; intros m Hwf; cbn [foldl].
  - exists m. do 4 (split; [auto|]). intros q.
    rewrite decide_False; [reflexivity|]. intros HE. inversion HE.
  - destruct (setattr_cell_wf f m p Hwf) as (m1 & E1 & Hwf1 & Hw1 & Hh1 & Hget1).
    cbn [mbind option_bind]. rewrite E1. destruct (IH m1 Hwf1) as (m' & E' & Hwf' & Hw' & Hh' & Hget').
    exists m'. split; [exact E'|]. split; [exact Hwf'|].
    split; [congruence|]. split; [congruence|].
    intros q. rewrite Hget', Hget1.
    assert (Hiff : Exists (fun p0 => normalize m1 q = normalize m1 p0) ps <->
                   Exists (fun p0 => normalize m q = normalize m p0) ps).
    { rewrite !Exists_exists.
      split; intros (p0 & Hin & E0); exists p0; (split; [exact Hin|]);
        rewrite !(normalize_same_extent m m1) in * by assumption; exact E0. }
    destruct (decide (normalize m q = normalize m p)) as [Eq | Nq].
    + rewrite (decide_True (P := Exists _ (p :: ps))) by (constructor; exact Eq).
      case_decide.
      * destruct (getitem m q); simpl; [rewrite Hf|]; reflexivity.
      * reflexivity.
    + case_decide as H1.
      * rewrite decide_True; [reflexivity|]. apply Exists_cons_tl, Hiff, H1.
      * rewrite decide_False; [reflexivity|]. intros HE.
        apply Exists_cons in HE as [HE | HE]; [contradiction|].
        apply H1, Hiff, HE.
Qed.

Lemma clear_ships_spec (m : GameMap) :
  wf_map m ->
  exists m',
    foldl (fun acc p => m ← acc; setattr_cell (set_ship None) m p) (Some m)
          (all_positions m) = Some m' ∧
    wf_map m' ∧ width m' = width m ∧ height m' = height m ∧
    forall q, getitem m' q = set_ship None <$> getitem m q.
Proof.
  intros Hwf. pose proof Hwf as (Hw & Hh & _).
  destruct (setattr_cell_fold (set_ship None) (all_positions m)
              ltac:(intros []; reflexivity) m Hwf)
    as (m' & E & Hwf' & Hw' & Hh' & Hget).
  exists m'. do 4 (split; [assumption|]). intros q.
  rewrite Hget, decide_True; [reflexivity|].
  apply Exists_exists. exists (normalize m q).
  split; [apply elem_of_all_positions, normalize_normalized; assumption|].
  symmetry. apply normalize_idempotent; assumption.
Qed.

Lemma apply_feed_snoc (m : GameMap) (feed : list (Z * Z * Z)) (line : Z * Z * Z) :
  apply_feed m (feed ++ [line]) = m' ← apply_feed m feed; apply_resource_update m' line.
Proof. unfold apply_feed. rewrite foldl_app. reflexivity. Qed.

Lemma apply_feed_spec (m : GameMap) (feed : list (Z * Z * Z)) :
  wf_map m ->
  exists m',
    apply_feed m feed = Some m' ∧ wf_map m' ∧
    width m' = width m ∧ height m' = height m ∧
    (forall q c, getitem m q = Some c ->
       exists c', getitem m' q = Some c' ∧ same_but_amount c c') ∧
    (forall q, Forall (fun line => addressed m line ≠ normalize m q) feed ->
       getitem m' q = getitem m q) ∧
    (forall pre x y e post,
       feed = pre ++ (x, y, e) :: post ->
       Forall (fun line => addressed m line ≠ addressed m (x, y, e)) post ->
       exists c, getitem m' (Position.mk x y) = Some c ∧ halite_amount c = e).
Proof.
  intros Hwf. induction feed as [|line feed IH] using rev_ind.
  - exists m. do 4 (split; [auto|]). split; [|split].
    + intros q c Hc. exists c. split; [exact Hc|]. repeat split.
    + reflexivity.
    + intros pre x y e post E. destruct pre; discriminate.
  - destruct IH as (m1 & E1 & Hwf1 & Hw1 & Hh1 & Hsame & Hkeep & Hlast).
    rewrite apply_feed_snoc, E1. simpl. destruct line as [[lx ly] le].
    destruct (apply_resource_update_spec m1 lx ly le Hwf1)
      as (m' & E & Hwf' & Hw' & Hh' & (c0 & Hc0 & Hc0') & Hother).
    exists m'. split; [exact E|]. split; [exact Hwf'|].
    split; [congruence|]. split; [congruence|].
    assert (Hnorm : forall p, normalize m1 p = normalize m p)
      by (intros p; apply normalize_same_extent; assumption).
    assert (Hcase : forall q,
      normalize m q = addressed m (lx, ly, le) ∧
        getitem m' q = Some (set_halite_amount le c0) ∧ getitem m1 q = Some c0
      ∨ normalize m q ≠ addressed m (lx, ly, le) ∧ getitem m' q = getitem m1 q).
    { intros q. unfold addressed; simpl.
      destruct (decide (normalize m q = normalize m (Position.mk lx ly))) as [Eq | Nq].
      - left. split; [exact Eq|].
        assert (Hq : getitem m' q = getitem m' (Position.mk lx ly) ∧
                     getitem m1 q = getitem m1 (Position.mk lx ly)).
        { unfold getitem.
          rewrite !(normalize_same_extent m m') by congruence.
          rewrite !Hnorm, Eq. split; reflexivity. }
        destruct Hq as [-> ->]. split; assumption.
      - right. split; [exact Nq|]. apply Hother. rewrite !Hnorm. exact Nq. }
    split; [|split].
    + intros q c Hc. destruct (Hsame q c Hc) as (c1 & Hc1 & S1).
      destruct (Hcase q) as [(_ & Hq' & Hq1) | (_ & Hq')].
      * exists (set_halite_amount le c0). split; [exact Hq'|].
        assert (c1 = c0) by congruence. subst c1. exact S1.
      * exists c1. split; [congruence | exact S1].
    + intros q Hall. apply Forall_app in Hall as [Hall Hline].
      pose proof (Forall_inv Hline) as Hl. simpl in Hl.
      destruct (Hcase q) as [(Eq & _) | (_ & Hq')];
        [exfalso; apply Hl; symmetry; exact Eq|].
      rewrite Hq'. apply Hkeep, Hall.
    + intros pre x y e post Efeed Hpost.
      destruct post as [|l0 post0] using rev_ind.
      * apply app_inj_tail in Efeed as [_ Eline]. injection Eline as -> -> ->.
        eexists. split; [exact Hc0' | reflexivity].
      * clear IHpost0.
        replace (pre ++ (x, y, e) :: post0 ++ [l0])
          with ((pre ++ (x, y, e) :: post0) ++ [l0]) in Efeed
          by (rewrite <- app_assoc; reflexivity).
        apply app_inj_tail in Efeed as [Efeed <-].
        apply Forall_app in Hpost as [Hpost Hl0].
        pose proof (Forall_inv Hl0) as Hl. simpl in Hl.
        destruct (Hlast pre x y e post0 Efeed Hpost) as (c & Hc & Hamount).
        exists c. split; [|exact Hamount].
        destruct (Hcase (Position.mk x y)) as [(Eq & _) | (_ & Hq')];
          [|congruence].
        exfalso. apply Hl. symmetry. exact Eq.
Qed.

Lemma _update_as_feed (m : GameMap) (feed : list (Z * Z * Z)) :
  _update m feed =
    m1 ← foldl (fun acc p => m ← acc; setattr_cell (set_ship None) m p) (Some m)
               (all_positions m);
    apply_feed m1 feed.
Proof. reflexivity. Qed.

Lemma _update_spec (m : GameMap) (feed : list (Z * Z * Z)) :
  wf_map m ->
  exists m1 m',
    foldl (fun acc p => m ← acc; setattr_cell (set_ship None) m p) (Some m)
          (all_positions m) = Some m1 ∧
    apply_feed m1 feed = Some m' ∧ _update m feed = Some m' ∧
    wf_map m1 ∧ width m1 = width m ∧ height m1 = height m ∧
    (forall q, getitem m1 q = set_ship None <$> getitem m q).
Proof.
  intros Hwf.
  destruct (clear_ships_spec m Hwf) as (m1 & E1 & Hwf1 & Hw1 & Hh1 & Hget1).
  destruct (apply_feed_spec m1 feed Hwf1) as (m' & E' & _).
  exists m1, m'. rewrite _update_as_feed, E1. simpl. auto 10.
Qed.

(** X7. On a well-formed grid [_update] returns a grid of the same extent
    on which no cell holds a ship, whatever ships the cells held before
    and whatever the feed says; every cell keeps its position, its
    structure and its potential, and a cell that no line of the feed
    addresses keeps its amount. *)
Theorem update_clears_occupancy (m : GameMap) (feed : list (Z * Z * Z)) :
  wf_map m ->
  exists m',
    _update m feed = Some m' ∧ wf_map m' ∧
    width m' = width m ∧ height m' = height m ∧
    forall q c, getitem m q = Some c ->
      exists c',
        getitem m' q = Some c' ∧
        ship c' = None ∧ is_occupied c' = false ∧
        position c' = position c ∧ structure c' = structure c ∧
        potential c' = potential c ∧
        (Forall (fun line => addressed m line ≠ normalize m q) feed ->
         halite_amount c' = halite_amount c).
Proof.
  intros Hwf.
  destruct (_update_spec m feed Hwf) as (m1 & m' & _ & E' & E & Hwf1 & Hw1 & Hh1 & Hget1).
  destruct (apply_feed_spec m1 feed Hwf1)
    as (m2 & E2 & Hwf' & Hw' & Hh' & Hsame & Hkeep & _).
  assert (m2 = m') by congruence. subst m2.
  exists m'. split; [exact E|]. split; [exact Hwf'|].
  split; [congruence|]. split; [congruence|].
  intros q c Hc.
  assert (Hc1 : getitem m1 q = Some (set_ship None c)) by (rewrite Hget1, Hc; reflexivity).
  destruct (Hsame q _ Hc1) as (c' & Hc' & Hpos & Hship & Hstruct & Hpot).
  exists c'. split; [exact Hc'|]. simpl in *.
  split; [exact Hship|]. split; [unfold is_occupied; rewrite Hship; reflexivity|].
  split; [exact Hpos|]. split; [exact Hstruct|]. split; [exact Hpot|].
  intros Hall. rewrite Hkeep in Hc'.
  - rewrite Hc1 in Hc'. injection Hc' as <-. reflexivity.
  - eapply Forall_impl; [exact Hall|]. intros line Hline. unfold addressed in *.
    rewrite !(normalize_same_extent m m1) by assumption. exact Hline.
Qed.

Lemma update_clears_occupancy_witness :
  exists m',
    _update (with_ship (uniform_map 2 2 5) (Position.mk 1 1)
               (mkEntity 0 7 (Position.mk 1 1) 0)) [(0, 0, 9)] = Some m' ∧
    is_occupied <$> getitem m' (Position.mk 1 1) = Some false.
Proof.
  set (m := with_ship (uniform_map 2 2 5) (Position.mk 1 1)
              (mkEntity 0 7 (Position.mk 1 1) 0)).
  destruct (update_clears_occupancy m [(0, 0, 9)] ltac:(solve_wf_map))
    as (m' & E & _ & _ & _ & Hcells).
  destruct (Hcells (Position.mk 1 1)
              (mkMapCell (Position.mk 1 1) 5 (Some (mkEntity 0 7 (Position.mk 1 1) 0)) None 0)
              eq_refl) as (c' & Hc' & _ & Hocc & _).
  exists m'. split; [exact E|]. rewrite Hc'. simpl. rewrite Hocc. reflexivity.
Defined.

(** X8. The feed is applied in order and the last line for a cell wins:
    when no later line addresses the cell of the line [(x, y, amount)],
    the grid that [_update] returns holds [amount] there. *)
Theorem update_last_line_wins (m : GameMap) (pre post : list (Z * Z * Z))
    (x y e : Z) :
  wf_map m ->
  Forall (fun line => addressed m line ≠ addressed m (x, y, e)) post ->
  exists m' c,
    _update m (pre ++ (x, y, e) :: post) = Some m' ∧
    getitem m' (Position.mk x y) = Some c ∧ halite_amount c = e.
Proof.
  intros Hwf Hpost.
  destruct (_update_spec m (pre ++ (x, y, e) :: post) Hwf)
    as (m1 & m' & _ & E' & E & Hwf1 & Hw1 & Hh1 & _).
  destruct (apply_feed_spec m1 (pre ++ (x, y, e) :: post) Hwf1)
    as (m2 & E2 & _ & _ & _ & _ & _ & Hlast).
  assert (m2 = m') by congruence. subst m2.
  destruct (Hlast pre x y e post eq_refl) as (c & Hc & Hamount).
  - eapply Forall_impl; [exact Hpost|]. intros line Hline. unfold addressed in *.
    rewrite !(normalize_same_extent m m1) by assumption. exact Hline.
  - exists m', c. auto.
Qed.

Lemma update_last_line_wins_witness :
  exists m' c,
    _update (uniform_map 2 2 5) ([(0, 0, 1)] ++ (0, 0, 2) :: [(1, 0, 3)]) = Some m' ∧
    getitem m' (Position.mk 0 0) = Some c ∧ halite_amount c = 2.
Proof.
  apply (update_last_line_wins (uniform_map 2 2 5) [(0, 0, 1)] [(1, 0, 3)] 0 0 2
           ltac:(solve_wf_map)).
  repeat constructor. vm_compute. discriminate.
Defined.

(** X9. A line of the feed whose coordinates lie outside the grid is not
    turned away: it is applied to the cell the coordinates wrap onto.
    [_update] returns the same grid for a feed that ends in
    [(x + k * width, y + l * height, amount)] as for one that ends in
    [(x, y, amount)], and that grid holds [amount] on the cell of
    [(x, y)]. *)
Theorem update_wraps_coordinates (m : GameMap) (feed : list (Z * Z * Z))
    (x y e k l : Z) :
  wf_map m ->
  _update m (feed ++ [(x + k * width m, y + l * height m, e)])
    = _update m (feed ++ [(x, y, e)]) ∧
  exists m' c,
    _update m (feed ++ [(x + k * width m, y + l * height m, e)]) = Some m' ∧
    getitem m' (normalize m (Position.mk x y)) = Some c ∧ halite_amount c = e.
Proof.
  intros Hwf.
  assert (Heq : _update m (feed ++ [(x + k * width m, y + l * height m, e)])
                = _update m (feed ++ [(x, y, e)])).
  { rewrite !_update_snoc.
    destruct (_update_returns m feed Hwf) as (m1 & -> & _ & Hw1 & Hh1). simpl.
    unfold setattr_cell, getitem, normalize. simpl.
    rewrite <- Hw1, <- Hh1, !Z_mod_plus_full. reflexivity. }
  split; [exact Heq|]. rewrite Heq, _update_snoc.
  destruct (_update_returns m feed Hwf) as (m1 & -> & Hwf1 & Hw1 & Hh1). simpl.
  destruct (apply_resource_update_spec m1 x y e Hwf1)
    as (m' & E & _ & Hw' & Hh' & (c0 & _ & Hc) & _).
  exists m', (set_halite_amount e c0). split; [exact E|]. split; [|reflexivity].
  unfold getitem in *.
  rewrite (normalize_same_extent m m') in * by congruence.
  rewrite normalize_idempotent by (destruct Hwf as (? & ? & _); assumption).
  exact Hc.
Qed.

Lemma update_wraps_coordinates_witness :
  exists m' c,
    _update (uniform_map 2 2 5) ([] ++ [(1 + 3 * 2, 0 + -1 * 2, 9)]) = Some m' ∧
    getitem m' (Position.mk 1 0) = Some c ∧ halite_amount c = 9.
Proof.
  exact (proj2 (update_wraps_coordinates (uniform_map 2 2 5) [] 1 0 9 3 (-1)
                  ltac:(solve_wf_map))).
Defined.

(** ** Reading the grid *)

Lemma mapM_seqZ_lookup {B : Type} (g : Z -> option B) (n : Z) (k : list B) :
  mapM g (seqZ 0 n) = Some k ->
  length k = Z.to_nat n ∧
  forall i : nat, Z.of_nat i < n -> exists v, k !! i = Some v ∧ g (Z.of_nat i) = Some v.
Proof.
  intros E. split.
  - rewrite <- (length_mapM _ _ _ E). apply length_seqZ.
  - intros i Hi. apply mapM_Some_1 in E.
    destruct (Forall2_lookup_l _ _ _ i (Z.of_nat i) E) as (v & Hv & Hg).
    + rewrite lookup_seqZ_lt by exact Hi. reflexivity.
    + exists v. auto.
Qed.


Lemma mapM_seqZ_is_Some {B : Type} (g : Z -> option B) (n : Z) :
  is_Some (mapM g (seqZ 0 n)) <->
  forall i : nat, Z.of_nat i < n -> is_Some (g (Z.of_nat i)).
Proof.
  rewrite mapM_is_Some, Forall_forall. split.
  - intros H i Hi. apply (H (Z.of_nat i)). apply elem_of_seqZ. lia.
  - intros H z Hz. apply elem_of_seqZ in Hz.
    replace z with (Z.of_nat (Z.to_nat z)) by lia. apply H. lia.
Qed.

Lemma _generate_rows (map_width map_height : Z) (lines : list (list Z)) :
  _generate map_width map_height lines =
    game_map ← mapM (generate_row map_width lines) (seqZ 0 map_height);
    Some (mkGameMap map_width map_height game_map).
Proof. reflexivity. Qed.

Lemma generate_row_is_Some (map_width : Z) (lines : list (list Z)) (y : nat) :
  is_Some (generate_row map_width lines (Z.of_nat y)) <->
  exists cells, lines !! y = Some cells ∧ (Z.to_nat map_width <= length cells)%nat.
Proof.
  unfold generate_row. rewrite Nat2Z.id.
  destruct (lines !! y) as [cells|]; simpl.
  - rewrite mapM_seqZ_is_Some. split.
    + intros H. exists cells. split; [reflexivity|].
      destruct (Nat.le_gt_cases (Z.to_nat map_width) (length cells)) as [|Hlt];
        [assumption|].
      destruct (H (length cells) ltac:(lia)) as [c Hc].
      unfold generate_cell in Hc. rewrite Nat2Z.id in Hc.
      rewrite (lookup_ge_None_2 cells (length cells)) in Hc by lia. discriminate.
    + intros (cells' & E & Hlen) i Hi. injection E as <-.
      unfold generate_cell. rewrite Nat2Z.id.
      destruct (lookup_lt_is_Some_2 cells i ltac:(lia)) as [a ->]. simpl. eauto.
  - split; [intros [? ?]; discriminate | intros (? & ? & _); discriminate].
Qed.

(** X10. [_generate] builds the grid it is given: when every one of the
    [map_height] lines is there and holds at least [map_width] amounts
    (with both extents positive), it returns a well-formed grid of that
    width and height on which the cell at [(x, y)] holds the [x]-th amount
    of line [y], knows its own position, and has no ship and no
    structure. *)
Theorem generate_round_trip (map_width map_height : Z) (lines : list (list Z)) :
  0 < map_width -> 0 < map_height ->
  (forall y : nat, Z.of_nat y < map_height ->
     exists cells, lines !! y = Some cells ∧ (Z.to_nat map_width <= length cells)%nat) ->
  exists m,
    _generate map_width map_height lines = Some m ∧
    wf_map m ∧ width m = map_width ∧ height m = map_height ∧
    forall x y, 0 <= x < map_width -> 0 <= y < map_height ->
      exists cells amount,
        lines !! Z.to_nat y = Some cells ∧ cells !! Z.to_nat x = Some amount ∧
        getitem m (Position.mk x y)
          = Some (mkMapCell (Position.mk x y) amount None None 0).
Proof.
  intros Hw Hh Hlines. rewrite _generate_rows.
  destruct (proj2 (mapM_seqZ_is_Some (generate_row map_width lines) map_height))
    as [rows Hrows].
  { intros y Hy. apply generate_row_is_Some, Hlines, Hy. }
  rewrite Hrows. simpl. eexists. split; [reflexivity|].
  destruct (mapM_seqZ_lookup _ _ _ Hrows) as [Hlen Hrow].
  assert (Hcells : forall y : nat, Z.of_nat y < map_height ->
            exists row cells, rows !! y = Some row ∧ lines !! y = Some cells ∧
              length row = Z.to_nat map_width ∧
              forall x : nat, Z.of_nat x < map_width ->
                exists a, cells !! x = Some a ∧
                  row !! x = Some (mkMapCell (Position.mk (Z.of_nat x) (Z.of_nat y)) a None None 0)).
  { intros y Hy. destruct (Hrow y Hy) as (row & Hr & Hg).
    unfold generate_row in Hg. rewrite Nat2Z.id in Hg.
    destruct (lines !! y) as [cells|]; simpl in Hg; [|discriminate].
    destruct (mapM_seqZ_lookup _ _ _ Hg) as [Hrl Hcell].
    exists row, cells. do 3 (split; [auto|]).
    intros x Hx. destruct (Hcell x Hx) as (c & Hc & Hgc).
    unfold generate_cell in Hgc. rewrite Nat2Z.id in Hgc.
    destruct (cells !! x) as [a|]; simpl in Hgc; [|discriminate].
    injection Hgc as <-. exists a. auto. }
  split; [|split; [reflexivity|split; [reflexivity|]]].
  - unfold wf_map; simpl. do 3 (split; [assumption|]).
    apply Forall_forall. intros row Hin.
    apply list_elem_of_lookup in Hin as [y Hy].
    pose proof (lookup_lt_Some _ _ _ Hy) as Hlt.
    destruct (Hcells y ltac:(lia)) as (row' & cells & Hr & _ & Hl & _).
    congruence.
  - intros x y Hx Hy.
    destruct (Hcells (Z.to_nat y) ltac:(lia)) as (row & cells & Hr & Hc & _ & Hcell).
    destruct (Hcell (Z.to_nat x) ltac:(lia)) as (a & Ha & Hra).
    exists cells, a. split; [exact Hc|]. split; [exact Ha|].
    unfold getitem, normalize. simpl. rewrite !Z.mod_small by lia.
    rewrite Hr. simpl. rewrite Hra, !Z2Nat.id by lia. reflexivity.
Qed.

Lemma generate_round_trip_witness :
  exists m,
    _generate 2 2 [[1; 2; 9]; [3; 4]] = Some m ∧
    getitem m (Position.mk 1 0) = Some (mkMapCell (Position.mk 1 0) 2 None None 0).
Proof.
  destruct (generate_round_trip 2 2 [[1; 2; 9]; [3; 4]] ltac:(lia) ltac:(lia))
    as (m & E & _ & _ & _ & Hcell).
  - intros [|[|y]] Hy; simpl; try lia; eexists; (split; [reflexivity | simpl; lia]).
  - exists m. split; [exact E|].
    destruct (Hcell 1 0 ltac:(lia) ltac:(lia)) as (cells & a & Hc & Ha & Hg).
    simpl in Hc. injection Hc as <-. simpl in Ha. injection Ha as <-. exact Hg.
Defined.



(** ** Cheapest routes *)

Lemma nonnegative_halite_at (m : GameMap) (p : Position) :
  wf_map m -> nonnegative m -> 0 <= halite_at m p.
Proof.
  intros Hwf Hn. unfold halite_at.
  destruct (getitem_wf m p Hwf) as [cell Hcell]. rewrite Hcell.
  unfold getitem in Hcell.
  destruct (_cells m !! _) as [row|] eqn:Hrow; simpl in Hcell; [|discriminate].
  unfold nonnegative in Hn. rewrite Forall_forall in Hn.
  specialize (Hn row ltac:(eapply list_elem_of_lookup_2; eassumption)).
  rewrite Forall_forall in Hn. apply Hn.
  eapply list_elem_of_lookup_2; eassumption.
Qed.

Lemma relax_entry_step (m : GameMap) (k : Q) (p : Position) (d : Direction) :
  wf_map m -> nonnegative m ->
  (k + 50 <= (relax_entry m k p d).1)%Q.
Proof.
  intros Hwf Hn. unfold relax_entry; simpl.
  pose proof (nonnegative_halite_at m (normalize m (directional_offset p d)) Hwf Hn) as H.
  assert (0 <= inject_Z (halite_at m (normalize m (directional_offset p d))) / 10)%Q.
  { apply Qle_shift_div_l; [reflexivity|]. rewrite Qmult_0_l.
    change 0%Q with (inject_Z 0). rewrite <- Zle_Qle. exact H. }
  lra.
Qed.

Lemma route_cost_normalized (m : GameMap) (b p : Position) (k : Q) :
  wf_map m -> normalized m b -> route_cost m b p k -> normalized m p.
Proof.
  intros (Hw & Hh & _) Hb Hr. destruct Hr; [exact Hb|].
  simpl. apply normalize_normalized; assumption.
Qed.

Lemma route_cost_exists (m : GameMap) (b p : Position) :
  wf_map m -> normalized m b -> normalized m p -> exists k, route_cost m b p k.
Proof.
  intros Hwf Hb. pose proof Hwf as (Hw & Hh & _).
  assert (Hind : forall n p, Z.to_nat (calculate_distance m b p) = n ->
            normalized m p -> exists k, route_cost m b p k).
  { induction n as [n IH] using lt_wf_ind. intros p0 Hn Hp.
    pose proof (calculate_distance_nonneg m b p0 Hw Hh).
    destruct (Z.eq_dec (calculate_distance m b p0) 0) as [E0 | E0].
    - assert (b = p0) by (apply (calculate_distance_zero m); assumption).
      subst p0. exists 0%Q. constructor.
    - destruct (calculate_distance_pred m b p0 Hw Hh Hp ltac:(lia))
        as (v & d & Hv & Hd & Hvp & Hdist).
      destruct (IH (Z.to_nat (calculate_distance m b v)) ltac:(lia) v eq_refl Hv)
        as [k Hk].
      exists (relax_entry m k v d).1.
      replace p0 with (relax_entry m k v d).2 by exact Hvp.
      constructor; assumption. }
  intros Hp. apply (Hind _ p eq_refl Hp).
Qed.

Section Cheapest.
Context {po : PositionOrder}.
Variables (m : GameMap) (b : Position).
Hypothesis Hwf : wf_map m.
Hypothesis Hb : normalized m b.
Hypothesis Hnonneg : nonnegative m.

Lemma cheapest_inv_init : cheapest_inv m b [(0%Q, b)] ∅.
Proof.
  split; [|split; [|split]].
  - intros k p Hin. apply list_elem_of_singleton in Hin. injection Hin as -> ->.
    constructor.
  - intros p k Hk. rewrite lookup_empty in Hk. discriminate.
  - intros p k d Hk. rewrite lookup_empty in Hk. discriminate.
  - right. constructor.
Qed.

(** Whatever route there is to a coordinate, the coordinate is finalized
    at no more than its cost or something no dearer is waiting. *)
Lemma cheapest_inv_pending (q : list (Q * Position)) (cm : gmap Position Q) :
  cheapest_inv m b q cm ->
  forall u k', route_cost m b u k' ->
    (exists c, cm !! u = Some c ∧ (c <= k')%Q) ∨
    (exists c v, (c, v) ∈ q ∧ (c <= k')%Q).
Proof.
  intros (I1 & I2 & I3 & I4) u k' Hr.
  induction Hr as [|p k d Hr IH Hd].
  - destruct I4 as [[c Hc] | Hin].
    + left. exists c. split; [exact Hc|]. apply (I2 b c Hc). constructor.
    + right. exists 0%Q, b. split; [exact Hin | apply Qle_refl].
  - pose proof (relax_entry_step m k p d Hwf Hnonneg) as Hstep.
    destruct IH as [(c & Hc & Hle) | (c & v & Hin & Hle)].
    + destruct (I3 p c d Hc Hd) as [[cn Hcn] | Hin].
      * left. exists cn. change (relax_entry m c p d).2 with (relax_entry m k p d).2 in Hcn.
        split; [exact Hcn|]. apply (I2 _ cn Hcn). constructor; assumption.
      * right. exists (relax_entry m c p d).1, (relax_entry m c p d).2.
        split; [destruct (relax_entry m c p d); exact Hin|].
        unfold relax_entry; simpl. lra.
    + right. exists c, v. split; [exact Hin|]. lra.
Qed.

Lemma cheapest_inv_step (q : list (Q * Position)) (cm : gmap Position Q)
    (cost : Q) (p : Position) (r : list (Q * Position)) :
  cheapest_inv m b q cm ->
  heappop Qcompare q = Some ((cost, p), r) ->
  match cm !! p with
  | Some _ => cheapest_inv m b r cm
  | None => cheapest_inv m b (relaxed m cost p r) (<[p := cost]> cm)
  end.
Proof.
  intros HI Epop. pose proof HI as (I1 & I2 & I3 & I4).
  pose proof (fun x => heappop_elem_of _ _ _ _ x Epop) as Hmem.
  assert (Hin : (cost, p) ∈ q) by (apply Hmem; auto).
  destruct (cm !! p) as [c|] eqn:Ecm.
  - split; [|split; [|split]].
    + intros k p' Hk. apply I1, Hmem. auto.
    + exact I2.
    + intros p' k d Hk Hd. destruct (I3 p' k d Hk Hd) as [Hl | Hq]; [auto|].
      apply Hmem in Hq as [Hq | Hq]; [|auto].
      left. rewrite Hq. simpl. rewrite Ecm. eauto.
    + destruct I4 as [Hl | Hq]; [auto|].
      apply Hmem in Hq as [Hq | Hq]; [|auto].
      left. injection Hq as _ ->. rewrite Ecm. eauto.
  - assert (Hbest : forall k', route_cost m b p k' -> (cost <= k')%Q).
    { intros k' Hr.
      destruct (cheapest_inv_pending q cm HI p k' Hr)
        as [(c & Hc & _) | (c & v & Hcv & Hle)]; [congruence|].
      pose proof (heappop_cost_least q cost p r Epop c v Hcv). lra. }
    split; [|split; [|split]].
    + intros k p' Hk. apply elem_of_relaxed in Hk as [(d & Hd & E) | Hk].
      * replace k with (relax_entry m cost p d).1 by (rewrite <- E; reflexivity).
        replace p' with (relax_entry m cost p d).2 by (rewrite <- E; reflexivity).
        constructor; [apply I1, Hin | exact Hd].
      * apply I1, Hmem. auto.
    + intros p' k. destruct (decide (p' = p)) as [-> | Hne].
      * rewrite lookup_insert_eq. intros E. injection E as <-.
        split; [apply I1, Hin | exact Hbest].
      * rewrite lookup_insert_ne by congruence. apply I2.
    + intros p' k d Hk Hd. rewrite is_Some_insert.
      destruct (decide (p' = p)) as [-> | Hne].
      * rewrite lookup_insert_eq in Hk. injection Hk as <-.
        right. apply elem_of_relaxed. left. exists d. auto.
      * rewrite lookup_insert_ne in Hk by congruence.
        destruct (I3 p' k d Hk Hd) as [Hl | Hq]; [auto|].
        apply Hmem in Hq as [Hq | Hq].
        -- left. left. rewrite Hq. reflexivity.
        -- right. apply elem_of_relaxed. auto.
    + rewrite is_Some_insert. destruct I4 as [Hl | Hq]; [auto|].
      apply Hmem in Hq as [Hq | Hq].
      * left. left. injection Hq as _ ->. reflexivity.
      * right. apply elem_of_relaxed. auto.
Qed.

Lemma cheapest_inv_done (cm : gmap Position Q) :
  cheapest_inv m b [] cm ->
  forall p, normalized m p ->
    exists k, cm !! p = Some k ∧ route_cost m b p k ∧
      forall k', route_cost m b p k' -> (k <= k')%Q.
Proof.
  intros HI p Hp. destruct (route_cost_exists m b p Hwf Hb Hp) as [k0 Hr].
  destruct (cheapest_inv_pending [] cm HI p k0 Hr)
    as [(c & Hc & _) | (c & v & Hcv & _)].
  - exists c. split; [exact Hc|]. destruct HI as (_ & I2 & _). apply (I2 p c Hc).
  - apply elem_of_nil in Hcv. contradiction.
Qed.

End Cheapest.

Lemma dijkstra_map_cheapest_inv (po : PositionOrder) (m : GameMap) (base : Entity) :
  wf_map m -> normalized m (entity_position base) -> nonnegative m ->
  exists cost_map avg_halite,
    dijkstra_map m base = Returned (cost_map, avg_halite) ∧
    cheapest_inv m (entity_position base) [] cost_map.
Proof.
  intros Hwf Hb Hn.
  destruct (dijkstra_map_returns m base Hwf) as ([cost_map avg] & Hret & _).
  exists cost_map, avg. split; [exact Hret|].
  refine (dijkstra_loop_invariant m (cheapest_inv m (entity_position base)) Hwf _
            (loop_fuel m) [(0%Q, entity_position base)] ∅ 0 (cost_map, avg)
            _ Hret).
  - intros q cm cost p r HI Epop. eapply cheapest_inv_step; eassumption.
  - apply cheapest_inv_init.
Qed.


(** X12. [dijkstra_map] is Dijkstra's algorithm: on a well-formed grid
    whose amounts are not negative, from a base on a normalized position,
    the cost it records for a coordinate of the grid is the cost of a
    cheapest route from the base -- a walk along cardinal neighbours that
    pays, for each cell it enters, a tenth of the amount there plus 50.
    Some route has exactly that cost and none is cheaper. *)
Theorem dijkstra_map_cheapest (po : PositionOrder) (m : GameMap) (base : Entity) :
  wf_map m -> normalized m (entity_position base) -> nonnegative m ->
  exists cost_map avg_halite,
    dijkstra_map m base = Returned (cost_map, avg_halite) ∧
    forall p, normalized m p ->
      exists k, cost_map !! p = Some k ∧
        route_cost m (entity_position base) p k ∧
        forall k', route_cost m (entity_position base) p k' -> (k <= k')%Q.
Proof.
  intros Hwf Hb Hn.
  destruct (dijkstra_map_cheapest_inv po m base Hwf Hb Hn)
    as (cost_map & avg & Hret & HI).
  exists cost_map, avg. split; [exact Hret|].
  eapply cheapest_inv_done; eassumption.
Qed.

Lemma dijkstra_map_cheapest_witness :
  exists cost_map avg_halite k,
    dijkstra_map (po := lexicographic) (uniform_map 3 3 100)
      (mkEntity 0 0 (Position.mk 0 0) 0) = Returned (cost_map, avg_halite) ∧
    cost_map !! Position.mk 1 1 = Some k ∧
    route_cost (uniform_map 3 3 100) (Position.mk 0 0) (Position.mk 1 1) k.
Proof.
  destruct (dijkstra_map_cheapest lexicographic (uniform_map 3 3 100)
              (mkEntity 0 0 (Position.mk 0 0) 0)
              ltac:(solve_wf_map) ltac:(unfold normalized; simpl; lia)
              ltac:(repeat constructor; simpl; lia))
    as (cost_map & avg & Hret & Hall).
  destruct (Hall (Position.mk 1 1) ltac:(unfold normalized; simpl; lia))
    as (k & Hk & Hr & _).
  exists cost_map, avg, k. auto.
Defined.

Lemma route_cost_at_least (m : GameMap) (b p : Position) (k : Q) :
  wf_map m -> nonnegative m -> route_cost m b p k ->
  (inject_Z (calculate_distance m b p) * 50 <= k)%Q.
Proof.
  intros Hwf Hn Hr. pose proof Hwf as (Hw & Hh & _).
  induction Hr as [|p k d Hr IH Hd].
  - rewrite calculate_distance_self by assumption.
    change (inject_Z 0) with 0%Q. lra.
  - pose proof (relax_entry_step m k p d Hwf Hn) as Hstep.
    unfold relax_entry in *. simpl in *.
    pose proof (calculate_distance_step m b p d Hw Hh) as Hlip.
    pose proof (scale_le _ _ 50 ltac:(lra) Hlip) as Hle.
    pose proof (scale_succ (calculate_distance m b p) 50). lra.
Qed.

(** X13. On a well-formed grid whose amounts are not negative, from a
    base on a normalized position, the cost [dijkstra_map] records for a
    coordinate at toroidal distance [d] is at least [50 * d]: no cost is
    negative, and only the base has cost 0. *)
Theorem dijkstra_map_cost_at_least (po : PositionOrder) (m : GameMap)
    (base : Entity) :
  wf_map m -> normalized m (entity_position base) -> nonnegative m ->
  exists cost_map avg_halite,
    dijkstra_map m base = Returned (cost_map, avg_halite) ∧
    forall p, normalized m p ->
      exists k, cost_map !! p = Some k ∧
        (inject_Z (calculate_distance m (entity_position base) p) * 50 <= k)%Q ∧
        (0 <= k)%Q ∧
        ((k == 0)%Q -> p = entity_position base).
Proof.
  intros Hwf Hb Hn. pose proof Hwf as (Hw & Hh & _).
  destruct (dijkstra_map_cheapest_inv po m base Hwf Hb Hn)
    as (cost_map & avg & Hret & HI).
  exists cost_map, avg. split; [exact Hret|]. intros p Hp.
  destruct (cheapest_inv_done m (entity_position base) Hwf Hb Hn cost_map HI p Hp)
    as (k & Hk & Hr & Hbest).
  exists k. split; [exact Hk|].
  pose proof (route_cost_at_least m _ p k Hwf Hn Hr) as Hlow.
  pose proof (calculate_distance_nonneg m (entity_position base) p Hw Hh) as Hd.
  assert (H0 : (0 <= inject_Z (calculate_distance m (entity_position base) p) * 50)%Q).
  { apply Qmult_le_0_compat; [|lra]. change 0%Q with (inject_Z 0).
    rewrite <- Zle_Qle. exact Hd. }
  split; [exact Hlow|]. split; [lra|].
  intros E0. symmetry. apply (calculate_distance_zero m); [assumption..|].
  destruct (Z.eq_dec (calculate_distance m (entity_position base) p) 0) as [|Hne];
    [assumption|exfalso].
  assert (H1 : (inject_Z 1 * 50 <= inject_Z (calculate_distance m (entity_position base) p) * 50)%Q)
    by (apply scale_le; [lra | lia]).
  change (inject_Z 1) with 1%Q in H1. lra.
Qed.

Lemma dijkstra_map_cost_at_least_witness :
  exists cost_map avg_halite k,
    dijkstra_map (po := lexicographic) (uniform_map 3 3 100)
      (mkEntity 0 0 (Position.mk 0 0) 0) = Returned (cost_map, avg_halite) ∧
    cost_map !! Position.mk 1 1 = Some k ∧ (100 <= k)%Q.
Proof.
  destruct (dijkstra_map_cost_at_least lexicographic (uniform_map 3 3 100)
              (mkEntity 0 0 (Position.mk 0 0) 0)
              ltac:(solve_wf_map) ltac:(unfold normalized; simpl; lia)
              ltac:(repeat constructor; simpl; lia))
    as (cost_map & avg & Hret & Hall).
  destruct (Hall (Position.mk 1 1) ltac:(unfold normalized; simpl; lia))
    as (k & Hk & Hlow & _).
  exists cost_map, avg, k. split; [exact Hret|]. split; [exact Hk|].
  exact Hlow.
Defined.

(** ** The way home *)

Lemma navigate_back_lowest (m : GameMap) (ship : Entity)
    (cm : gmap Position Q) (cost : Q) :
  cm !! entity_position ship = Some cost ->
  (forall d, d ∈ get_all_cardinals ->
     is_Some (cm !! normalize m (directional_offset (entity_position ship) d))) ->
  let f := neighbour_cost m ship cm in
  exists mv,
    navigate_back m ship cm = Some mv ∧
    ((mv = Still ∧ forall d, d ∈ get_all_cardinals -> (cost <= f d)%Q) ∨
     (mv ∈ get_all_cardinals ∧ (f mv < cost)%Q ∧
      forall d, d ∈ get_all_cardinals -> (f mv <= f d)%Q)).
Proof.
  intros Hcost Hnb f.
  unfold navigate_back. rewrite Hcost. cbn -[foldl get_all_cardinals].
  rewrite navigate_back_fold by exact Hnb. fold f.
  pose proof (keep_lowest_spec f get_all_cardinals cost Still) as Hspec.
  cbv zeta in Hspec. revert Hspec.
  destruct (foldl (keep_lowest f) (cost, Still) get_all_cardinals) as [lo mv].
  intros Hspec. simpl. exists mv. split; [reflexivity|].
  destruct Hspec as [[E Hall] | (bf & af & El & _ & Hlt & Hb & Ha)].
  - left. split; [congruence | exact Hall].
  - right. simpl in *.
    split; [rewrite El; apply elem_of_app; right; constructor|].
    split; [exact Hlt|].
    intros d Hd. rewrite El in Hd.
    apply elem_of_app in Hd as [Hd | Hd]; [apply Qlt_le_weak, Hb, Hd|].
    apply elem_of_cons in Hd as [-> | Hd]; [apply Qle_refl | apply Ha, Hd].
Qed.

(** Away from the base a finalized coordinate has a neighbour that is
    cheaper by 50 at least: the one its cheapest route comes through. *)
Lemma cheapest_inv_descent (m : GameMap) (b : Position) (cm : gmap Position Q) :
  wf_map m -> normalized m b -> nonnegative m ->
  cheapest_inv m b [] cm ->
  forall p k, normalized m p -> cm !! p = Some k -> p ≠ b ->
    exists d kv, d ∈ get_all_cardinals ∧
      cm !! normalize m (directional_offset p d) = Some kv ∧ (kv + 50 <= k)%Q.
Proof.
  intros Hwf Hb Hn HI p k Hp Hk Hne. pose proof Hwf as (Hw & Hh & _).
  destruct (cheapest_inv_done m b Hwf Hb Hn cm HI p Hp) as (k1 & Hk1 & Hr & _).
  assert (k1 = k) by congruence. subst k1.
  inversion Hr as [E1 E2 | v k0 d Hrv Hd E1 E2]; [congruence|].
  assert (Hv : normalized m v) by exact (route_cost_normalized m b v k0 Hwf Hb Hrv).
  destruct (cheapest_inv_done m b Hwf Hb Hn cm HI v Hv) as (kv & Hkv & _ & Hbest).
  exists (invert d), kv. split; [apply invert_cardinal, Hd|].
  split.
  - simpl. rewrite normalize_step_back by assumption.
    rewrite (normalize_id m v Hv). exact Hkv.
  - pose proof (Hbest k0 Hrv).
    pose proof (relax_entry_step m k0 v d Hwf Hn). lra.
Qed.

Lemma navigate_back_on_cheapest (m : GameMap) (b : Position)
    (cost_map : gmap Position Q) (ship : Entity) :
  wf_map m -> normalized m b -> nonnegative m ->
  cheapest_inv m b [] cost_map ->
  normalized m (entity_position ship) ->
  (entity_position ship = b -> navigate_back m ship cost_map = Some Still) ∧
  (entity_position ship ≠ b ->
   exists d k k',
     navigate_back m ship cost_map = Some d ∧ d ∈ get_all_cardinals ∧
     cost_map !! entity_position ship = Some k ∧
     cost_map !! normalize m (directional_offset (entity_position ship) d) = Some k' ∧
     (k' + 50 <= k)%Q).
Proof.
  intros Hwf Hb Hn HI Hs. pose proof Hwf as (Hw & Hh & _).
  pose proof (cheapest_inv_done m _ Hwf Hb Hn cost_map HI) as Hdone.
  destruct (Hdone _ Hs) as (k & Hk & Hr & Hbest).
  assert (Hnb : forall d, d ∈ get_all_cardinals ->
            exists kd, cost_map !! normalize m (directional_offset (entity_position ship) d)
                       = Some kd ∧
                       neighbour_cost m ship cost_map d = kd ∧ (0 <= kd)%Q).
  { intros d Hd.
    destruct (Hdone (normalize m (directional_offset (entity_position ship) d))
                ltac:(apply normalize_normalized; assumption)) as (kd & Hkd & Hrd & _).
    exists kd. split; [exact Hkd|]. unfold neighbour_cost. rewrite Hkd.
    split; [reflexivity|].
    pose proof (route_cost_at_least m _ _ kd Hwf Hn Hrd) as Hlow.
    pose proof (calculate_distance_nonneg m b
                  (normalize m (directional_offset (entity_position ship) d)) Hw Hh) as Hd0.
    assert (0 <= inject_Z (calculate_distance m b
                  (normalize m (directional_offset (entity_position ship) d))) * 50)%Q.
    { apply Qmult_le_0_compat; [|lra]. change 0%Q with (inject_Z 0).
      rewrite <- Zle_Qle. exact Hd0. }
    lra. }
  destruct (navigate_back_lowest m ship cost_map k Hk) as (mv & Hnav & Hmv).
  { intros d Hd. destruct (Hnb d Hd) as (kd & Hkd & _). eauto. }
  split.
  - intros Epos. rewrite Hnav. f_equal.
    destruct Hmv as [[-> _] | (Hc & Hlt & _)]; [reflexivity|exfalso].
    destruct (Hnb mv Hc) as (kd & _ & Ekd & Hpos). rewrite Ekd in Hlt.
    assert (k <= 0)%Q by (apply Hbest; rewrite Epos; constructor). lra.
  - intros Hne.
    destruct (cheapest_inv_descent m _ cost_map Hwf Hb Hn HI _ k Hs Hk Hne)
      as (d & kv & Hd & Hkv & Hle).
    destruct (Hnb d Hd) as (kd & Hkd & Ekd & _).
    assert (kv = kd) by congruence. subst kv.
    destruct Hmv as [[-> Hall] | (Hc & Hlt & Hmin)].
    + exfalso. specialize (Hall d Hd). rewrite Ekd in Hall. lra.
    + destruct (Hnb mv Hc) as (km & Hkm & Ekm & _).
      exists mv, k, km. do 4 (split; [assumption|]).
      specialize (Hmin d Hd). rewrite Ekd, Ekm in Hmin. lra.
Qed.

(** X14. On the cost map that [dijkstra_map] returns (well-formed grid,
    amounts not negative, base and ship on normalized positions)
    [navigate_back] always makes progress: on the base it returns [Still],
    and anywhere else it returns a cardinal direction whose neighbour is
    recorded strictly cheaper than the ship's cell -- it never stays put
    away from the base. *)
Theorem navigate_back_makes_progress (po : PositionOrder) (m : GameMap)
    (base ship : Entity) :
  wf_map m -> normalized m (entity_position base) -> nonnegative m ->
  normalized m (entity_position ship) ->
  exists cost_map avg_halite,
    dijkstra_map m base = Returned (cost_map, avg_halite) ∧
    (entity_position ship = entity_position base ->
     navigate_back m ship cost_map = Some Still) ∧
    (entity_position ship ≠ entity_position base ->
     exists d k k',
       navigate_back m ship cost_map = Some d ∧ d ∈ get_all_cardinals ∧
       cost_map !! entity_position ship = Some k ∧
       cost_map !! normalize m (directional_offset (entity_position ship) d) = Some k' ∧
       (k' < k)%Q).
Proof.
  intros Hwf Hb Hn Hs.
  destruct (dijkstra_map_cheapest_inv po m base Hwf Hb Hn)
    as (cost_map & avg & Hret & HI).
  exists cost_map, avg. split; [exact Hret|].
  destruct (navigate_back_on_cheapest m (entity_position base) cost_map ship
              Hwf Hb Hn HI Hs) as [Hbase Haway].
  split; [exact Hbase|]. intros Hne.
  destruct (Haway Hne) as (d & k & k' & Hnav & Hd & Hk & Hk' & Hle).
  exists d, k, k'. do 4 (split; [assumption|]). lra.
Qed.

Lemma navigate_back_makes_progress_witness :
  exists cost_map avg_halite,
    dijkstra_map (po := lexicographic) (uniform_map 3 3 100)
      (mkEntity 0 0 (Position.mk 0 0) 0) = Returned (cost_map, avg_halite) ∧
    navigate_back (uniform_map 3 3 100) (mkEntity 0 1 (Position.mk 0 0) 0) cost_map
      = Some Still.
Proof.
  destruct (navigate_back_makes_progress lexicographic (uniform_map 3 3 100)
              (mkEntity 0 0 (Position.mk 0 0) 0) (mkEntity 0 1 (Position.mk 0 0) 0)
              ltac:(solve_wf_map) ltac:(unfold normalized; simpl; lia)
              ltac:(repeat constructor; simpl; lia)
              ltac:(unfold normalized; simpl; lia))
    as (cost_map & avg & Hret & Hbase & _).
  exists cost_map, avg. split; [exact Hret | apply Hbase; reflexivity].
Defined.

Lemma follow_home_arrives (m : GameMap) (b : Position) (cost_map : gmap Position Q) :
  wf_map m -> normalized m b -> nonnegative m ->
  cheapest_inv m b [] cost_map ->
  forall (N : nat) p k,
    normalized m p -> cost_map !! p = Some k ->
    (k <= inject_Z (Z.of_nat N) * 50)%Q ->
    follow_home m cost_map N p = Some b.
Proof.
  intros Hwf Hb Hn HI. pose proof Hwf as (Hw & Hh & _).
  induction N as [|N IH]; intros p k Hp Hk Hle.
  - simpl. f_equal. symmetry. apply (calculate_distance_zero m); [assumption..|].
    destruct (cheapest_inv_done m b Hwf Hb Hn cost_map HI p Hp) as (k1 & Hk1 & Hr & _).
    assert (k1 = k) by congruence. subst k1.
    pose proof (route_cost_at_least m b p k Hwf Hn Hr) as Hlow.
    pose proof (calculate_distance_nonneg m b p Hw Hh) as Hd.
    destruct (Z.eq_dec (calculate_distance m b p) 0) as [|Hne]; [assumption|exfalso].
    assert (H1 : (inject_Z 1 * 50 <= inject_Z (calculate_distance m b p) * 50)%Q)
      by (apply scale_le; [lra | lia]).
    change (inject_Z 1) with 1%Q in H1. change (inject_Z (Z.of_nat 0)) with 0%Q in Hle.
    lra.
  - destruct (navigate_back_on_cheapest m b cost_map (mkEntity 0 0 p 0) Hwf Hb Hn HI Hp)
      as [Hat Haway].
    cbn [follow_home]. simpl in Hat, Haway.
    destruct (decide (p = b)) as [-> | Hne].
    + rewrite (Hat eq_refl). reflexivity.
    + destruct (Haway Hne) as (d & k0 & k' & Hnav & Hd & Hk0 & Hk' & Hdrop).
      rewrite Hnav. simpl.
      assert (k0 = k) by congruence. subst k0.
      assert (Hgo : follow_home m cost_map N (normalize m (directional_offset p d)) = Some b).
      { apply (IH _ k'); [apply normalize_normalized; assumption | exact Hk' |].
        replace (Z.of_nat (S N)) with (Z.of_nat N + 1) in Hle by lia.
        pose proof (scale_succ (Z.of_nat N) 50). lra. }
      unfold get_all_cardinals in Hd.
      repeat (apply elem_of_cons in Hd as [-> | Hd]; [exact Hgo|]).
      apply elem_of_nil in Hd. contradiction.
Qed.

(** X15. Following [navigate_back] on the cost map of [dijkstra_map] leads
    home: from every coordinate of the grid (well-formed, amounts not
    negative, base on a normalized position) the walk that takes the
    returned move again and again ends on the base, after no more steps
    than the recorded cost holds fifties. *)
Theorem follow_home_reaches_base (po : PositionOrder) (m : GameMap)
    (base : Entity) (p : Position) :
  wf_map m -> normalized m (entity_position base) -> nonnegative m ->
  normalized m p ->
  exists cost_map avg_halite k,
    dijkstra_map m base = Returned (cost_map, avg_halite) ∧
    cost_map !! p = Some k ∧
    (forall N : nat, (k <= inject_Z (Z.of_nat N) * 50)%Q ->
       follow_home m cost_map N p = Some (entity_position base)) ∧
    exists N : nat, follow_home m cost_map N p = Some (entity_position base).
Proof.
  intros Hwf Hb Hn Hp.
  destruct (dijkstra_map_cheapest_inv po m base Hwf Hb Hn)
    as (cost_map & avg & Hret & HI).
  destruct (cheapest_inv_done m _ Hwf Hb Hn cost_map HI p Hp) as (k & Hk & _).
  exists cost_map, avg, k. split; [exact Hret|]. split; [exact Hk|].
  pose proof (follow_home_arrives m _ cost_map Hwf Hb Hn HI) as Harr.
  split; [intros N HN; apply (Harr N p k Hp Hk HN)|].
  exists (Z.to_nat (Qceiling k)). apply (Harr _ p k Hp Hk).
  pose proof (Qle_ceiling k) as Hc.
  destruct (Z_le_gt_dec 0 (Qceiling k)) as [Hpos | Hneg].
  - rewrite Z2Nat.id by exact Hpos.
    assert (0 <= inject_Z (Qceiling k))%Q
      by (change 0%Q with (inject_Z 0); rewrite <- Zle_Qle; exact Hpos).
    lra.
  - replace (Z.to_nat (Qceiling k)) with 0%nat by lia.
    assert (inject_Z (Qceiling k) <= inject_Z 0)%Q by (rewrite <- Zle_Qle; lia).
    change (inject_Z (Z.of_nat 0)) with 0%Q. change (inject_Z 0) with 0%Q in *. lra.
Qed.

Lemma follow_home_reaches_base_witness :
  exists cost_map avg_halite,
    dijkstra_map (po := lexicographic) (uniform_map 3 3 100)
      (mkEntity 0 0 (Position.mk 0 0) 0) = Returned (cost_map, avg_halite) ∧
    exists N, follow_home (uniform_map 3 3 100) cost_map N (Position.mk 1 1)
              = Some (Position.mk 0 0).
Proof.
  destruct (follow_home_reaches_base lexicographic (uniform_map 3 3 100)
              (mkEntity 0 0 (Position.mk 0 0) 0) (Position.mk 1 1)
              ltac:(solve_wf_map) ltac:(unfold normalized; simpl; lia)
              ltac:(repeat constructor; simpl; lia)
              ltac:(unfold normalized; simpl; lia))
    as (cost_map & avg & k & Hret & _ & _ & HN).
  exists cost_map, avg. split; [exact Hret | exact HN].
Defined.

(** ** The sum that [dijkstra_map] returns *)

Lemma Zsum_app (l k : list Z) : Zsum (l ++ k) = Zsum l + Zsum k.
Proof. unfold Zsum. induction l as [|a l IH]; simpl; lia. Qed.

Lemma Zsum_perm (l k : list Z) : l ≡ₚ k -> Zsum l = Zsum k.
Proof. unfold Zsum. induction 1; simpl; lia. Qed.

Lemma Zsum_fmap_add {A : Type} (f g : A -> Z) (l : list A) :
  Zsum ((fun x => f x + g x) <$> l) = Zsum (f <$> l) + Zsum (g <$> l).
Proof. unfold Zsum. induction l as [|a l IH]; csimpl; lia. Qed.

Lemma Zsum_fmap_ext {A : Type} (f g : A -> Z) (l : list A) :
  (forall x, x ∈ l -> f x = g x) -> Zsum (f <$> l) = Zsum (g <$> l).
Proof.
  unfold Zsum. induction l as [|a l IH]; intros H; csimpl; [reflexivity|].
  rewrite (H a) by constructor. rewrite IH; [reflexivity|].
  intros x Hx. apply H. constructor. exact Hx.
Qed.

Lemma NoDup_all_positions (m : GameMap) : NoDup (all_positions m).
Proof.
  unfold all_positions. apply NoDup_bind; [| |apply NoDup_seqZ].
  - intros y1 y2 p _ _ H1 H2.
    apply list_elem_of_bind in H1 as (x1 & H1 & _).
    apply list_elem_of_bind in H2 as (x2 & H2 & _).
    apply list_elem_of_singleton in H1, H2. congruence.
  - intros y _. apply NoDup_bind; [| |apply NoDup_seqZ].
    + intros x1 x2 p _ _ H1 H2.
      apply list_elem_of_singleton in H1, H2. congruence.
    + intros x _. apply NoDup_singleton.
Qed.

Lemma invert_invert (d : Direction) : invert (invert d) = d.
Proof. destruct d; reflexivity. Qed.

Lemma shifted_positions_perm (m : GameMap) (d : Direction) :
  0 < width m -> 0 < height m ->
  (fun p => normalize m (directional_offset p d)) <$> all_positions m
    ≡ₚ all_positions m.
Proof.
  intros Hw Hh. apply NoDup_Permutation.
  - apply NoDup_fmap_2_strong; [|apply NoDup_all_positions].
    intros p1 p2 H1 H2 E. apply elem_of_all_positions in H1, H2.
    rewrite <- (normalize_id m p1 H1), <- (normalize_id m p2 H2).
    rewrite <- (normalize_step_back m p1 d), <- (normalize_step_back m p2 d)
      by assumption.
    rewrite E. reflexivity.
  - apply NoDup_all_positions.
  - intros q. rewrite list_elem_of_fmap, elem_of_all_positions. split.
    + intros (p & -> & _). apply normalize_normalized; assumption.
    + intros Hq. exists (normalize m (directional_offset q (invert d))). split.
      * pose proof (normalize_step_back m q (invert d) Hw Hh) as E.
        rewrite invert_invert in E. rewrite E. symmetry. apply normalize_id, Hq.
      * apply elem_of_all_positions, normalize_normalized; assumption.
Qed.

Lemma visited_halite_total (m : GameMap) :
  0 < width m -> 0 < height m ->
  Zsum (visited_halite m <$> all_positions m) = 5 * total_halite m.
Proof.
  intros Hw Hh. unfold visited_halite, total_halite.
  rewrite !Zsum_fmap_add.
  assert (Hshift : forall d,
    Zsum ((fun p => halite_at m (normalize m (directional_offset p d))) <$> all_positions m)
      = Zsum (halite_at m <$> all_positions m)).
  { intros d.
    transitivity (Zsum (halite_at m <$>
                    ((fun p => normalize m (directional_offset p d)) <$> all_positions m)));
      [rewrite <- list_fmap_compose; reflexivity|].
    apply Zsum_perm. apply fmap_Permutation. apply shifted_positions_perm; assumption. }
  rewrite !Hshift. lia.
Qed.

Lemma finalized_sum_empty (m : GameMap) : finalized_sum m ∅ = 0.
Proof.
  unfold finalized_sum, Zsum.
  induction (all_positions m) as [|p l IH]; csimpl; [reflexivity|].
  rewrite lookup_empty, IH. reflexivity.
Qed.

Lemma finalized_sum_insert (m : GameMap) (cm : gmap Position Q) (p : Position) (k : Q) :
  normalized m p -> cm !! p = None ->
  finalized_sum m (<[p := k]> cm) = finalized_sum m cm + visited_halite m p.
Proof.
  intros Hp Hnone. unfold finalized_sum.
  apply elem_of_all_positions in Hp.
  pose proof (NoDup_all_positions m) as Hnd.
  induction (all_positions m) as [|a l IH]; [apply elem_of_nil in Hp; contradiction|].
  apply NoDup_cons in Hnd as [Ha Hnd]. rewrite !fmap_cons. unfold Zsum in *. simpl.
  destruct (decide (a = p)) as [-> | Hne].
  - rewrite lookup_insert_eq, Hnone.
    assert (E : foldr Z.add 0
                  ((fun p0 => match <[p := k]> cm !! p0 with
                              | Some _ => visited_halite m p0 | None => 0 end) <$> l)
              = foldr Z.add 0
                  ((fun p0 => match cm !! p0 with
                              | Some _ => visited_halite m p0 | None => 0 end) <$> l)).
    { apply (Zsum_fmap_ext _ _ l). intros x Hx.
      rewrite lookup_insert_ne by (intros ->; contradiction). reflexivity. }
    rewrite E. lia.
  - rewrite lookup_insert_ne by congruence.
    apply elem_of_cons in Hp as [-> | Hp]; [congruence|].
    rewrite (IH Hp Hnd). lia.
Qed.

Lemma finalized_sum_all (m : GameMap) (cm : gmap Position Q) :
  (forall p, normalized m p -> is_Some (cm !! p)) ->
  finalized_sum m cm = Zsum (visited_halite m <$> all_positions m).
Proof.
  intros Hall. unfold finalized_sum. apply Zsum_fmap_ext.
  intros p Hp. apply elem_of_all_positions in Hp.
  destruct (Hall p Hp) as [k ->]. reflexivity.
Qed.

Section RunningSum.
Context {po : PositionOrder}.

Lemma dijkstra_loop_invariant_sum (m : GameMap)
    (Inv : list (Q * Position) -> gmap Position Q -> Z -> Prop) :
  wf_map m ->
  (forall q cm avg cost p r,
     Inv q cm avg -> heappop Qcompare q = Some ((cost, p), r) ->
     match cm !! p with
     | Some _ => Inv r cm avg
     | None => Inv (relaxed m cost p r) (<[p := cost]> cm) (avg + visited_halite m p)
     end) ->
  forall fuel q cm avg res,
    Inv q cm avg -> dijkstra_loop m fuel (q, cm, avg) = Returned res ->
    exists avg',
      Inv [] res.1 avg' ∧
      res.2 = (inject_Z avg' / inject_Z (width m * height m))%Q.
Proof.
  intros Hwf Hstep. induction fuel as [|fuel IH]; intros q cm avg res HI;
    simpl; [discriminate|].
  destruct (heappop Qcompare q) as [[[cost p] r]|] eqn:Epop.
  - rewrite dijkstra_visit_spec by assumption.
    specialize (Hstep q cm avg cost p r HI Epop).
    destruct (cm !! p); apply IH; assumption.
  - intros E. injection E as <-. simpl.
    apply heappop_None in Epop. subst q. exists avg. auto.
Qed.

(** X16. The second value [dijkstra_map] returns is not the mean amount
    of the grid but five times it: every coordinate is finalized once and
    adds its own amount and those of its four neighbours, so on a
    well-formed grid with the base on a normalized position the value is
    [5 * (sum of all amounts) / (width * height)]. *)
Theorem dijkstra_map_avg_halite (m : GameMap) (base : Entity) :
  wf_map m -> normalized m (entity_position base) ->
  exists cost_map,
    dijkstra_map m base
      = Returned (cost_map,
                  (inject_Z (5 * total_halite m) / inject_Z (width m * height m))%Q).
Proof.
  intros Hwf Hb. pose proof Hwf as (Hw & Hh & _).
  destruct (dijkstra_map_returns m base Hwf) as ([cost_map avg] & Hret & _).
  exists cost_map. rewrite Hret. do 2 f_equal.
  set (Inv := fun q cm (s : Z) =>
         frontier_inv m (entity_position base) (fun _ _ => True) q cm ∧
         s = finalized_sum m cm).
  destruct (dijkstra_loop_invariant_sum m Inv Hwf) with
    (fuel := loop_fuel m) (q := [(0%Q, entity_position base)])
    (cm := (∅ : gmap Position Q)) (avg := 0) (res := (cost_map, avg))
    as (s & [HF Hs] & Havg).
  - intros q cm s cost p r [HF Hs] Epop.
    assert (Hstep :
      match cm !! p with
      | Some _ => frontier_inv m (entity_position base) (fun _ _ => True) r cm
      | None => frontier_inv m (entity_position base) (fun _ _ => True)
                  (relaxed m cost p r) (<[p := cost]> cm)
      end) by (eapply frontier_inv_step; eauto).
    assert (Hp : normalized m p).
    { destruct HF as (Ia & _). apply (Ia (cost, p)).
      apply (heappop_elem_of _ _ _ _ _ Epop). auto. }
    destruct (cm !! p) eqn:Ecm; split; try assumption.
    rewrite finalized_sum_insert by assumption. lia.
  - split; [apply frontier_inv_init; auto|].
    rewrite finalized_sum_empty. reflexivity.
  - exact Hret.
  - simpl in Havg. rewrite Havg. do 2 f_equal. rewrite Hs.
    rewrite finalized_sum_all.
    + apply visited_halite_total; assumption.
    + intros p Hp.
      apply (frontier_inv_done m (entity_position base) (fun _ _ => True) Hwf Hb);
        auto.
Qed.
End RunningSum.

Lemma dijkstra_map_avg_halite_witness :
  exists cost_map,
    dijkstra_map (po := lexicographic) (uniform_map 3 3 100)
      (mkEntity 0 0 (Position.mk 0 0) 0)
    = Returned (cost_map, (inject_Z 4500 / inject_Z 9)%Q).
Proof.
  exact (dijkstra_map_avg_halite (po := lexicographic) (uniform_map 3 3 100)
           (mkEntity 0 0 (Position.mk 0 0) 0)
           ltac:(solve_wf_map) ltac:(unfold normalized; simpl; lia)).
Defined.

(** ** The potential field, in closed form *)

Lemma getitem_Forall (P : MapCell -> Prop) (m : GameMap) (p : Position)
    (cell : MapCell) :
  Forall (Forall P) (_cells m) -> getitem m p = Some cell -> P cell.
Proof.
  intros HP Hcell. unfold getitem in Hcell.
  destruct (_cells m !! _) as [row|] eqn:Hrow; simpl in Hcell; [|discriminate].
  rewrite Forall_forall in HP.
  specialize (HP row ltac:(eapply list_elem_of_lookup_2; eassumption)).
  rewrite Forall_forall in HP. apply HP.
  eapply list_elem_of_lookup_2; eassumption.
Qed.

Lemma seen_sum_empty (m : GameMap) (f : Position -> Z) : seen_sum m f ∅ = 0.
Proof.
  unfold seen_sum, Zsum.
  induction (all_positions m) as [|p l IH]; csimpl; [reflexivity|].
  rewrite lookup_empty, IH. reflexivity.
Qed.

Lemma seen_sum_insert (m : GameMap) (f : Position -> Z) (seen : gmap Position Z)
    (p : Position) (k : Z) :
  normalized m p -> seen !! p = None ->
  seen_sum m f (<[p := k]> seen) = seen_sum m f seen + f p.
Proof.
  intros Hp Hnone. unfold seen_sum.
  apply elem_of_all_positions in Hp.
  pose proof (NoDup_all_positions m) as Hnd.
  induction (all_positions m) as [|a l IH]; [apply elem_of_nil in Hp; contradiction|].
  apply NoDup_cons in Hnd as [Ha Hnd]. rewrite !fmap_cons. unfold Zsum in *. simpl.
  destruct (decide (a = p)) as [-> | Hne].
  - rewrite lookup_insert_eq, Hnone.
    assert (E : foldr Z.add 0
                  ((fun p0 => match <[p := k]> seen !! p0 with
                              | Some _ => f p0 | None => 0 end) <$> l)
              = foldr Z.add 0
                  ((fun p0 => match seen !! p0 with
                              | Some _ => f p0 | None => 0 end) <$> l)).
    { apply (Zsum_fmap_ext _ _ l). intros x Hx.
      rewrite lookup_insert_ne by (intros ->; contradiction). reflexivity. }
    rewrite E. lia.
  - rewrite lookup_insert_ne by congruence.
    apply elem_of_cons in Hp as [-> | Hp]; [congruence|].
    rewrite (IH Hp Hnd). lia.
Qed.

Lemma seen_sum_all (m : GameMap) (f : Position -> Z) (seen : gmap Position Z) :
  (forall p, normalized m p -> is_Some (seen !! p)) ->
  seen_sum m f seen = Zsum (f <$> all_positions m).
Proof.
  intros Hall. unfold seen_sum. apply Zsum_fmap_ext.
  intros p Hp. apply elem_of_all_positions in Hp.
  destruct (Hall p Hp) as [k ->]. reflexivity.
Qed.

Lemma elem_of_expanded (m : GameMap) (d : Z) (p : Position)
    (r : list (Z * Position)) (e : Z * Position) :
  e ∈ expanded m d p r <->
  (exists c, c ∈ get_all_cardinals ∧
             e = (d + 1, normalize m (directional_offset p c))) ∨ e ∈ r.
Proof.
  unfold expanded, get_all_cardinals. rewrite !elem_of_cons. split.
  - intros [-> | [-> | [-> | [-> | Hr]]]];
      [left; eexists; split; [|reflexivity]; repeat constructor ..| right; exact Hr].
  - intros [(c & Hc & ->) | Hr]; [|auto 6].
    repeat (apply elem_of_cons in Hc as [-> | Hc]; [auto 6|]).
    apply elem_of_nil in Hc. contradiction.
Qed.

Section PotentialField.
Context {po : PositionOrder}.

(** The rule for the loop of [_calculate_potential_cell]: what every pass
    keeps holds of the value returned. *)
Lemma potential_loop_invariant (m : GameMap) (id : Z)
    (Inv : list (Z * Position) -> gmap Position Z -> Z -> Prop) :
  wf_map m ->
  (forall q seen pot d p r cell,
     Inv q seen pot -> heappop Z.compare q = Some ((d, p), r) ->
     getitem m p = Some cell ->
     match seen !! p with
     | Some _ => Inv r seen pot
     | None =>
         match ship cell with
         | Some _ => Inv r (<[p := d]> seen) pot
         | None => Inv (expanded m d p r) (<[p := d]> seen)
                       (pot + contribution m id cell d)
         end
     end) ->
  forall fuel q seen pot v,
    Inv q seen pot -> potential_loop m id fuel (q, seen, pot) = Returned v ->
    exists seen', Inv [] seen' v.
Proof.
  intros Hwf Hstep. induction fuel as [|fuel IH]; intros q seen pot v HI;
    simpl; [discriminate|].
  destruct (heappop Z.compare q) as [[[d p] r]|] eqn:Epop.
  - destruct (potential_visit_spec m id d p r seen pot Hwf) as (cell & Hcell & ->).
    specialize (Hstep q seen pot d p r cell HI Epop Hcell).
    destruct (seen !! p); [apply IH; assumption|].
    destruct (ship cell); apply IH; assumption.
  - intros E. injection E as <-.
    apply heappop_None in Epop. subst q. exists seen. exact HI.
Qed.

Lemma heappop_distance_least (q : list (Z * Position)) (d : Z) (p : Position)
    (r : list (Z * Position)) :
  heappop Z.compare q = Some ((d, p), r) ->
  forall k u, (k, u) ∈ q -> d <= k.
Proof.
  intros Epop k u Hk.
  assert (H1 : forall a : Z, a <= a) by (intros; lia).
  assert (H2 : forall a b c : Z, a <= b -> b <= c -> a <= c) by (intros; lia).
  assert (H3 : forall a b : Z, (a ?= b) = Lt -> a <= b).
  { intros a b E. destruct (Z.compare_spec a b); try discriminate; lia. }
  assert (H4 : forall a b : Z, (a ?= b) = Eq -> a <= b ∧ b <= a).
  { intros a b E. destruct (Z.compare_spec a b); try discriminate; lia. }
  assert (H5 : forall a b : Z, (a ?= b) = Gt -> b <= a).
  { intros a b E. destruct (Z.compare_spec a b); try discriminate; lia. }
  exact (heappop_least Z.compare Z.le q (d, p) r H1 H2 H3 H4 H5 Epop (k, u) Hk).
Qed.

Section Field.
Variables (m : GameMap) (id : Z) (source : Position).
Hypothesis Hwf : wf_map m.
Hypothesis Hsource : normalized m source.

Lemma field_inv_init :
  field_inv m id source [(0, source)] ∅ 0.
Proof.
  pose proof Hwf as (Hw & Hh & _).
  unfold field_inv. split; [|split; [|split; [|split]]].
  - intros k p Hk. apply list_elem_of_singleton in Hk. injection Hk as -> ->.
    split; [exact Hsource|]. rewrite calculate_distance_self by assumption. lia.
  - intros p k Hk. rewrite lookup_empty in Hk. discriminate.
  - intros p d [v Hv]. rewrite lookup_empty in Hv. discriminate.
  - right. exists 0. split; [constructor | lia].
  - rewrite seen_sum_empty. reflexivity.
Qed.

(** While a coordinate of the grid is not seen, something waits at no
    more than its distance. *)
Lemma field_inv_pending (q : list (Z * Position)) (seen : gmap Position Z)
    (pot : Z) :
  field_inv m id source q seen pot ->
  forall p, normalized m p -> seen !! p = None ->
    exists k u, (k, u) ∈ q ∧ k <= calculate_distance m source p.
Proof.
  intros (Ia & Ib & Ic & Id & _). pose proof Hwf as (Hw & Hh & _).
  assert (Hind : forall n p, Z.to_nat (calculate_distance m source p) = n ->
            normalized m p -> seen !! p = None ->
            exists k u, (k, u) ∈ q ∧ k <= calculate_distance m source p).
  { induction n as [n IH] using lt_wf_ind. intros p Hn Hp Hnone.
    pose proof (calculate_distance_nonneg m source p Hw Hh) as Hge.
    destruct (Z.eq_dec (calculate_distance m source p) 0) as [E0 | E0].
    - assert (source = p) by (apply (calculate_distance_zero m); assumption).
      subst p. rewrite E0.
      destruct Id as [[v Hv] | (k & Hk & Hg)]; [congruence|].
      exists k, source. auto.
    - destruct (calculate_distance_pred m source p Hw Hh Hp ltac:(lia))
        as (v & d & Hv & Hd & Hvp & Hdist).
      destruct (seen !! v) as [c|] eqn:Ev.
      + destruct (Ic v d ltac:(rewrite Ev; eauto) Hd) as [[c' Hc'] | (k & Hk & Hg)].
        * rewrite Hvp in Hc'. congruence.
        * rewrite Hvp in Hk. exists k, p. split; [exact Hk | lia].
      + destruct (IH (Z.to_nat (calculate_distance m source v)) ltac:(lia) v eq_refl Hv Ev)
          as (k & u & Hk & Hg).
        exists k, u. split; [exact Hk | lia]. }
  intros p. apply (Hind _ p eq_refl).
Qed.

Lemma field_inv_step (q : list (Z * Position)) (seen : gmap Position Z)
    (pot d : Z) (p : Position) (r : list (Z * Position)) (cell : MapCell) :
  field_inv m id source q seen pot ->
  heappop Z.compare q = Some ((d, p), r) ->
  getitem m p = Some cell ->
  match seen !! p with
  | Some _ => field_inv m id source r seen pot
  | None => field_inv m id source (expanded m d p r) (<[p := d]> seen)
              (pot + contribution m id cell d)
  end.
Proof.
  intros HI Epop Hcell. pose proof HI as (Ia & Ib & Ic & Id & Ie).
  pose proof Hwf as (Hw & Hh & _).
  pose proof (fun x => heappop_elem_of _ _ _ _ x Epop) as Hmem.
  assert (Hdp : (d, p) ∈ q) by (apply Hmem; auto).
  destruct (Ia d p Hdp) as [Hp Hge].
  destruct (seen !! p) as [c|] eqn:Eseen.
  - split; [|split; [|split; [|split]]]; try assumption.
    + intros k u Hk. apply Ia, Hmem. auto.
    + intros p' c' Hp' Hc'.
      destruct (Ic p' c' Hp' Hc') as [Hl | (k & Hk & Hg)]; [auto|].
      apply Hmem in Hk as [Hk | Hk].
      * left. injection Hk as _ ->. rewrite Eseen. eauto.
      * right. eauto.
    + destruct Id as [Hl | (k & Hk & Hg)]; [auto|].
      apply Hmem in Hk as [Hk | Hk].
      * left. injection Hk as _ ->. rewrite Eseen. eauto.
      * right. eauto.
  - assert (Hd : d = calculate_distance m source p).
    { destruct (field_inv_pending q seen pot HI p Hp Eseen) as (k & u & Hk & Hle).
      pose proof (heappop_distance_least q d p r Epop k u Hk). lia. }
    split; [|split; [|split; [|split]]].
    + intros k u Hk. apply elem_of_expanded in Hk as [(c & Hc & E) | Hk].
      * injection E as -> ->. split; [apply normalize_normalized; assumption|].
        pose proof (calculate_distance_step m source p c Hw Hh). lia.
      * apply Ia, Hmem. auto.
    + intros p' k Hk. destruct (decide (p' = p)) as [-> | Hne].
      * rewrite lookup_insert_eq in Hk. injection Hk as <-. auto.
      * rewrite lookup_insert_ne in Hk by congruence. apply Ib, Hk.
    + intros p' c Hp' Hc. rewrite is_Some_insert.
      apply is_Some_insert in Hp' as [-> | Hp'].
      * right. exists (d + 1). split; [|lia].
        apply elem_of_expanded. left. exists c. auto.
      * destruct (Ic p' c Hp' Hc) as [Hl | (k & Hk & Hg)]; [auto|].
        apply Hmem in Hk as [Hk | Hk].
        -- left. left. injection Hk as _ ->. reflexivity.
        -- right. exists k. split; [|exact Hg].
           apply elem_of_expanded. auto.
    + rewrite is_Some_insert.
      destruct Id as [Hl | (k & Hk & Hg)]; [auto|].
      apply Hmem in Hk as [Hk | Hk].
      * left. left. injection Hk as _ ->. reflexivity.
      * right. exists k. split; [|exact Hg]. apply elem_of_expanded. auto.
    + rewrite seen_sum_insert by assumption. rewrite Ie. f_equal.
      unfold field_term. rewrite Hcell, Hd. reflexivity.
Qed.

Lemma field_inv_done (seen : gmap Position Z) (pot : Z) :
  field_inv m id source [] seen pot ->
  pot = Zsum (field_term m id source <$> all_positions m).
Proof.
  intros HI. pose proof HI as (_ & _ & _ & _ & ->).
  apply seen_sum_all. intros p Hp.
  destruct (seen !! p) eqn:E; [eauto|].
  destruct (field_inv_pending [] seen _ HI p Hp E) as (k & u & Hk & _).
  apply elem_of_nil in Hk. contradiction.
Qed.
End Field.

(** X17. On a well-formed grid without ships, the potential of a
    normalized source is the sum, over all the cells of the grid, of what
    the cell contributes at its toroidal distance from the source: the
    expansion reaches every cell exactly once, by a shortest way.  (With
    [range = width + height] a cell at distance [d] contributes
    [-1000 * (range - d)] when it holds a structure with the given id and
    [amount * (range - d)^2] otherwise.) *)
Theorem calculate_potential_cell_closed_form (m : GameMap) (source : Position)
    (dropoffs : list Entity) (id : Z) :
  wf_map m -> ship_free m -> normalized m source ->
  _calculate_potential_cell m source dropoffs id
    = Returned (Zsum (field_term m id source <$> all_positions m)).
Proof.
  intros Hwf Hfree Hsource.
  destruct (potential_cell_returns m source dropoffs id Hwf) as [v Hv].
  rewrite Hv. f_equal.
  destruct (potential_loop_invariant m id (field_inv m id source) Hwf)
    with (fuel := loop_fuel m) (q := [(0, source)])
         (seen := (∅ : gmap Position Z)) (pot := 0) (v := v) as [seen HI].
  - intros q seen pot d p r cell HI Epop Hcell.
    assert (Hstep :
      match seen !! p with
      | Some _ => field_inv m id source r seen pot
      | None => field_inv m id source (expanded m d p r) (<[p := d]> seen)
                  (pot + contribution m id cell d)
      end) by (eapply field_inv_step; eauto).
    destruct (seen !! p); [exact Hstep|].
    rewrite (getitem_Forall (fun cell => ship cell = None) m p cell Hfree Hcell).
    exact Hstep.
  - apply field_inv_init; assumption.
  - exact Hv.
  - eapply field_inv_done; eauto.
Qed.

(** X18. Where amounts are not negative and no structure has the given
    id, the potential of any source is not negative, whatever ships are
    on the grid. *)
Theorem calculate_potential_cell_nonneg (m : GameMap) (source : Position)
    (dropoffs : list Entity) (id : Z) :
  wf_map m -> nonnegative m -> no_structure_of m id ->
  exists v, _calculate_potential_cell m source dropoffs id = Returned v ∧ 0 <= v.
Proof.
  intros Hwf Hnn Hnone.
  destruct (potential_cell_returns m source dropoffs id Hwf) as [v Hv].
  exists v. split; [exact Hv|].
  destruct (potential_loop_invariant m id (fun _ _ pot => 0 <= pot) Hwf)
    with (fuel := loop_fuel m) (q := [(0, source)])
         (seen := (∅ : gmap Position Z)) (pot := 0) (v := v) as [seen HI].
  - intros q seen pot d p r cell HI Epop Hcell.
    destruct (seen !! p); [exact HI|].
    destruct (ship cell); [exact HI|].
    pose proof (getitem_Forall _ m p cell Hnn Hcell) as Hamount.
    pose proof (getitem_Forall _ m p cell Hnone Hcell) as Hstruct.
    simpl in Hamount, Hstruct.
    assert (Hsq : forall a r, 0 <= a -> 0 <= a * r * r).
    { intros a r' Ha. rewrite <- Z.mul_assoc.
      apply Z.mul_nonneg_nonneg; [assumption | apply Z.square_nonneg]. }
    assert (0 <= contribution m id cell d); [|lia].
    unfold contribution.
    destruct (structure cell) as [s|]; [|apply Hsq, Hamount].
    destruct (Z.eqb_spec (entity_id s) id) as [E | _]; [|apply Hsq, Hamount].
    exfalso. exact (Hstruct s eq_refl E).
  - lia.
  - exact Hv.
  - exact HI.
Qed.

(** X19. A source with a ship on it has potential 0: the expansion marks
    it seen and ends there. *)
Theorem calculate_potential_cell_occupied_source (m : GameMap)
    (source : Position) (dropoffs : list Entity) (id : Z) (cell : MapCell) :
  wf_map m -> getitem m source = Some cell -> is_occupied cell = true ->
  _calculate_potential_cell m source dropoffs id = Returned 0.
Proof.
  intros Hwf Hcell Hocc. pose proof Hwf as (Hw & Hh & _).
  unfold _calculate_potential_cell.
  pose proof (loop_fuel_enough m source Hw Hh) as Hfuel. simpl length in Hfuel.
  destruct (loop_fuel m) as [|[|fuel]]; [lia | lia |].
  cbn [potential_loop].
  change (heappop Z.compare [(0, source)]) with (Some ((0, source), @nil (Z * Position))).
  destruct (potential_visit_spec m id 0 source [] ∅ 0 Hwf) as (cell' & Hcell' & ->).
  rewrite lookup_empty.
  assert (cell' = cell) by congruence. subst cell'.
  unfold is_occupied in Hocc. destruct (ship cell); [|discriminate].
  reflexivity.
Qed.

(** X20. [finding_halite] never sends a unit onto an occupied cell: the
    direction it returns is [Still] or a cardinal whose neighbour holds
    no ship. *)
Theorem finding_halite_avoids_ships (m : GameMap) (ship : Entity) (id : Z)
    (move_dir : Direction) :
  wf_map m ->
  finding_halite m ship id = Returned move_dir ->
  move_dir = Still ∨
  (move_dir ∈ get_all_cardinals ∧
   exists cell,
     getitem m (normalize m (directional_offset (entity_position ship) move_dir))
       = Some cell ∧
     is_occupied cell = false).
Proof.
  intros Hwf. unfold finding_halite. rewrite finding_halite_fold by assumption.
  pose proof (keep_highest_spec (candidate_potential m ship id)
                get_all_cardinals 0 Still) as Hspec.
  cbv zeta in Hspec. revert Hspec.
  destruct (foldl (keep_highest (candidate_potential m ship id)) (0, Still)
              get_all_cardinals) as [hi mv].
  intros Hspec E. simpl in E. injection E as ->.
  destruct Hspec as [[E _] | (b & af & El & _ & Hpos & _)].
  - left. congruence.
  - right. simpl in *. split.
    + rewrite El. apply elem_of_app. right. constructor.
    + destruct (getitem_wf m
                  (normalize m (directional_offset (entity_position ship) move_dir))
                  Hwf) as [cell Hcell].
      exists cell. split; [exact Hcell|].
      unfold candidate_potential in Hpos. rewrite Hcell in Hpos.
      destruct (is_occupied cell); [lia | reflexivity].
Qed.
End PotentialField.

Lemma calculate_potential_cell_closed_form_witness :
  _calculate_potential_cell (po := lexicographic)
    (with_halite
       (with_structure (uniform_map 5 5 0) (Position.mk 0 0)
          (mkEntity 0 0 (Position.mk 0 0) 0))
       (Position.mk 4 0) 100)
    (Position.mk 3 0) [] 0
  = Returned 100.
Proof.
  rewrite (calculate_potential_cell_closed_form (po := lexicographic)
             (with_halite
                (with_structure (uniform_map 5 5 0) (Position.mk 0 0)
                   (mkEntity 0 0 (Position.mk 0 0) 0))
                (Position.mk 4 0) 100)
             (Position.mk 3 0) [] 0
             ltac:(solve_wf_map) ltac:(repeat constructor)
             ltac:(unfold normalized; simpl; lia)).
  reflexivity.
Defined.

Lemma calculate_potential_cell_nonneg_witness :
  exists v,
    _calculate_potential_cell (po := lexicographic)
      (with_ship (uniform_map 3 3 100) (Position.mk 1 1)
         (mkEntity 0 7 (Position.mk 1 1) 0))
      (Position.mk 0 0) [] 0 = Returned v ∧ 0 <= v.
Proof.
  exact (calculate_potential_cell_nonneg (po := lexicographic)
           (with_ship (uniform_map 3 3 100) (Position.mk 1 1)
              (mkEntity 0 7 (Position.mk 1 1) 0))
           (Position.mk 0 0) [] 0
           ltac:(solve_wf_map)
           ltac:(repeat constructor; simpl; lia)
           ltac:(repeat constructor; simpl; intros; discriminate)).
Defined.

Lemma calculate_potential_cell_occupied_source_witness :
  _calculate_potential_cell (po := lexicographic)
    (with_ship (uniform_map 3 3 100) (Position.mk 1 1)
       (mkEntity 0 7 (Position.mk 1 1) 0))
    (Position.mk 1 1) [] 0 = Returned 0.
Proof.
  exact (calculate_potential_cell_occupied_source (po := lexicographic)
           (with_ship (uniform_map 3 3 100) (Position.mk 1 1)
              (mkEntity 0 7 (Position.mk 1 1) 0))
           (Position.mk 1 1) [] 0 _ ltac:(solve_wf_map) eq_refl eq_refl).
Defined.

Lemma finding_halite_avoids_ships_witness :
  East = Still ∨
  (East ∈ get_all_cardinals ∧
   exists cell,
     getitem
       (with_halite
          (with_structure (uniform_map 5 5 0) (Position.mk 0 0)
             (mkEntity 0 0 (Position.mk 0 0) 0))
          (Position.mk 4 0) 100)
       (normalize
          (with_halite
             (with_structure (uniform_map 5 5 0) (Position.mk 0 0)
                (mkEntity 0 0 (Position.mk 0 0) 0))
             (Position.mk 4 0) 100)
          (directional_offset (Position.mk 2 0) East))
       = Some cell ∧
     is_occupied cell = false).
Proof.
  exact (finding_halite_avoids_ships (po := lexicographic)
           (with_halite
              (with_structure (uniform_map 5 5 0) (Position.mk 0 0)
                 (mkEntity 0 0 (Position.mk 0 0) 0))
              (Position.mk 4 0) 100)
           (mkEntity 0 1 (Position.mk 2 0) 0) 0 East
           ltac:(solve_wf_map) ltac:(vm_compute; reflexivity)).
Defined.

(** ** Mining *)

Lemma mining_unfold (m : GameMap) (ship : Entity) (here : MapCell) :
  wf_map m -> getitem m (entity_position ship) = Some here ->
  mining m ship =
    (max_index ← argmax (mining_value m ship <$> get_all_cardinals);
     if halite_amount here =? 0 then get_all_cardinals !! max_index
     else
       highest ← (mining_value m ship <$> get_all_cardinals) !! max_index;
       if halite_amount here <? highest then get_all_cardinals !! max_index
       else Some Still).
Proof.
  intros Hwf Hhere.
  unfold mining, mining_value, get_surrounding_cardinals, get_all_cardinals.
  cbn [map fmap list_fmap mapM].
  destruct (getitem_wf m (directional_offset (entity_position ship) North) Hwf)
    as [cN ->].
  destruct (getitem_wf m (directional_offset (entity_position ship) South) Hwf)
    as [cS ->].
  destruct (getitem_wf m (directional_offset (entity_position ship) East) Hwf)
    as [cE ->].
  destruct (getitem_wf m (directional_offset (entity_position ship) West) Hwf)
    as [cW ->].
  rewrite Hhere. cbn [mbind option_bind mret option_ret].
  destruct (is_occupied cN), (is_occupied cS), (is_occupied cE), (is_occupied cW);
    reflexivity.
Qed.

Lemma mining_spec (m : GameMap) (ship : Entity) :
  wf_map m ->
  exists here d before after,
    getitem m (entity_position ship) = Some here ∧
    get_all_cardinals = before ++ d :: after ∧
    (forall x, x ∈ before -> mining_value m ship x < mining_value m ship d) ∧
    (forall x, x ∈ after -> mining_value m ship x <= mining_value m ship d) ∧
    mining m ship =
      Some (if halite_amount here =? 0 then d
            else if halite_amount here <? mining_value m ship d then d
                 else Still).
Proof.
  intros Hwf.
  destruct (getitem_wf m (entity_position ship) Hwf) as [here Hhere].
  exists here. rewrite (mining_unfold m ship here Hwf Hhere).
  generalize (mining_value m ship). intros f.
  unfold get_all_cardinals, argmax. cbn [fmap list_fmap argmax_from].
  assert (Hnil : forall x : Direction, x ∈ @nil Direction -> False)
    by (intros x Hx; apply elem_of_nil in Hx; exact Hx).
  destruct (Z.ltb_spec (f North) (f South)) as [H1 | H1];
    [destruct (Z.ltb_spec (f South) (f East)) as [H2 | H2];
       [destruct (Z.ltb_spec (f East) (f West)) as [H3 | H3]
       |destruct (Z.ltb_spec (f South) (f West)) as [H3 | H3]]
    |destruct (Z.ltb_spec (f North) (f East)) as [H2 | H2];
       [destruct (Z.ltb_spec (f East) (f West)) as [H3 | H3]
       |destruct (Z.ltb_spec (f North) (f West)) as [H3 | H3]]].
  all: cbn.
  all: match goal with
       | |- context [if _ =? 0 then Some West else _] =>
           exists West, [North; South; East], []
       | |- context [if _ =? 0 then Some East else _] =>
           exists East, [North; South], [West]
       | |- context [if _ =? 0 then Some South else _] =>
           exists South, [North], [East; West]
       | |- context [if _ =? 0 then Some North else _] =>
           exists North, [], [South; East; West]
       | _ => idtac
       end.
  all: try (split; [exact Hhere|]; split; [reflexivity|];
       split; [intros x Hx; repeat (apply elem_of_cons in Hx as [-> | Hx]; [lia|]);
               exfalso; exact (Hnil x Hx)|];
       split; [intros x Hx; repeat (apply elem_of_cons in Hx as [-> | Hx]; [lia|]);
               exfalso; exact (Hnil x Hx)|]).
  all: try (destruct (halite_amount here =? 0); [reflexivity|];
            match goal with |- context [?a <? ?b] => destruct (a <? b) end;
            reflexivity).
Qed.

(** X21. On a well-formed grid [mining] returns.  With, for each
    cardinal, the amount on the neighbour or -1 when a ship is on it, it
    returns the first cardinal of the largest such value when the unit's
    own cell holds 0 or less than that value, and [Still] otherwise. *)
Theorem mining_first_largest (m : GameMap) (ship : Entity) :
  wf_map m ->
  exists here move_dir,
    getitem m (entity_position ship) = Some here ∧
    mining m ship = Some move_dir ∧
    ((move_dir = Still ∧ halite_amount here <> 0 ∧
      forall x, x ∈ get_all_cardinals -> mining_value m ship x <= halite_amount here) ∨
     (exists before after,
        get_all_cardinals = before ++ move_dir :: after ∧
        (halite_amount here = 0 ∨ halite_amount here < mining_value m ship move_dir) ∧
        (forall x, x ∈ before -> mining_value m ship x < mining_value m ship move_dir) ∧
        (forall x, x ∈ after -> mining_value m ship x <= mining_value m ship move_dir))).
Proof.
  intros Hwf.
  destruct (mining_spec m ship Hwf)
    as (here & d & before & after & Hhere & El & Hb & Ha & ->).
  exists here. destruct (Z.eqb_spec (halite_amount here) 0) as [E0 | E0].
  - exists d. split; [exact Hhere|]. split; [reflexivity|].
    right. exists before, after. auto.
  - destruct (Z.ltb_spec (halite_amount here) (mining_value m ship d)) as [Hlt | Hge].
    + exists d. split; [exact Hhere|]. split; [reflexivity|].
      right. exists before, after. auto.
    + exists Still. split; [exact Hhere|]. split; [reflexivity|].
      left. split; [reflexivity|]. split; [exact E0|].
      intros x Hx. rewrite El in Hx.
      apply elem_of_app in Hx as [Hx | Hx]; [specialize (Hb x Hx); lia|].
      apply elem_of_cons in Hx as [-> | Hx]; [lia|].
      specialize (Ha x Hx). lia.
Qed.

(** X22. A unit whose own cell holds a positive amount is never sent
    onto an occupied cell by [mining]: it stays, or moves to a neighbour
    without a ship that holds strictly more than its own cell. *)
Theorem mining_avoids_ships (m : GameMap) (ship : Entity) (here : MapCell)
    (move_dir : Direction) :
  wf_map m ->
  getitem m (entity_position ship) = Some here ->
  0 < halite_amount here ->
  mining m ship = Some move_dir ->
  move_dir = Still ∨
  (move_dir ∈ get_all_cardinals ∧
   exists cell,
     getitem m (directional_offset (entity_position ship) move_dir) = Some cell ∧
     is_occupied cell = false ∧
     halite_amount here < halite_amount cell).
Proof.
  intros Hwf Hhere Hpos.
  destruct (mining_spec m ship Hwf)
    as (here' & d & before & after & Hhere' & El & _ & _ & ->).
  assert (here' = here) by congruence. subst here'.
  destruct (Z.eqb_spec (halite_amount here) 0) as [E0 | _]; [lia|].
  destruct (Z.ltb_spec (halite_amount here) (mining_value m ship d)) as [Hlt | _];
    intros E; injection E as <-; [|left; reflexivity].
  right. split; [rewrite El; apply elem_of_app; right; constructor|].
  unfold mining_value in Hlt.
  destruct (getitem m (directional_offset (entity_position ship) d)) as [cell|];
    [|lia].
  exists cell. split; [reflexivity|].
  destruct (is_occupied cell); [lia|]. auto.
Qed.

(** X23. A unit on a cell that holds 0 is always moved by [mining],
    never left [Still] -- also onto a ship: when all four neighbours are
    occupied it is sent [North]. *)
Theorem mining_empty_cell_moves (m : GameMap) (ship : Entity) (here : MapCell) :
  wf_map m ->
  getitem m (entity_position ship) = Some here ->
  halite_amount here = 0 ->
  exists move_dir,
    mining m ship = Some move_dir ∧ move_dir ∈ get_all_cardinals ∧
    ((forall direction cell,
        direction ∈ get_all_cardinals ->
        getitem m (directional_offset (entity_position ship) direction) = Some cell ->
        is_occupied cell = true) ->
     move_dir = North).
Proof.
  intros Hwf Hhere H0.
  destruct (mining_spec m ship Hwf)
    as (here' & d & before & after & Hhere' & El & Hb & _ & ->).
  assert (here' = here) by congruence. subst here'.
  rewrite H0. simpl. exists d. split; [reflexivity|].
  split; [rewrite El; apply elem_of_app; right; constructor|].
  intros Hocc.
  assert (Hval : forall x, x ∈ get_all_cardinals -> mining_value m ship x = -1).
  { intros x Hx. unfold mining_value.
    destruct (getitem m (directional_offset (entity_position ship) x)) as [cell|] eqn:E;
      [|reflexivity].
    rewrite (Hocc x cell Hx E). reflexivity. }
  destruct before as [|x before].
  - simpl in El. unfold get_all_cardinals in El. congruence.
  - exfalso. assert (x = North) by (unfold get_all_cardinals in El; simpl in El; congruence).
    subst x. specialize (Hb North ltac:(constructor)).
    rewrite (Hval North), (Hval d) in Hb; [lia | | ].
    + rewrite El. apply elem_of_app; right; constructor.
    + unfold get_all_cardinals. constructor.
Qed.

Lemma mining_first_largest_witness :
  exists here move_dir,
    getitem (with_halite (uniform_map 3 3 10) (Position.mk 2 1) 50)
      (Position.mk 1 1) = Some here ∧
    mining (with_halite (uniform_map 3 3 10) (Position.mk 2 1) 50)
      (mkEntity 0 1 (Position.mk 1 1) 0) = Some move_dir.
Proof.
  destruct (mining_first_largest
              (with_halite (uniform_map 3 3 10) (Position.mk 2 1) 50)
              (mkEntity 0 1 (Position.mk 1 1) 0) ltac:(solve_wf_map))
    as (here & move_dir & Hhere & Hmine & _).
  exists here, move_dir. split; [exact Hhere | exact Hmine].
Defined.

Lemma mining_avoids_ships_witness :
  East = Still ∨
  (East ∈ get_all_cardinals ∧
   exists cell,
     getitem
       (with_ship (with_halite (uniform_map 3 3 10) (Position.mk 2 1) 50)
          (Position.mk 1 0) (mkEntity 0 7 (Position.mk 1 0) 0))
       (directional_offset (Position.mk 1 1) East) = Some cell ∧
     is_occupied cell = false ∧
     10 < halite_amount cell).
Proof.
  exact (mining_avoids_ships
           (with_ship (with_halite (uniform_map 3 3 10) (Position.mk 2 1) 50)
              (Position.mk 1 0) (mkEntity 0 7 (Position.mk 1 0) 0))
           (mkEntity 0 1 (Position.mk 1 1) 0)
           (mkMapCell (Position.mk 1 1) 10 None None 0) East
           ltac:(solve_wf_map) eq_refl ltac:(simpl; lia) eq_refl).
Defined.

Lemma mining_empty_cell_moves_witness :
  exists move_dir,
    mining
      (with_ship (with_ship (with_ship (with_ship (uniform_map 3 3 0)
         (Position.mk 1 0) (mkEntity 0 7 (Position.mk 1 0) 0))
         (Position.mk 1 2) (mkEntity 0 8 (Position.mk 1 2) 0))
         (Position.mk 2 1) (mkEntity 0 9 (Position.mk 2 1) 0))
         (Position.mk 0 1) (mkEntity 0 10 (Position.mk 0 1) 0))
      (mkEntity 0 1 (Position.mk 1 1) 0) = Some move_dir ∧
    move_dir = North.
Proof.
  destruct (mining_empty_cell_moves
              (with_ship (with_ship (with_ship (with_ship (uniform_map 3 3 0)
                 (Position.mk 1 0) (mkEntity 0 7 (Position.mk 1 0) 0))
                 (Position.mk 1 2) (mkEntity 0 8 (Position.mk 1 2) 0))
                 (Position.mk 2 1) (mkEntity 0 9 (Position.mk 2 1) 0))
                 (Position.mk 0 1) (mkEntity 0 10 (Position.mk 0 1) 0))
              (mkEntity 0 1 (Position.mk 1 1) 0)
              (mkMapCell (Position.mk 1 1) 0 None None 0)
              ltac:(solve_wf_map) eq_refl eq_refl)
    as (move_dir & Hmine & _ & Hnorth).
  exists move_dir. split; [exact Hmine|]. apply Hnorth.
  intros direction cell Hd.
  unfold get_all_cardinals in Hd.
  repeat (apply elem_of_cons in Hd as [-> | Hd];
          [intros E; vm_compute in E; injection E as <-; reflexivity|]).
  apply elem_of_nil in Hd. contradiction.
Defined.

(** ** What the cost map depends on *)

Lemma halite_at_amounts (m m' : GameMap) (p : Position) :
  width m' = width m -> height m' = height m ->
  amounts m' = amounts m ->
  halite_at m' p = halite_at m p.
Proof.
  intros Hw Hh Hamounts. unfold amounts in Hamounts. unfold halite_at, getitem.
  rewrite (normalize_same_extent m m' p Hw Hh).
  generalize (Z.to_nat (Position.y (normalize m p))) as i,
             (Z.to_nat (Position.x (normalize m p))) as j.
  intros i j.
  pose proof (f_equal (fun l => l !! i) Hamounts) as H1.
  cbv beta in H1. rewrite !list_lookup_fmap in H1.
  destruct (_cells m' !! i) as [row'|], (_cells m !! i) as [row|];
    simpl in *; try discriminate; [|reflexivity].
  injection H1 as H1.
  pose proof (f_equal (fun l => l !! j) H1) as H2.
  cbv beta in H2. rewrite !list_lookup_fmap in H2.
  destruct (row' !! j), (row !! j); simpl in *; congruence.
Qed.

Section AmountsOnly.
Context {po : PositionOrder}.

Lemma dijkstra_loop_amounts (m m' : GameMap) :
  wf_map m -> wf_map m' ->
  width m' = width m -> height m' = height m ->
  (forall p, halite_at m' p = halite_at m p) ->
  forall fuel st, dijkstra_loop m' fuel st = dijkstra_loop m fuel st.
Proof.
  intros Hwf Hwf' Hw Hh Hat.
  assert (Hrelaxed : forall cost p q, relaxed m' cost p q = relaxed m cost p q).
  { intros cost p q. unfold relaxed, relax_entry.
    rewrite !(normalize_same_extent m m') by assumption. rewrite !Hat. reflexivity. }
  assert (Hvisited : forall p, visited_halite m' p = visited_halite m p).
  { intros p. unfold visited_halite.
    rewrite !(normalize_same_extent m m') by assumption. rewrite !Hat. reflexivity. }
  induction fuel as [|fuel IH]; intros [[q cm] avg]; simpl; [reflexivity|].
  destruct (heappop Qcompare q) as [[[cost p] r]|].
  - rewrite !dijkstra_visit_spec by assumption.
    rewrite Hrelaxed, Hvisited. destruct (cm !! p); apply IH.
  - rewrite Hw, Hh. reflexivity.
Qed.

(** X24. [dijkstra_map] reads the amounts and nothing else: two
    well-formed grids of the same extent that hold the same amounts give
    the same cost map and the same second value, whatever ships and
    structures are on them. *)
Theorem dijkstra_map_amounts_only (m m' : GameMap) (base : Entity) :
  wf_map m -> wf_map m' ->
  width m' = width m -> height m' = height m ->
  amounts m' = amounts m ->
  dijkstra_map m' base = dijkstra_map m base.
Proof.
  intros Hwf Hwf' Hw Hh Hamounts. unfold dijkstra_map, loop_fuel.
  rewrite Hw, Hh. apply dijkstra_loop_amounts; try assumption.
  intros p. apply halite_at_amounts; assumption.
Qed.

Lemma dijkstra_map_keys (m : GameMap) (base : Entity)
    (cost_map : gmap Position Q) (avg_halite : Q) :
  wf_map m -> normalized m (entity_position base) ->
  dijkstra_map m base = Returned (cost_map, avg_halite) ->
  forall p, normalized m p <-> is_Some (cost_map !! p).
Proof.
  intros Hwf Hb Hret.
  apply (frontier_inv_done m (entity_position base) (fun _ _ => True) Hwf Hb);
    [auto|].
  refine (dijkstra_loop_invariant m
            (frontier_inv m (entity_position base) (fun _ _ => True)) Hwf _
            (loop_fuel m) [(0%Q, entity_position base)] ∅ 0 (cost_map, avg_halite)
            _ Hret).
  - intros q cm cost p r HI Epop.
    eapply (frontier_inv_step m (entity_position base) (fun _ _ => True));
      eauto.
  - apply frontier_inv_init; auto.
Qed.

(** X25. On the cost map that [dijkstra_map] returns for a base on a
    normalized position, [navigate_back] fails with a KeyError for a
    ship whose position is not normalized, and returns a direction for
    every ship whose position is. *)
Theorem navigate_back_key_error (m : GameMap) (base ship : Entity)
    (cost_map : gmap Position Q) (avg_halite : Q) :
  wf_map m -> normalized m (entity_position base) ->
  dijkstra_map m base = Returned (cost_map, avg_halite) ->
  (normalized m (entity_position ship) ->
     is_Some (navigate_back m ship cost_map)) ∧
  (~ normalized m (entity_position ship) ->
     navigate_back m ship cost_map = None).
Proof.
  intros Hwf Hb Hret. pose proof Hwf as (Hw & Hh & _).
  pose proof (dijkstra_map_keys m base cost_map avg_halite Hwf Hb Hret) as Hkeys.
  split.
  - intros Hs. unfold navigate_back.
    destruct (proj1 (Hkeys _) Hs) as [cost ->]. cbn -[foldl get_all_cardinals].
    rewrite navigate_back_fold.
    + destruct (foldl _ _ _). simpl. eauto.
    + intros d _. apply Hkeys, normalize_normalized; assumption.
  - intros Hs. unfold navigate_back.
    destruct (cost_map !! entity_position ship) as [c|] eqn:E; [|reflexivity].
    exfalso. apply Hs, Hkeys. eauto.
Qed.
End AmountsOnly.

(** X26. Swapping source and target turns each bearing of
    [_get_target_direction] into its opposite. *)
Theorem get_target_direction_swap (source target : Position) :
  _get_target_direction target source =
    (invert <$> (_get_target_direction source target).1,
     invert <$> (_get_target_direction source target).2).
Proof.
  unfold _get_target_direction.
  destruct (Z.ltb_spec (Position.y source) (Position.y target)),
           (Z.ltb_spec (Position.y target) (Position.y source)),
           (Z.ltb_spec (Position.x source) (Position.x target)),
           (Z.ltb_spec (Position.x target) (Position.x source));
    simpl; try reflexivity; lia.
Qed.

Lemma dijkstra_map_amounts_only_witness :
  dijkstra_map (po := lexicographic)
    (with_structure
       (with_ship (uniform_map 3 3 100) (Position.mk 1 1)
          (mkEntity 0 7 (Position.mk 1 1) 0))
       (Position.mk 2 2) (mkEntity 1 3 (Position.mk 2 2) 0))
    (mkEntity 0 0 (Position.mk 0 0) 0)
  = dijkstra_map (po := lexicographic) (uniform_map 3 3 100)
      (mkEntity 0 0 (Position.mk 0 0) 0).
Proof.
  exact (dijkstra_map_amounts_only (po := lexicographic)
           (uniform_map 3 3 100)
           (with_structure
              (with_ship (uniform_map 3 3 100) (Position.mk 1 1)
                 (mkEntity 0 7 (Position.mk 1 1) 0))
              (Position.mk 2 2) (mkEntity 1 3 (Position.mk 2 2) 0))
           (mkEntity 0 0 (Position.mk 0 0) 0)
           ltac:(solve_wf_map) ltac:(solve_wf_map) eq_refl eq_refl eq_refl).
Defined.

Lemma navigate_back_key_error_witness :
  exists cost_map avg_halite,
    dijkstra_map (po := lexicographic) (uniform_map 3 3 100)
      (mkEntity 0 0 (Position.mk 0 0) 0) = Returned (cost_map, avg_halite) ∧
    navigate_back (uniform_map 3 3 100) (mkEntity 0 1 (Position.mk 3 0) 0) cost_map
      = None.
Proof.
  destruct (dijkstra_map_returns (po := lexicographic) (uniform_map 3 3 100)
              (mkEntity 0 0 (Position.mk 0 0) 0) ltac:(solve_wf_map))
    as ([cost_map avg_halite] & Hret & _).
  exists cost_map, avg_halite. split; [exact Hret|].
  apply (navigate_back_key_error (po := lexicographic) (uniform_map 3 3 100)
           (mkEntity 0 0 (Position.mk 0 0) 0) (mkEntity 0 1 (Position.mk 3 0) 0)
           cost_map avg_halite
           ltac:(solve_wf_map) ltac:(unfold normalized; simpl; lia) Hret).
  unfold normalized; simpl; lia.
Defined.
